(** * Light-music controller: the sense -> analyse -> render cycle

    A shallow embedding of [lightMusicTask] from the two sketches of the
    repository,

      - [src/main.cpp]          (two strips: circles 16+12, squares 16+16),
      - [src/unnamed/part_000]  (four strips: 16-circle, 12-circle, two squares),

    and the properties of the signal pipeline and of the mode-dependent
    renderer.

    Numeric conventions of the embedding.

      - A C++ [double] is a rational ([Q]).  Where the source turns a
        computed quotient into an [int] or compares it to take a branch (the
        normalisation of the [int] amplitudes, the delay of the rotating
        dot), every operation is followed by its rounding to IEEE-754
        binary64 ([round64], round to nearest, ties to even); the values
        there are far from the overflow and subnormal ranges, which are not
        modelled.  Elsewhere the arithmetic is exact and the decimal
        literals of the source (0.7, 0.3, 0.8, 1.2, 1.25, ...) stand for the
        rationals they spell: the statements about those parts are
        real-valued formulas, ranges and signs.
      - A C++ [int] / [long] is a [Z].  Signed overflow is undefined in the
        source and no value of the pipeline comes near the 32-bit range, so no
        wrap-around is written for it; the conversions that do wrap
        ([uint8_t] colour channels, [unsigned long] tick differences) are
        written out.
      - [double] to [int] conversion truncates toward zero ([to_int]).
      - The loops over [i = 0 .. SAMPLES-1] are structural recursions or folds
        over [seq 0 SAMPLES]; an array is a [list] read with [nth].
      - [arduinoFFT] and [sqrt] are linked from outside the repository: they
        are the operations of the class [Platform]. *)

From Stdlib Require Import String ZArith QArith Qabs Qround Qpower List Bool Lia Lqa.
Import ListNotations.

Local Open Scope Z_scope.

(** ** Numbers *)

Definition to_int (d : Q) : Z := Z.quot (Qnum d) (Zpos (Qden d)).
Definition of_int (z : Z) : Q := inject_Z z.
Definition to_u8 (z : Z) : Z := z mod 256.
Definition to_u32 (z : Z) : Z := z mod 2 ^ 32.

Definition Qltb (x y : Q) : bool := negb (Qle_bool y x).
Definition Qleb (x y : Q) : bool := Qle_bool x y.

(** ** Rounding to [double]

    A positive [q] with [2^b <= q < 2^(b+1)] is rounded to the nearest
    multiple of [2^(b-52)], the unit in the last place of its binade: the
    53-bit significand [q / 2^(b-52)] is rounded to the nearest integer, to
    the even one of the two when it is half way.  Negative values round as
    their opposites do. *)

Definition pow2 (e : Z) : Q := (2 ^ e)%Q.

Definition nearest_even (s : Q) : Z :=
  let f := Qfloor s in
  match (s - inject_Z f ?= 1 # 2)%Q with
  | Lt => f
  | Gt => f + 1
  | Eq => if Z.even f then f else f + 1
  end.

(** [floor (log2 q)] of a positive [q]. *)
Definition binade (q : Q) : Z :=
  let l := Z.log2 (Qnum q) - Z.log2 (Zpos (Qden q)) in
  if Qle_bool (pow2 l) q then l else l - 1.

Definition round_pos (q : Q) : Q :=
  let u := pow2 (binade q - 52) in (inject_Z (nearest_even (q / u)) * u)%Q.

Definition round64 (q : Q) : Q :=
  match Qnum q with
  | Z0 => 0%Q
  | Zpos _ => round_pos q
  | Zneg _ => (- round_pos (- q))%Q
  end.

(** Half the distance from 1 to the next [double]. *)
Definition unit_roundoff : Q := 1 # (2 ^ 53).

(** [x * y] in [double]s. *)
Definition dmul (x y : Q) : Q := round64 (x * y).

(** The helpers of the Arduino core used by the sketches ([WMath.cpp],
    [Arduino.h]): [map] is the integer rescaling of the Arduino reference,
    which does not constrain its result to the output range. *)
Module Arduino.

Definition map (x in_min in_max out_min out_max : Z) : Z :=
  let divisor := in_max - in_min in
  if divisor =? 0 then -1
  else Z.quot ((x - in_min) * (out_max - out_min)) divisor + out_min.

Definition constrain (amt low high : Z) : Z :=
  if amt <? low then low else if high <? amt then high else amt.

Definition min (a b : Z) : Z := if a <? b then a else b.

Definition abs (x : Q) : Q := Qabs x.

End Arduino.

(** ** Constants of the sketches *)

Definition SAMPLES : nat := 128.
Definition SAMPLING_FREQ : Z := 10000.

(** ** 1-2. Acquisition and anomaly correction

    [analogRead i] is the reading returned by the [i]-th call of
    [analogRead(34)] in the block.  [prev] is [vReal[i-1]] as already
    stored. *)

Definition out_of_range (v : Q) : bool := Qltb v 0 || Qltb 4095 v.

Definition corrected (i : nat) (prev : Q) (r : Z) : Q :=
  let v := of_int r in
  if out_of_range v then (if (0 <? i)%nat then prev else 2048%Q) else v.

Fixpoint acquire_from (analogRead : nat -> Z) (i : nat) (prev : Q) (n : nat)
  : list Q :=
  match n with
  | O => []
  | S n' =>
      let v := corrected i prev (analogRead i) in
      v :: acquire_from analogRead (S i) v n'
  end.

Definition acquire (analogRead : nat -> Z) : list Q :=
  acquire_from analogRead 0 0%Q SAMPLES.

(** [vRawData] of [part_000]: the readings as read, before any correction. *)
Definition raw_copy (analogRead : nat -> Z) : list Q :=
  List.map (fun i => of_int (analogRead i)) (seq 0 SAMPLES).

(** ** 3. DC removal *)

Definition sum (v : list Q) : Q := fold_left Qplus v 0%Q.

Definition mean (v : list Q) : Q := (sum v / of_int (Z.of_nat SAMPLES))%Q.

Definition remove_dc (v : list Q) : list Q :=
  let m := mean v in List.map (fun x => (x - m)%Q) v.

(** ** 4. IIR smoothing *)

Fixpoint iir_from (prev : Q) (x : list Q) : list Q :=
  match x with
  | [] => []
  | xi :: x' =>
      let yi := ((7 # 10) * prev + (3 # 10) * xi)%Q in
      yi :: iir_from yi x'
  end.

Definition iir (x : list Q) : list Q :=
  match x with
  | [] => []
  | x0 :: x' => x0 :: iir_from x0 x'
  end.

(** ** 5-6. Windowing, transform, magnitude: the external library

    [FFT.windowing], [FFT.compute] and [FFT.complexToMagnitude] come from
    arduinoFFT and [sqrt] from the C library.  The sketches only call them;
    the development is parametric in them. *)

Class Platform : Type := {
  sqrt : Q -> Q;
  FFT_windowing : list Q -> list Q;
  FFT_compute : list Q -> list Q -> list Q * list Q;
  FFT_complexToMagnitude : list Q -> list Q -> list Q
}.

Definition all_zero (v : list Q) : Prop := Forall (fun x => x == 0) v.

(** What the development assumes of the library when it needs anything at
    all: silence in, silence out (the transform is linear, and the square
    root of zero is zero). *)
Record zero_preserving (P : Platform) : Prop := {
  sqrt_zero : forall q, q == 0 -> sqrt q == 0;
  windowing_zero : forall v, all_zero v -> all_zero (FFT_windowing v);
  compute_zero : forall re im, all_zero re -> all_zero im ->
      all_zero (fst (FFT_compute re im)) /\ all_zero (snd (FFT_compute re im));
  complexToMagnitude_zero : forall re im, all_zero re -> all_zero im ->
      all_zero (FFT_complexToMagnitude re im)
}.

(** What the bound on the analysed bands assumes of [sqrt]: its result is
    not negative and not below half the square root, as is that of any
    [sqrt] that rounds. *)
Definition sqrt_not_small (P : Platform) : Prop :=
  forall q, (0 <= q)%Q -> (0 <= sqrt q)%Q /\ (q <= 4 * (sqrt q * sqrt q))%Q.

(** ** Divisions by a run-time energy estimate

    The divisions of a cycle whose divisor is an energy estimate are
    logged, divisor included, so that "no division by the energy estimate
    has a zero divisor" and "a division by zero is performed" are
    statements about the log of a run.  Execution goes on after such a
    division, as it does with IEEE doubles.  The other divisors of a cycle
    are constants of the source, but for [count + 1] in the moving average,
    which is an [int] kept in [smoothed]. *)

Inductive event : Type := Divide (divisor : Q).

Definition divides_by_zero (e : event) : Prop :=
  match e with Divide d => d == 0 end.

Definition M (A : Type) : Type := (A * list event)%type.

Definition ret {A} (a : A) : M A := (a, []).

Definition bind {A B} (m : M A) (f : A -> M B) : M B :=
  let (a, l1) := m in let (b, l2) := f a in (b, l1 ++ l2).

Notation "x <- m ;; k" := (bind m (fun x => k))
  (at level 61, m at next level, right associativity).

Definition value {A} (m : M A) : A := fst m.
Definition log {A} (m : M A) : list event := snd m.

Definition fdiv (x y : Q) : M Q := ((x / y)%Q, [Divide y]).

(** The same division with its quotient rounded to [double]. *)
Definition ddiv (x y : Q) : M Q := (round64 (x / y), [Divide y]).

(** ** 7-8. Bands, energy, normalisation *)

Record amps : Type := { ampR : Z; ampG : Z; ampB : Z }.

(** The accumulators are the global [int]s: every [+=] converts back to
    [int]. *)
Definition band_step (vReal : list Q) (acc : Z * Z * Z) (i : nat) : Z * Z * Z :=
  let '(aR, aG, aB) := acc in
  let m := Arduino.abs (nth i vReal 0%Q) in
  if (i <? 20)%nat then (to_int (of_int aR + m), aG, aB)
  else if (i <? 80)%nat then (aR, to_int (of_int aG + m), aB)
  else (aR, aG, to_int (of_int aB + m)).

Definition band_amplitudes (vReal : list Q) : amps :=
  let '(aR, aG, aB) := fold_left (band_step vReal) (seq 0 SAMPLES) (0, 0, 0) in
  {| ampR := Z.quot aR 20; ampG := Z.quot aG 60; ampB := Z.quot aB 48 |}.

Definition totalEnergy (vReal : list Q) : Q :=
  fold_left (fun e i => (e + nth i vReal 0 * nth i vReal 0)%Q)
            (seq 0 SAMPLES) 0%Q.

(** [ampR = (ampR / avgEnergy) * 150;] and its two siblings: the quotient
    and the product are [double]s, the assignment to the [int] truncates. *)
Definition normalize (a : amps) (avgEnergy : Q) : M amps :=
  if Qltb 0 avgEnergy then
    qR <- ddiv (of_int (ampR a)) avgEnergy ;;
    qG <- ddiv (of_int (ampG a)) avgEnergy ;;
    qB <- ddiv (of_int (ampB a)) avgEnergy ;;
    ret {| ampR := to_int (dmul qR 150);
           ampG := to_int (dmul qG 100);
           ampB := to_int (dmul qB 150) |}
  else ret a.

(** ** 9. The moving average and the thresholds *)

Record smoothed : Type :=
  { avgAmpR : Q; avgAmpG : Q; avgAmpB : Q; count : Z }.

Definition smoothed_init : smoothed :=
  {| avgAmpR := 0; avgAmpG := 0; avgAmpB := 0; count := 0 |}.

Definition average (avg : Q) (count new : Z) : Q :=
  ((avg * of_int count + of_int new) / of_int (count + 1))%Q.

Definition smooth (s : smoothed) (a : amps) : smoothed :=
  let count' := count s + 1 in
  {| avgAmpR := average (avgAmpR s) (count s) (ampR a);
     avgAmpG := average (avgAmpG s) (count s) (ampG a);
     avgAmpB := average (avgAmpB s) (count s) (ampB a);
     count := if 50 <? count' then 50 else count' |}.

Record thresholds : Type := { porigR : Z; porigG : Z; porigB : Z }.

Definition thresholds_of (s : smoothed) : thresholds :=
  {| porigR := to_int (avgAmpR s * (8 # 10));
     porigG := to_int (avgAmpG s * (12 # 10));
     porigB := to_int (avgAmpB s * (8 # 10)) |}.

Record analysis : Type := { bands : amps; energy : Q }.

Section Analyzer.
Context {P : Platform}.

Definition spectrum (vReal : list Q) : list Q :=
  let vImag := repeat 0%Q SAMPLES in
  let vReal := FFT_windowing vReal in
  let (vReal, vImag) := FFT_compute vReal vImag in
  FFT_complexToMagnitude vReal vImag.

Definition avgEnergy (vReal : list Q) : Q :=
  sqrt (totalEnergy vReal / of_int (Z.of_nat SAMPLES))%Q.

(** Steps 3 to 8 on the corrected block. *)
Definition analyse (vReal : list Q) : M analysis :=
  let vReal := remove_dc vReal in
  let vReal := iir vReal in
  let vReal := spectrum vReal in
  let a := band_amplitudes vReal in
  let e := avgEnergy vReal in
  a' <- normalize a e ;;
  ret {| bands := a'; energy := e |}.

End Analyzer.

(** ** 10. LEDs: colours, writes, frames *)

Record CRGB : Type := { red : Z; green : Z; blue : Z }.

(** [CRGB(ir, ig, ib)]: the constructor takes [uint8_t] channels. *)
Definition rgb (ir ig ib : Z) : CRGB :=
  {| red := to_u8 ir; green := to_u8 ig; blue := to_u8 ib |}.

Definition Black : CRGB := rgb 0 0 0.

Definition CRGB_eqb (c d : CRGB) : bool :=
  (red c =? red d) && (green c =? green d) && (blue c =? blue d).

Definition is_lit (c : CRGB) : bool := negb (CRGB_eqb c Black).

Definition lit (leds : list CRGB) : nat := length (filter is_lit leds).

Definition dark (leds : list CRGB) : Prop := Forall (fun c => c = Black) leds.

(** One statement that stores into an LED array. *)
Inductive write : Type :=
| Assign (i : Z) (c : CRGB)             (* leds[i] = c;                       *)
| Fill (first last : Z) (c : CRGB).     (* std::fill(leds+first, leds+last, c) *)

(** [fill_solid(leds + first, n, c)] *)
Definition fill_solid (first n : Z) (c : CRGB) : write := Fill first (first + n) c.

Definition write_first (w : write) : Z :=
  match w with Assign i _ => i | Fill first _ _ => first end.

Definition write_last (w : write) : Z :=
  match w with Assign i _ => i + 1 | Fill _ last _ => last end.

Definition colour (w : write) : CRGB :=
  match w with Assign _ c => c | Fill _ _ c => c end.

Definition written (w : write) (k : Z) : bool :=
  (write_first w <=? k) && (k <? write_last w).

(** The array after the statement.  A store outside the array is undefined
    in the source; here it is dropped, and [in_bounds] is what the safety
    statements are about. *)
Fixpoint store_from (k : Z) (w : write) (leds : list CRGB) : list CRGB :=
  match leds with
  | [] => []
  | c :: leds' => (if written w k then colour w else c) :: store_from (k + 1) w leds'
  end.

Definition store (w : write) (leds : list CRGB) : list CRGB := store_from 0 w leds.

Definition in_bounds (lo hi : Z) (w : write) : Prop :=
  lo <= write_first w /\ write_first w <= write_last w /\ write_last w <= hi.

(** The calls on the LED driver made by a render step. *)
Inductive led_op (strip : Type) : Type :=
| Clear                                  (* FastLED.clear() *)
| Wr (s : strip) (w : write)
| Show.                                  (* FastLED.show()  *)
Arguments Clear {strip}.
Arguments Wr {strip} s w.
Arguments Show {strip}.

Class Strips (strip frame : Type) : Type := {
  leds : frame -> strip -> list CRGB;
  set_leds : frame -> strip -> list CRGB -> frame;
  num_leds : strip -> Z;
  cleared : frame
}.

Section Driver.
Context {strip frame : Type} {SF : Strips strip frame}.

(** Runs the calls in order; returns the buffers at the end and the frames
    pushed to the strips, oldest first. *)
Fixpoint run_ops (f : frame) (ops : list (led_op strip)) : frame * list frame :=
  match ops with
  | [] => (f, [])
  | Clear :: ops' => run_ops cleared ops'
  | Wr s w :: ops' => run_ops (set_leds f s (store w (leds f s))) ops'
  | Show :: ops' => let (f', shown) := run_ops f ops' in (f', f :: shown)
  end.

Definition writes_of (ops : list (led_op strip)) : list (strip * write) :=
  flat_map (fun o => match o with Wr s w => [(s, w)] | _ => [] end) ops.

End Driver.

(** ** Render rules shared by the sketches *)

(** Tiered bars: the three [if]/[else if] chains of mode 1 (and of mode 4 of
    [main.cpp]).  Each chain is one store. *)
Definition bass_tier (ampR porigR : Z) : write :=
  let c := rgb 255 0 0 in
  if ampR <? porigR then Assign 0 c
  else if Qltb (of_int ampR) (of_int porigR * (125 # 100)) then Fill 0 2 c
  else if Qltb (of_int ampR) (of_int porigR * (15 # 10)) then Fill 0 3 c
  else if Qltb (of_int ampR) (of_int porigR * (175 # 100)) then Fill 0 4 c
  else if ampR <? porigR * 2 then Fill 0 5 c
  else Fill 0 6 c.

Definition mid_tier (ampG porigG : Z) : write :=
  let c := rgb 0 255 0 in
  if ampG <? porigG then Assign 6 c
  else if Qltb (of_int ampG) (of_int porigG * (13 # 10)) then Fill 6 8 c
  else if Qltb (of_int ampG) (of_int porigG * (16 # 10)) then Fill 6 9 c
  else if Qltb (of_int ampG) (of_int porigG * (19 # 10)) then Fill 6 10 c
  else Fill 6 11 c.

Definition treble_tier (ampB porigB : Z) : write :=
  let c := rgb 0 0 255 in
  if ampB <? porigB then Assign 11 c
  else if Qltb (of_int ampB) (of_int porigB * (13 # 10)) then Fill 11 13 c
  else if Qltb (of_int ampB) (of_int porigB * (16 # 10)) then Fill 11 14 c
  else if Qltb (of_int ampB) (of_int porigB * (19 # 10)) then Fill 11 15 c
  else Fill 11 16 c.

Definition tiered_bars {strip : Type} (s : strip) (a : amps) (t : thresholds)
  : list (led_op strip) :=
  [ Wr s (bass_tier (ampR a) (porigR t));
    Wr s (mid_tier (ampG a) (porigG t));
    Wr s (treble_tier (ampB a) (porigB t)) ].

(** Brightness wash: [int totalAmp = (ampR + ampG + ampB) / 3;
    int brightness = map(totalAmp, 0, ceiling, 0, 255);] *)
Definition totalAmp (a : amps) : Z := Z.quot (ampR a + ampG a + ampB a) 3.

Definition brightness (ceiling : Z) (a : amps) : Z :=
  Arduino.map (totalAmp a) 0 ceiling 0 255.

(** ** The sketch of [src/main.cpp]: two strips *)

Module Main.

Definition NUM_LEDS_CIRCLE1 : Z := 16.
Definition NUM_LEDS_CIRCLE2 : Z := 12.
Definition NUM_LEDS_SQUARE1 : Z := 16.
Definition NUM_LEDS_SQUARE2 : Z := 16.
Definition NUM_LEDS_CIRCLES_TOTAL : Z := 28.
Definition NUM_LEDS_SQUARES_TOTAL : Z := 32.

Inductive strip : Type := Circles | Squares.

Record frame : Type :=
  { leds_circles : list CRGB; leds_squares : list CRGB }.

#[global] Instance strips : Strips strip frame := {
  leds f s := match s with Circles => leds_circles f | Squares => leds_squares f end;
  set_leds f s l :=
    match s with
    | Circles => {| leds_circles := l; leds_squares := leds_squares f |}
    | Squares => {| leds_circles := leds_circles f; leds_squares := l |}
    end;
  num_leds s :=
    match s with
    | Circles => NUM_LEDS_CIRCLES_TOTAL
    | Squares => NUM_LEDS_SQUARES_TOTAL
    end;
  cleared := {| leds_circles := repeat Black (Z.to_nat NUM_LEDS_CIRCLES_TOTAL);
                leds_squares := repeat Black (Z.to_nat NUM_LEDS_SQUARES_TOTAL) |}
}.

(** The [if (mode == 1) ... else if (mode == 7) ...] chain between
    [FastLED.clear()] and [FastLED.show()], for the value [mode] that the
    global has while the chain runs.  (The global is [volatile] and read at
    each test; a handler of the web server that stores into it between two
    tests is outside this model of a pass.) *)
Definition render (mode : Z) (a : amps) (t : thresholds) : list (led_op strip) :=
  if mode =? 1 then tiered_bars Circles a t
  else if mode =? 2 then
    let brightness := brightness 600 a in
    [ Wr Circles (Fill NUM_LEDS_CIRCLE1 NUM_LEDS_CIRCLES_TOTAL (rgb brightness 0 brightness)) ]
  else if mode =? 3 then
    let brightness := brightness 600 a in
    [ Wr Circles (Fill 0 NUM_LEDS_CIRCLES_TOTAL (rgb brightness 0 brightness)) ]
  else if mode =? 4 then tiered_bars Squares a t
  else if mode =? 5 then
    let brightness := brightness 600 a in
    [ Wr Squares (Fill NUM_LEDS_SQUARE1 NUM_LEDS_SQUARES_TOTAL (rgb brightness 0 brightness)) ]
  else if mode =? 6 then
    let brightness := brightness 600 a in
    [ Wr Squares (Fill 0 NUM_LEDS_SQUARES_TOTAL (rgb brightness 0 brightness)) ]
  else if mode =? 7 then
    let brightness := brightness 1500 a in
    [ Wr Circles (Fill 0 NUM_LEDS_CIRCLES_TOTAL (rgb brightness 0 brightness));
      Wr Squares (Fill 0 NUM_LEDS_SQUARES_TOTAL (rgb brightness 0 brightness)) ]
  else [].

Definition render_step (mode : Z) (a : amps) (t : thresholds) : list (led_op strip) :=
  Clear :: render mode a t ++ [Show].

(** The frames pushed by the render step, from the buffers [f0]. *)
Definition frames (f0 : frame) (mode : Z) (a : amps) (t : thresholds) : list frame :=
  snd (run_ops f0 (render_step mode a t)).

(** What persists from one pass of the [for (;;)] loop to the next. *)
Record state : Type := { avg : smoothed; buffers : frame }.

Definition state_init : state := {| avg := smoothed_init; buffers := cleared |}.

(** What a pass reads from outside: the 128 readings and [mode]. *)
Record input : Type := { analogRead : nat -> Z; mode : Z }.

Record output : Type := { next : state; shown : list frame }.

Section Task.
Context {P : Platform}.

(** One pass of the loop of [lightMusicTask]. *)
Definition lightMusicTask (st : state) (inp : input) : M output :=
  let vReal := acquire (analogRead inp) in
  an <- analyse vReal ;;
  let avg' := smooth (avg st) (bands an) in
  let t := thresholds_of avg' in
  let (f, pushed) := run_ops (buffers st) (render_step (mode inp) (bands an) t) in
  ret {| next := {| avg := avg'; buffers := f |}; shown := pushed |}.

End Task.

End Main.

(** ** The sketch of [src/unnamed/part_000]: four strips *)

Module Part000.

Definition NUM_LEDS_16_CIRCLE : Z := 16.
Definition NUM_LEDS_12_CIRCLE : Z := 12.
Definition NUM_LEDS_L_SQUARE : Z := 16.
Definition NUM_LEDS_R_SQUARE : Z := 16.

Inductive strip : Type := Circle16 | Circle12 | LSquare | RSquare.

Record frame : Type :=
  { leds_16_circle : list CRGB;
    leds_12_circle : list CRGB;
    leds_L_SQUARE : list CRGB;
    leds_R_SQUARE : list CRGB }.

#[global] Instance strips : Strips strip frame := {
  leds f s :=
    match s with
    | Circle16 => leds_16_circle f
    | Circle12 => leds_12_circle f
    | LSquare => leds_L_SQUARE f
    | RSquare => leds_R_SQUARE f
    end;
  set_leds f s l :=
    match s with
    | Circle16 => {| leds_16_circle := l; leds_12_circle := leds_12_circle f;
                     leds_L_SQUARE := leds_L_SQUARE f; leds_R_SQUARE := leds_R_SQUARE f |}
    | Circle12 => {| leds_16_circle := leds_16_circle f; leds_12_circle := l;
                     leds_L_SQUARE := leds_L_SQUARE f; leds_R_SQUARE := leds_R_SQUARE f |}
    | LSquare => {| leds_16_circle := leds_16_circle f; leds_12_circle := leds_12_circle f;
                    leds_L_SQUARE := l; leds_R_SQUARE := leds_R_SQUARE f |}
    | RSquare => {| leds_16_circle := leds_16_circle f; leds_12_circle := leds_12_circle f;
                    leds_L_SQUARE := leds_L_SQUARE f; leds_R_SQUARE := l |}
    end;
  num_leds s :=
    match s with
    | Circle16 => NUM_LEDS_16_CIRCLE
    | Circle12 => NUM_LEDS_12_CIRCLE
    | LSquare => NUM_LEDS_L_SQUARE
    | RSquare => NUM_LEDS_R_SQUARE
    end;
  cleared := {| leds_16_circle := repeat Black (Z.to_nat NUM_LEDS_16_CIRCLE);
                leds_12_circle := repeat Black (Z.to_nat NUM_LEDS_12_CIRCLE);
                leds_L_SQUARE := repeat Black (Z.to_nat NUM_LEDS_L_SQUARE);
                leds_R_SQUARE := repeat Black (Z.to_nat NUM_LEDS_R_SQUARE) |}
}.

(** *** Mode 2: the rotating dot on the small circle

    [millis_check] and [millis_reset] are the values of [millis()] in the
    condition and in [current_time = millis()].  The quotient
    [1000000 / avgEnergy] is formed whatever [avgEnergy] is, as a [double];
    the elapsed time, an [unsigned long], is compared with it as a
    [double], which it is exactly.  With a zero divisor an IEEE double
    quotient is +infinity, which no elapsed time exceeds: the dot stays
    where it is. *)
Definition sweep (small_circle current_time millis_check millis_reset : Z)
                 (avgEnergy : Q) : M (Z * Z * list (led_op strip)) :=
  let small_circle :=
    if small_circle <? NUM_LEDS_12_CIRCLE then small_circle else 0 in
  let op := Wr Circle12 (Assign small_circle (rgb 0 0 255)) in
  delay <- ddiv 1000000 avgEnergy ;;
  let elapsed := to_u32 (millis_check - current_time) in
  let late := if Qeq_bool avgEnergy 0 then false
              else Qltb delay (of_int elapsed) in
  if late then ret (small_circle + 1, millis_reset, [op])
  else ret (small_circle, current_time, [op]).

(** *** Mode 3: the energy bar on the large circle *)
Definition energy_bar (avgEnergy : Q) : list (led_op strip) :=
  let c := rgb 255 0 170 in
  if Qleb avgEnergy 250 then [Wr Circle16 (Fill 0 1 c)]
  else if Qleb avgEnergy 500 then [Wr Circle16 (Fill 0 2 c)]
  else if Qleb avgEnergy 750 then [Wr Circle16 (Fill 0 3 c)]
  else if Qleb avgEnergy 1000 then [Wr Circle16 (Fill 0 4 c)]
  else if Qleb avgEnergy 1250 then [Wr Circle16 (Fill 0 5 c)]
  else if Qleb avgEnergy 1500 then [Wr Circle16 (Fill 0 6 c)]
  else if Qleb avgEnergy 1750 then [Wr Circle16 (Fill 0 7 c)]
  else if Qleb avgEnergy 2000 then [Wr Circle16 (Fill 0 8 c)]
  else if Qleb avgEnergy 2250 then [Wr Circle16 (Fill 0 9 c)]
  else if Qleb avgEnergy 2500 then [Wr Circle16 (Fill 0 10 c)]
  else if Qleb avgEnergy 2750 then [Wr Circle16 (Fill 0 11 c)]
  else if Qleb avgEnergy 3000 then [Wr Circle16 (Fill 0 12 c)]
  else if Qleb avgEnergy 3250 then [Wr Circle16 (Fill 0 13 c)]
  else if Qleb avgEnergy 3500 then [Wr Circle16 (Fill 0 14 c)]
  else if Qleb avgEnergy 3750 then [Wr Circle16 (Fill 0 15 c)]
  else if Qleb avgEnergy 4000 then [Wr Circle16 (Fill 0 16 c)]
  else [].

(** *** Mode 4: the raw block on the columns of the left square *)
Definition redColumn : list Z := [0; 7; 8; 15].
Definition greenColumn : list Z := [1; 6; 9; 14].
Definition blueColumn : list Z := [2; 5; 10; 13].

Definition rawAmplitude (vRawData : list Q) : Q :=
  let rawMean := mean vRawData in
  (fold_left (fun acc i => (acc + Arduino.abs (nth i vRawData 0 - rawMean))%Q)
             (seq 0 SAMPLES) 0%Q / of_int (Z.of_nat SAMPLES))%Q.

(** [for (int i = 0; i < min(n, 4); i++) leds_L_SQUARE[column[i]] = c;] *)
Definition column (col : list Z) (n : Z) (c : CRGB) : list (led_op strip) :=
  List.map (fun i => Wr LSquare (Assign (nth i col 0) c))
           (seq 0 (Z.to_nat (Arduino.min n 4))).

Definition raw_columns (vRawData : list Q) : list (led_op strip) :=
  let numLeds := Arduino.map (to_int (rawAmplitude vRawData)) 0 500 0 13 in
  let numLeds := Arduino.constrain numLeds 0 12 in
  [Clear]
  ++ (if 0 <? numLeds then column redColumn numLeds (rgb 255 0 0) else [])
  ++ (if 4 <? numLeds then column greenColumn (numLeds - 4) (rgb 0 255 0) else [])
  ++ (if 8 <? numLeds then column blueColumn (numLeds - 8) (rgb 0 0 255) else [])
  ++ [Show].

(** *** Mode 5: raw spectrum on the left square, live bands mirrored on the
    right square *)
Record raw_amps : Type := { rawAmpR : Q; rawAmpG : Q; rawAmpB : Q }.

Definition raw_band_step (rawReal : list Q) (acc : Q * Q * Q) (i : nat) : Q * Q * Q :=
  let '(aR, aG, aB) := acc in
  let m := Arduino.abs (nth i rawReal 0%Q) in
  if (i <? 20)%nat then ((aR + m)%Q, aG, aB)
  else if (i <? 80)%nat then (aR, (aG + m)%Q, aB)
  else (aR, aG, (aB + m)%Q).

Definition raw_band_amplitudes (rawReal : list Q) : raw_amps :=
  let '(aR, aG, aB) :=
    fold_left (raw_band_step rawReal) (seq 0 SAMPLES) (0%Q, 0%Q, 0%Q) in
  {| rawAmpR := aR / 20; rawAmpG := aG / 60; rawAmpB := aB / 48 |}.

Definition normalize_raw (a : raw_amps) (rawAvgEnergy : Q) : M raw_amps :=
  if Qltb 0 rawAvgEnergy then
    qR <- fdiv (rawAmpR a) rawAvgEnergy ;;
    qG <- fdiv (rawAmpG a) rawAvgEnergy ;;
    qB <- fdiv (rawAmpB a) rawAvgEnergy ;;
    ret {| rawAmpR := qR * 150; rawAmpG := qG * 100; rawAmpB := qB * 150 |}
  else ret a.

(** What persists from one pass of the [while (true)] loop to the next. *)
Record state : Type :=
  { avg : smoothed; small_circle : Z; current_time : Z; buffers : frame }.

(** [t0] is [millis()] when the task starts. *)
Definition state_init (t0 : Z) : state :=
  {| avg := smoothed_init; small_circle := 0; current_time := t0;
     buffers := cleared |}.

Record input : Type :=
  { analogRead : nat -> Z; mode : Z; millis_check : Z; millis_reset : Z }.

Record output : Type := { next : state; shown : list frame }.

Section Task.
Context {P : Platform}.

Definition dual_path (vRawData : list Q) (a : amps) : M (list (led_op strip)) :=
  let rawReal := remove_dc vRawData in
  let rawReal := spectrum rawReal in
  let ra := raw_band_amplitudes rawReal in
  let rawAvgEnergy := avgEnergy rawReal in
  ra <- normalize_raw ra rawAvgEnergy ;;
  let numLedsR_raw := Arduino.map (to_int (rawAmpR ra)) 0 255 0 5 in
  let numLedsG_raw := Arduino.map (to_int (rawAmpG ra)) 0 255 0 5 in
  let numLedsB_raw := Arduino.map (to_int (rawAmpB ra)) 0 255 0 5 in
  let numLedsR := Arduino.map (ampR a) 0 255 0 5 in
  let numLedsG := Arduino.map (ampG a) 0 255 0 5 in
  let numLedsB := Arduino.map (ampB a) 0 255 0 5 in
  let numLedsR_raw := Arduino.constrain numLedsR_raw 0 4 in
  let numLedsG_raw := Arduino.constrain numLedsG_raw 0 4 in
  let numLedsB_raw := Arduino.constrain numLedsB_raw 0 4 in
  let numLedsR := Arduino.constrain numLedsR 0 4 in
  let numLedsG := Arduino.constrain numLedsG 0 4 in
  let numLedsB := Arduino.constrain numLedsB 0 4 in
  ret [ Clear;
        Wr LSquare (fill_solid 0 numLedsR_raw (rgb 255 0 0));
        Wr LSquare (fill_solid 4 numLedsG_raw (rgb 0 255 0));
        Wr LSquare (fill_solid 8 numLedsB_raw (rgb 0 0 255));
        Wr RSquare (fill_solid (NUM_LEDS_R_SQUARE - numLedsR) numLedsR (rgb 255 0 0));
        Wr RSquare (fill_solid (NUM_LEDS_R_SQUARE - 4 - numLedsG) numLedsG (rgb 0 255 0));
        Wr RSquare (fill_solid (NUM_LEDS_R_SQUARE - 8 - numLedsB) numLedsB (rgb 0 0 255));
        Show ].

(** The [if (mode == 1) ... else if (mode == 7) ...] chain between
    [FastLED.clear()] and the last [FastLED.show()]: the new [small_circle]
    and [current_time], and the calls on the LED driver.  As in [main.cpp],
    [mode] is the value the global has while the chain runs. *)
Definition render (st : state) (inp : input) (vRawData : list Q)
                  (a : amps) (t : thresholds) (avgEnergy : Q)
  : M (Z * Z * list (led_op strip)) :=
  let keep ops := ret (small_circle st, current_time st, ops) in
  let mode := mode inp in
  if mode =? 1 then keep (tiered_bars Circle16 a t)
  else if mode =? 2 then
    sweep (small_circle st) (current_time st)
          (millis_check inp) (millis_reset inp) avgEnergy
  else if mode =? 3 then keep (energy_bar avgEnergy)
  else if mode =? 4 then keep (raw_columns vRawData)
  else if mode =? 5 then ops <- dual_path vRawData a ;; keep ops
  else if mode =? 6 then
    let brightness := brightness 600 a in
    keep [ Wr LSquare (Fill 0 NUM_LEDS_L_SQUARE (rgb brightness 0 0));
           Wr RSquare (Fill 0 NUM_LEDS_R_SQUARE (rgb 0 brightness 0)) ]
  else if mode =? 7 then
    let brightness := brightness 600 a in
    keep [ Wr Circle16 (Fill 0 NUM_LEDS_16_CIRCLE (rgb brightness 0 0));
           Wr Circle12 (Fill 0 NUM_LEDS_12_CIRCLE (rgb 0 brightness 0));
           Wr LSquare (Fill 0 NUM_LEDS_L_SQUARE (rgb brightness 0 0));
           Wr RSquare (Fill 0 NUM_LEDS_R_SQUARE (rgb 0 brightness 0)) ]
  else keep [].

(** The frames pushed by the render step. *)
Definition frames (st : state) (inp : input) (vRawData : list Q)
                  (a : amps) (t : thresholds) (avgEnergy : Q) : list frame :=
  let ops := snd (value (render st inp vRawData a t avgEnergy)) in
  snd (run_ops (buffers st) (Clear :: ops ++ [Show])).

(** One pass of the loop of [lightMusicTask]. *)
Definition lightMusicTask (st : state) (inp : input) : M output :=
  let vReal := acquire (analogRead inp) in
  let vRawData := raw_copy (analogRead inp) in
  an <- analyse vReal ;;
  let avg' := smooth (avg st) (bands an) in
  let t := thresholds_of avg' in
  r <- render st inp vRawData (bands an) t (energy an) ;;
  let '(small_circle', current_time', ops) := r in
  let (f, pushed) := run_ops (buffers st) (Clear :: ops ++ [Show]) in
  ret {| next := {| avg := avg'; small_circle := small_circle';
                    current_time := current_time'; buffers := f |};
         shown := pushed |}.

End Task.

End Part000.

(** ** Running the task *)

Section Runs.
Context {P : Platform}.

(** The state after the passes fed by [inputs], oldest first. *)
Definition main_run (st : Main.state) (inputs : list Main.input) : Main.state :=
  fold_left (fun st inp => Main.next (value (Main.lightMusicTask st inp))) inputs st.

Definition part000_run (st : Part000.state) (inputs : list Part000.input)
  : Part000.state :=
  fold_left (fun st inp => Part000.next (value (Part000.lightMusicTask st inp)))
            inputs st.

End Runs.

(** The block read on a silent, grounded input. *)
Definition silence : nat -> Z := fun _ => 0.

(** ** A small instance of the library interface

    Exact and executable, so that the statements that assume something of
    the library can be run: a flat window, the transform taken one sample at
    a time (a transform of length one is the identity), the magnitude with a
    square root rounded down to three decimals. *)

Definition sqrt_down (q : Q) : Q := Z.sqrt (Qfloor (q * 1000000)) # 1000.

Definition bench_platform : Platform := {|
  sqrt := sqrt_down;
  FFT_windowing v := List.map (fun x => ((54 # 100) * x)%Q) v;
  FFT_compute re im := (re, im);
  FFT_complexToMagnitude re im :=
    List.map (fun p => sqrt_down (fst p * fst p + snd p * snd p)) (combine re im)
|}.

(** The same instance with the square root of the energy rounded up, to a
    multiple of the reciprocal of the denominator of its argument. *)
Definition sqrt_up (q : Q) : Q := Z.sqrt_up (Qnum q * Zpos (Qden q)) # Qden q.

Definition bench_platform_up : Platform := {|
  sqrt := sqrt_up;
  FFT_windowing := FFT_windowing (Platform := bench_platform);
  FFT_compute := FFT_compute (Platform := bench_platform);
  FFT_complexToMagnitude := FFT_complexToMagnitude (Platform := bench_platform)
|}.

(** ** Inputs used to run the statements *)

(** Readings with a glitch at the first and from the third position on. *)
Definition glitchy : nat -> Z :=
  fun i => match i with O => 5000 | 1%nat => 17 | _ => -3 end.

(** A block that ramps 0, 1, ..., 127. *)
Definition ramp : list Q := List.map (fun i => of_int (Z.of_nat i)) (seq 0 SAMPLES).

Definition amps_of (x : Z) : amps := {| ampR := x; ampG := x; ampB := x |}.

(** An input of [part_000] with the given mode. *)
Definition part000_input (rd : nat -> Z) (mode now : Z) : Part000.input :=
  {| Part000.analogRead := rd; Part000.mode := mode;
     Part000.millis_check := now; Part000.millis_reset := now |}.

Definition main_input (rd : nat -> Z) (mode : Z) : Main.input :=
  {| Main.analogRead := rd; Main.mode := mode |}.

(** The large circle after the energy bar of mode 3 of [part_000] is
    rendered for the energy estimate [e]. *)
Definition energy_frame (e : Q) : list CRGB :=
  Part000.leds_16_circle
    (fst (run_ops (cleared : Part000.frame)
                  (Clear :: Part000.energy_bar e ++ [Show]))).

(** The energy values 0, 250, ..., 4000. *)
Definition energy_grid (k : Z) : Q := of_int (250 * k).

(** Frames filled by the wash modes with the channel value [b]. *)
Definition main_frame (circles squares : list CRGB) : Main.frame :=
  {| Main.leds_circles := circles; Main.leds_squares := squares |}.

Definition part000_frame (c16 c12 l r : list CRGB) : Part000.frame :=
  {| Part000.leds_16_circle := c16; Part000.leds_12_circle := c12;
     Part000.leds_L_SQUARE := l; Part000.leds_R_SQUARE := r |}.


(** ** [webServerTask]: the seven routes

    Each [server.on("/modeN", HTTP_GET, ...)] registers a handler whose body
    is [mode = N;] followed by a 200 "OK" response carrying the CORS header.
    Which handler a request reaches is decided by ESPAsyncWebServer:
    [can_handle uri req] says whether the handler registered on [uri]
    accepts the request [req]; the first registered handler that accepts it
    runs. *)




Definition part000_mode_init : Z := 2.

Section WebServer.
Context {request : Type}.
Variable can_handle : string -> request -> bool.



End WebServer.

(** ** Measures used in the statements *)

(** The sum of the magnitudes of the bins [first, first + n). *)
Definition abs_sum (v : list Q) (first n : nat) : Q :=
  fold_left (fun acc i => (acc + Arduino.abs (nth i v 0))%Q) (seq first n) 0%Q.

(** The same sum as the [int] accumulators of the main path form it. *)
Definition int_abs_sum (v : list Q) (first n : nat) : Z :=
  fold_left (fun acc i => to_int (of_int acc + Arduino.abs (nth i v 0%Q)))
            (seq first n) 0.

(** The energy of the bins [first, first + n). *)
Definition sq_sum (v : list Q) (first n : nat) : Q :=
  fold_left (fun acc i => (acc + nth i v 0 * nth i v 0)%Q) (seq first n) 0%Q.

(** How many LEDs a store covers. *)
Definition span (w : write) : Z := write_last w - write_first w.

(** Every store of a render step lands inside the array it targets. *)
Definition stores_in_bounds {strip frame : Type} {SF : Strips strip frame}
    (ops : list (led_op strip)) : Prop :=
  Forall (fun sw => in_bounds 0 (num_leds (fst sw)) (snd sw)) (writes_of ops).

(** The LEDs of the left square in the order mode 4 of [part_000] lights
    them, with their colours. *)
Definition column_order : list (Z * CRGB) :=
  List.map (fun i => (i, rgb 255 0 0)) Part000.redColumn
  ++ List.map (fun i => (i, rgb 0 255 0)) Part000.greenColumn
  ++ List.map (fun i => (i, rgb 0 0 255)) Part000.blueColumn.

(** Readings used to run the statements. *)
Definition steady : nat -> Z := fun _ => 2048.
Definition square_wave : nat -> Z := fun i => if Nat.even i then 100 else 900.

(** The [int] [z] left of the exact non-negative value [x] by two roundings
    to [double] and a truncation: less than one unit below it, and off by
    at most three roundoffs. *)
Definition rescaled_to (z : Z) (x : Q) : Prop :=
  (x * (1 - 3 * unit_roundoff) - 1 < of_int z)%Q
  /\ (of_int z <= x * (1 + 3 * unit_roundoff))%Q.

(** Ranges of the amplitudes fed to the smoother and of what it holds. *)
Definition amp_between (lo hi : Q) (a : amps) : Prop :=
  (lo <= of_int (ampR a) <= hi)%Q /\ (lo <= of_int (ampG a) <= hi)%Q
  /\ (lo <= of_int (ampB a) <= hi)%Q.

Definition smoothed_between (lo hi : Q) (s : smoothed) : Prop :=
  (lo <= avgAmpR s <= hi)%Q /\ (lo <= avgAmpG s <= hi)%Q
  /\ (lo <= avgAmpB s <= hi)%Q.


(** The dot of mode 2 of [part_000] moves on in this pass. *)
Definition dot_advances (sc ct mc mr : Z) (e : Q) : Prop :=
  fst (fst (value (Part000.sweep sc ct mc mr e)))
  = (if sc <? Part000.NUM_LEDS_12_CIRCLE then sc else 0) + 1.

(** The smoothed amplitudes and the thresholds derived from them are not
    negative. *)
Definition smoothed_nonneg (s : smoothed) : Prop :=
  0 <= count s
  /\ (0 <= avgAmpR s)%Q /\ (0 <= avgAmpG s)%Q /\ (0 <= avgAmpB s)%Q.

Definition thresholds_nonneg (t : thresholds) : Prop :=
  0 <= porigR t /\ 0 <= porigG t /\ 0 <= porigB t.

(** * Properties

    ** Rounding to [double]: sign, monotonicity, accuracy, integers *)

Lemma pow2_pos (e : Z) : (0 < pow2 e)%Q.
Proof. apply Qpower_0_lt. reflexivity. Qed.

Lemma pow2_add (a b : Z) : (pow2 (a + b) == pow2 a * pow2 b)%Q.
Proof. apply Qpower_plus. intro H. discriminate H. Qed.

Lemma pow2_le (a b : Z) : a <= b -> (pow2 a <= pow2 b)%Q.
Proof. intros H. apply Qpower_le_compat_l; [exact H|]. discriminate. Qed.

Lemma pow2_lt_inv (a b : Z) : (pow2 a < pow2 b)%Q -> a < b.
Proof. intros H. apply (Qpower_lt_compat_l_inv 2); [exact H|reflexivity]. Qed.

Lemma pow2_of_Z (n : Z) : 0 <= n -> (pow2 n == inject_Z (2 ^ n))%Q.
Proof. intros H. unfold pow2. rewrite Zpower_Qpower by exact H. reflexivity. Qed.

Lemma pow2_succ (a : Z) : (pow2 (a + 1) == 2 * pow2 a)%Q.
Proof. rewrite pow2_add. unfold pow2 at 2. simpl. ring. Qed.

Lemma binade_spec (q : Q) :
  (0 < q)%Q -> (pow2 (binade q) <= q)%Q /\ (q < pow2 (binade q + 1))%Q.
Proof.
  intros Hq. unfold binade.
  set (l := Z.log2 (Qnum q) - Z.log2 (Zpos (Qden q))).
  destruct q as [n d]. cbn [Qnum Qden] in l.
  assert (Hn : 0 < n) by (unfold Qlt in Hq; simpl in Hq; lia).
  destruct (Z.log2_spec n Hn) as [N1 N2].
  destruct (Z.log2_spec (Zpos d) (Pos2Z.is_pos d)) as [D1 D2].
  assert (Ln := Z.log2_nonneg n). assert (Ld := Z.log2_nonneg (Zpos d)).
  rewrite Zle_Qle in N1, D1. rewrite Zlt_Qlt in N2, D2.
  rewrite <- pow2_of_Z in N1, N2, D1, D2 by lia.
  fold (Z.succ (Z.log2 n)) in *.
  assert (Dp : (0 < inject_Z (Zpos d))%Q) by reflexivity.
  assert (E : (n # d == inject_Z n / inject_Z (Zpos d))%Q) by apply Qmake_Qdiv.
  assert (A : (pow2 (l - 1) <= n # d)%Q).
  { rewrite E. apply Qle_shift_div_l; [exact Dp|].
    apply Qle_trans with (pow2 (l - 1) * pow2 (Z.succ (Z.log2 (Zpos d))))%Q.
    - apply Qmult_le_l; [apply pow2_pos|]. apply Qlt_le_weak, D2.
    - rewrite <- pow2_add.
      replace (l - 1 + Z.succ (Z.log2 (Zpos d))) with (Z.log2 n) by (unfold l; lia).
      exact N1. }
  assert (B : (n # d < pow2 (l + 1))%Q).
  { rewrite E. apply Qlt_shift_div_r; [exact Dp|].
    apply Qlt_le_trans with (pow2 (Z.succ (Z.log2 n))); [exact N2|].
    replace (Z.succ (Z.log2 n)) with (l + 1 + Z.log2 (Zpos d)) by (unfold l; lia).
    rewrite pow2_add. apply Qmult_le_l; [apply pow2_pos|]. exact D1. }
  destruct (Qle_bool (pow2 l) (n # d)) eqn:T.
  - apply Qle_bool_iff in T. split; assumption.
  - split; [exact A|]. replace (l - 1 + 1) with l by lia.
    apply Qnot_le_lt. intro H. apply Qle_bool_iff in H. congruence.
Qed.

Lemma nearest_even_proper (s t : Q) : (s == t)%Q -> nearest_even s = nearest_even t.
Proof.
  intros E. unfold nearest_even. rewrite (Qfloor_comp _ _ E).
  assert (C : (s - inject_Z (Qfloor t) ?= 1 # 2)%Q = (t - inject_Z (Qfloor t) ?= 1 # 2)%Q)
    by (rewrite E; reflexivity).
  rewrite C. reflexivity.
Qed.

Lemma nearest_even_close (s : Q) :
  (s - (1 # 2) <= inject_Z (nearest_even s))%Q
  /\ (inject_Z (nearest_even s) <= s + (1 # 2))%Q.
Proof.
  unfold nearest_even.
  pose proof (Qfloor_le s) as F1. pose proof (Qlt_floor s) as F2.
  rewrite inject_Z_plus in F2. change (inject_Z 1) with 1%Q in F2.
  destruct (Qcompare_spec (s - inject_Z (Qfloor s)) (1 # 2)) as [C|C|C].
  - destruct (Z.even (Qfloor s)); [|rewrite inject_Z_plus; change (inject_Z 1) with 1%Q];
      split; lra.
  - split; lra.
  - rewrite inject_Z_plus; change (inject_Z 1) with 1%Q. split; lra.
Qed.

Lemma nearest_even_floor (s : Q) :
  Qfloor s <= nearest_even s <= Qfloor s + 1.
Proof.
  unfold nearest_even.
  destruct (s - inject_Z (Qfloor s) ?= 1 # 2)%Q; [destruct (Z.even (Qfloor s))| |]; lia.
Qed.

Lemma nearest_even_of_Z (z : Z) : nearest_even (inject_Z z) = z.
Proof.
  unfold nearest_even. rewrite Qfloor_Z.
  destruct (Qcompare_spec (inject_Z z - inject_Z z) (1 # 2)) as [C|C|C];
    [exfalso; lra|reflexivity|exfalso; lra].
Qed.

Lemma nearest_even_ge (a : Z) (s : Q) :
  (inject_Z a <= s)%Q -> a <= nearest_even s.
Proof.
  intros H. apply Qfloor_resp_le in H. rewrite Qfloor_Z in H.
  pose proof (nearest_even_floor s). lia.
Qed.

Lemma nearest_even_le (b : Z) (s : Q) :
  (s <= inject_Z b)%Q -> nearest_even s <= b.
Proof.
  intros H. pose proof (Qfloor_resp_le _ _ H) as F. rewrite Qfloor_Z in F.
  destruct (Z.eq_dec (Qfloor s) b) as [E|E].
  - assert (S : (s == inject_Z b)%Q).
    { apply Qle_antisym; [exact H|]. rewrite <- E. apply Qfloor_le. }
    rewrite (nearest_even_proper _ _ S), nearest_even_of_Z. lia.
  - pose proof (nearest_even_floor s). lia.
Qed.

Lemma nearest_even_monotone (s t : Q) :
  (s <= t)%Q -> nearest_even s <= nearest_even t.
Proof.
  intros H. pose proof (Qfloor_resp_le _ _ H) as F.
  destruct (Z.eq_dec (Qfloor s) (Qfloor t)) as [E|E].
  - unfold nearest_even. rewrite E.
    destruct (Qcompare_spec (s - inject_Z (Qfloor t)) (1 # 2)) as [C|C|C];
      destruct (Qcompare_spec (t - inject_Z (Qfloor t)) (1 # 2)) as [D|D|D];
      try destruct (Z.even (Qfloor t)); try lia; exfalso; lra.
  - pose proof (nearest_even_floor s). pose proof (nearest_even_floor t). lia.
Qed.

(** The scaled value of a positive [q] lies in [2^52, 2^53). *)
Lemma scaled_range (q : Q) :
  (0 < q)%Q ->
  let u := pow2 (binade q - 52) in
  (inject_Z (2 ^ 52) <= q / u)%Q /\ (q / u < inject_Z (2 ^ 53))%Q
  /\ (inject_Z (2 ^ 52) * u == pow2 (binade q))%Q
  /\ (inject_Z (2 ^ 53) * u == pow2 (binade q + 1))%Q.
Proof.
  intros Hq u. destruct (binade_spec q Hq) as [B1 B2].
  assert (U : (0 < u)%Q) by apply pow2_pos.
  assert (E1 : (inject_Z (2 ^ 52) * u == pow2 (binade q))%Q).
  { rewrite <- pow2_of_Z by lia. unfold u. rewrite <- pow2_add.
    replace (52 + (binade q - 52)) with (binade q) by lia. reflexivity. }
  assert (E2 : (inject_Z (2 ^ 53) * u == pow2 (binade q + 1))%Q).
  { rewrite <- pow2_of_Z by lia. unfold u. rewrite <- pow2_add.
    replace (53 + (binade q - 52)) with (binade q + 1) by lia. reflexivity. }
  split; [|split; [|split; assumption]].
  - apply Qle_shift_div_l; [exact U|]. rewrite E1. exact B1.
  - apply Qlt_shift_div_r; [exact U|]. rewrite E2. exact B2.
Qed.

Lemma round_pos_binade (q : Q) :
  (0 < q)%Q ->
  (pow2 (binade q) <= round_pos q)%Q /\ (round_pos q <= pow2 (binade q + 1))%Q.
Proof.
  intros Hq. destruct (scaled_range q Hq) as (S1 & S2 & E1 & E2).
  unfold round_pos. set (u := pow2 (binade q - 52)) in *.
  assert (U : (0 < u)%Q) by apply pow2_pos.
  rewrite <- E1, <- E2. split; apply Qmult_le_r; try exact U; rewrite <- Zle_Qle.
  - apply nearest_even_ge, S1.
  - apply nearest_even_le, Qlt_le_weak, S2.
Qed.

Lemma round_pos_error (q : Q) :
  (0 < q)%Q -> (Qabs (round_pos q - q) <= q * unit_roundoff)%Q.
Proof.
  intros Hq. destruct (scaled_range q Hq) as (S1 & _ & E1 & _).
  destruct (binade_spec q Hq) as [B1 _].
  unfold round_pos. set (u := pow2 (binade q - 52)) in *.
  assert (U : (0 < u)%Q) by apply pow2_pos.
  destruct (nearest_even_close (q / u)) as [C1 C2].
  set (m := inject_Z (nearest_even (q / u))) in *.
  assert (Q' : (q == q / u * u)%Q) by (field; lra).
  assert (H : (u * (1 # 2) <= q * unit_roundoff)%Q).
  { rewrite <- E1 in B1. unfold unit_roundoff.
    change (inject_Z (2 ^ 52)) with (4503599627370496 # 1)%Q in B1.
    change (1 # 2 ^ 53)%Q with (1 # 9007199254740992)%Q. lra. }
  apply Qabs_Qle_condition. split.
  - apply Qle_trans with (- (u * (1 # 2)))%Q; [lra|].
    setoid_replace (m * u - q)%Q with ((m - q / u) * u)%Q by (field; lra).
    assert (T : (- (1 # 2) * u <= (m - q / u) * u)%Q)
      by (apply Qmult_le_r; [exact U|lra]).
    lra.
  - apply Qle_trans with (u * (1 # 2))%Q; [|exact H].
    setoid_replace (m * u - q)%Q with ((m - q / u) * u)%Q by (field; lra).
    assert (T : ((m - q / u) * u <= (1 # 2) * u)%Q)
      by (apply Qmult_le_r; [exact U|lra]).
    lra.
Qed.

Lemma round_pos_monotone (x y : Q) :
  (0 < x)%Q -> (x <= y)%Q -> (round_pos x <= round_pos y)%Q.
Proof.
  intros Hx Hxy. assert (Hy : (0 < y)%Q) by lra.
  destruct (binade_spec x Hx) as [X1 X2]. destruct (binade_spec y Hy) as [Y1 Y2].
  assert (L : binade x < binade y + 1).
  { apply pow2_lt_inv. lra. }
  destruct (Z.eq_dec (binade x) (binade y)) as [E|E].
  - unfold round_pos. rewrite E. set (u := pow2 (binade y - 52)).
    assert (U : (0 < u)%Q) by apply pow2_pos.
    apply Qmult_le_r; [exact U|]. rewrite <- Zle_Qle.
    apply nearest_even_monotone.
    apply Qle_shift_div_l; [exact U|].
    setoid_replace (x / u * u)%Q with x by (field; lra). exact Hxy.
  - destruct (round_pos_binade x Hx) as [_ RX].
    destruct (round_pos_binade y Hy) as [RY _].
    apply Qle_trans with (pow2 (binade x + 1)); [exact RX|].
    apply Qle_trans with (pow2 (binade y)); [|exact RY].
    apply pow2_le. lia.
Qed.

Lemma round_pos_of_Z (n : Z) :
  0 < n < 2 ^ 53 -> (round_pos (inject_Z n) == inject_Z n)%Q.
Proof.
  intros [N0 N1].
  assert (Hq : (0 < inject_Z n)%Q) by (unfold Qlt; simpl; lia).
  destruct (binade_spec _ Hq) as [B1 _].
  assert (L : binade (inject_Z n) < 53).
  { apply pow2_lt_inv. apply Qle_lt_trans with (inject_Z n); [exact B1|].
    rewrite pow2_of_Z by lia. rewrite <- Zlt_Qlt. exact N1. }
  unfold round_pos. set (b := binade (inject_Z n)) in *.
  assert (U : (0 < pow2 (b - 52))%Q) by apply pow2_pos.
  assert (K : (pow2 (52 - b) * pow2 (b - 52) == 1)%Q).
  { rewrite <- pow2_add. replace (52 - b + (b - 52)) with 0 by lia. reflexivity. }
  assert (S : (inject_Z n / pow2 (b - 52) == inject_Z (n * 2 ^ (52 - b)))%Q).
  { rewrite inject_Z_mult, <- pow2_of_Z by lia.
    apply Qmult_inj_r with (pow2 (b - 52)); [lra|].
    setoid_replace (inject_Z n / pow2 (b - 52) * pow2 (b - 52))%Q with (inject_Z n)
      by (field; lra).
    rewrite <- Qmult_assoc, K. ring. }
  rewrite (nearest_even_proper _ _ S), nearest_even_of_Z.
  rewrite inject_Z_mult, <- pow2_of_Z by lia.
  rewrite <- Qmult_assoc, K. ring.
Qed.

Lemma round64_positive (q : Q) : (0 < q)%Q -> round64 q = round_pos q.
Proof.
  intros H. unfold round64. destruct q as [[|p|p] d]; cbn [Qnum];
    [discriminate H|reflexivity|discriminate H].
Qed.

Lemma round64_zero (q : Q) : (q == 0)%Q -> round64 q = 0%Q.
Proof.
  intros H. unfold round64. destruct q as [[|p|p] d]; cbn [Qnum];
    [reflexivity|discriminate H|discriminate H].
Qed.

Lemma round64_nonneg (q : Q) : (0 <= q)%Q -> (0 <= round64 q)%Q.
Proof.
  intros H. destruct (Qlt_le_dec 0 q) as [P|Z].
  - rewrite round64_positive by exact P.
    destruct (round_pos_binade q P) as [B _].
    pose proof (pow2_pos (binade q)). lra.
  - rewrite round64_zero by lra. apply Qle_refl.
Qed.

(** The relative error of a rounding is at most 2^-53. *)
Lemma round64_error (q : Q) :
  (0 <= q)%Q -> (Qabs (round64 q - q) <= q * unit_roundoff)%Q.
Proof.
  intros H. destruct (Qlt_le_dec 0 q) as [P|Z].
  - rewrite round64_positive by exact P. apply round_pos_error, P.
  - assert (E : (q == 0)%Q) by lra.
    rewrite round64_zero by exact E. rewrite E. discriminate.
Qed.

Lemma round64_monotone (x y : Q) :
  (0 <= x)%Q -> (x <= y)%Q -> (round64 x <= round64 y)%Q.
Proof.
  intros Hx Hxy. destruct (Qlt_le_dec 0 x) as [P|Z].
  - rewrite (round64_positive x), (round64_positive y) by lra.
    apply round_pos_monotone; assumption.
  - rewrite (round64_zero x) by lra. apply round64_nonneg. lra.
Qed.

(** Integers below 2^53 are doubles. *)
Lemma round64_of_int (n : Z) :
  0 <= n < 2 ^ 53 -> (round64 (of_int n) == of_int n)%Q.
Proof.
  intros [N0 N1]. destruct (Z.eq_dec n 0) as [E|E].
  - subst n. reflexivity.
  - unfold of_int. rewrite round64_positive by (unfold Qlt; simpl; lia).
    apply round_pos_of_Z. lia.
Qed.

Lemma round64_proper (x y : Q) :
  (0 <= x)%Q -> (x == y)%Q -> (round64 x == round64 y)%Q.
Proof.
  intros H E. apply Qle_antisym; apply round64_monotone; lra.
Qed.

Lemma round64_between (q : Q) :
  (0 <= q)%Q ->
  (q * (1 - unit_roundoff) <= round64 q)%Q /\ (round64 q <= q * (1 + unit_roundoff))%Q.
Proof.
  intros H. pose proof (round64_error q H) as E.
  apply Qabs_Qle_condition in E. destruct E as [E1 E2]. split; lra.
Qed.

(** ** Comparisons and conversions *)

Lemma Qltb_lt (x y : Q) : Qltb x y = true <-> (x < y)%Q.
Proof.
  unfold Qltb. rewrite negb_true_iff.
  split; intro H.
  - apply Qnot_le_lt. intro L. apply Qle_bool_iff in L. congruence.
  - destruct (Qle_bool y x) eqn:E; [|reflexivity].
    apply Qle_bool_iff in E. exfalso. apply (Qlt_not_le _ _ H E).
Qed.

Lemma Qltb_ge (x y : Q) : Qltb x y = false <-> (y <= x)%Q.
Proof.
  unfold Qltb. rewrite negb_false_iff. apply Qle_bool_iff.
Qed.

Lemma Qleb_le (x y : Q) : Qleb x y = true <-> (x <= y)%Q.
Proof. apply Qle_bool_iff. Qed.

Lemma Qltb_of_int (a b : Z) : Qltb (of_int a) (of_int b) = (a <? b).
Proof.
  unfold Qltb, Qle_bool, of_int, inject_Z; simpl.
  rewrite !Z.mul_1_r, Z.ltb_antisym. reflexivity.
Qed.

Lemma to_int_zero (q : Q) : q == 0 -> to_int q = 0.
Proof.
  unfold Qeq, to_int; simpl. rewrite Z.mul_1_r. intros ->. reflexivity.
Qed.

Lemma to_int_of_int (z : Z) : to_int (of_int z) = z.
Proof. unfold to_int, of_int; simpl. apply Z.quot_1_r. Qed.

Lemma to_int_nonneg (q : Q) : (0 <= q)%Q -> 0 <= to_int q.
Proof.
  unfold Qle, to_int; simpl. rewrite Z.mul_1_r. intros H.
  apply Z.quot_pos; lia.
Qed.

Lemma of_int_nonneg (z : Z) : 0 <= z -> (0 <= of_int z)%Q.
Proof.
  intros H. unfold of_int. change 0%Q with (inject_Z 0).
  rewrite <- Zle_Qle. exact H.
Qed.

(** Truncation of a non-negative [double] drops less than one unit. *)
Lemma to_int_floor (q : Q) :
  (0 <= q)%Q -> (of_int (to_int q) <= q)%Q /\ (q < of_int (to_int q) + 1)%Q.
Proof.
  intros H. assert (E : to_int q = Qfloor q).
  { unfold to_int, Qfloor. destruct q as [n d]. cbn [Qnum Qden].
    apply Z.quot_div_nonneg; [|reflexivity].
    unfold Qle in H. simpl in H. lia. }
  rewrite E. unfold of_int. split; [apply Qfloor_le|].
  pose proof (Qlt_floor q) as F. rewrite inject_Z_plus in F. exact F.
Qed.

(** ** Acquisition *)

Lemma out_of_range_of_int (r : Z) :
  out_of_range (of_int r) = (r <? 0) || (4095 <? r).
Proof.
  unfold out_of_range.
  change 0%Q with (of_int 0). change 4095%Q with (of_int 4095).
  rewrite !Qltb_of_int. reflexivity.
Qed.

Lemma corrected_in_range (i : nat) (prev : Q) (r : Z) :
  (i = 0%nat \/ (0 <= prev <= 4095)%Q) -> (0 <= corrected i prev r <= 4095)%Q.
Proof.
  intros H. unfold corrected. rewrite out_of_range_of_int.
  destruct ((r <? 0) || (4095 <? r)) eqn:E.
  - destruct (0 <? i)%nat eqn:Ei.
    + destruct H as [->|H]; [discriminate|exact H].
    + split; discriminate.
  - apply orb_false_iff in E. destruct E as [E1 E2].
    apply Z.ltb_ge in E1, E2. unfold of_int.
    split; [change 0%Q with (inject_Z 0)|change 4095%Q with (inject_Z 4095)];
      rewrite <- Zle_Qle; assumption.
Qed.

Lemma acquire_from_length rd n : forall i prev,
  length (acquire_from rd i prev n) = n.
Proof. induction n; intros; simpl; [|rewrite IHn]; reflexivity. Qed.

Lemma acquire_from_nth rd n : forall i prev k, (k < n)%nat ->
  nth k (acquire_from rd i prev n) 0%Q =
  corrected (i + k)
            (match k with
             | O => prev
             | S j => nth j (acquire_from rd i prev n) 0%Q
             end)
            (rd (i + k)%nat).
Proof.
  induction n as [|n IH]; intros i prev k Hk; [lia|].
  destruct k as [|k]; simpl.
  - rewrite Nat.add_0_r. reflexivity.
  - rewrite IH by lia.
    replace (Datatypes.S i + k)%nat with (i + Datatypes.S k)%nat by lia.
    destruct k as [|k]; reflexivity.
Qed.

Lemma acquire_from_in_range rd n : forall i prev,
  (i = 0%nat \/ (0 <= prev <= 4095)%Q) ->
  Forall (fun v => (0 <= v <= 4095)%Q) (acquire_from rd i prev n).
Proof.
  induction n as [|n IH]; intros i prev H; simpl; constructor.
  - apply corrected_in_range; assumption.
  - apply IH. right. apply corrected_in_range; assumption.
Qed.

(** C7.  In the acquisition loop, a reading outside [0, 4095] is replaced
    by the sample stored just before it, or by 2048 at position 0; any
    other reading is stored as it is; so every stored sample lies in
    [0, 4095]. *)
Theorem acquire_corrects_anomalies (analogRead : nat -> Z) (i : nat) :
  (i < SAMPLES)%nat ->
  let r := analogRead i in
  let vReal := acquire analogRead in
  (r < 0 \/ 4095 < r ->
     nth i vReal 0%Q = match i with
                       | O => 2048%Q
                       | Datatypes.S j => nth j vReal 0%Q
                       end)
  /\ (0 <= r <= 4095 -> nth i vReal 0%Q = of_int r)
  /\ (0 <= nth i vReal 0%Q <= 4095)%Q.
Proof.
  intros Hi r vReal.
  assert (E : nth i vReal 0%Q =
              corrected i (match i with
                           | O => 0%Q
                           | Datatypes.S j => nth j vReal 0%Q
                           end) r).
  { unfold vReal, acquire. rewrite acquire_from_nth by exact Hi. reflexivity. }
  split; [|split].
  - intros Hr. rewrite E. unfold corrected. rewrite out_of_range_of_int.
    replace ((r <? 0) || (4095 <? r)) with true.
    + destruct i; reflexivity.
    + symmetry. apply orb_true_iff.
      destruct Hr; [left|right]; apply Z.ltb_lt; assumption.
  - intros [H0 H1]. rewrite E. unfold corrected. rewrite out_of_range_of_int.
    replace ((r <? 0) || (4095 <? r)) with false; [reflexivity|].
    symmetry. apply orb_false_iff. split; apply Z.ltb_ge; assumption.
  - assert (F := acquire_from_in_range analogRead SAMPLES 0 0%Q (or_introl eq_refl)).
    rewrite Forall_forall in F. apply F. apply nth_In.
    unfold vReal, acquire. rewrite acquire_from_length. exact Hi.
Qed.

Lemma acquire_corrects_anomalies_witness :
  nth 0 (acquire glitchy) 0%Q = 2048%Q
  /\ nth 1 (acquire glitchy) 0%Q = of_int 17
  /\ nth 2 (acquire glitchy) 0%Q = nth 1 (acquire glitchy) 0%Q
  /\ (0 <= nth 2 (acquire glitchy) 0%Q <= 4095)%Q.
Proof.
  assert (L0 : (0 < SAMPLES)%nat) by (unfold SAMPLES; lia).
  assert (L1 : (1 < SAMPLES)%nat) by (unfold SAMPLES; lia).
  assert (L2 : (2 < SAMPLES)%nat) by (unfold SAMPLES; lia).
  split; [|split; [|split]].
  - apply (acquire_corrects_anomalies glitchy 0 L0). simpl. lia.
  - apply (acquire_corrects_anomalies glitchy 1 L1). simpl. lia.
  - apply (acquire_corrects_anomalies glitchy 2 L2). simpl. lia.
  - apply (acquire_corrects_anomalies glitchy 2 L2).
Defined.

(** ** IIR smoothing *)

Lemma iir_from_length x : forall prev, length (iir_from prev x) = length x.
Proof. induction x; intros; simpl; [|rewrite IHx]; reflexivity. Qed.

Lemma iir_length x : length (iir x) = length x.
Proof. destruct x; simpl; [|rewrite iir_from_length]; reflexivity. Qed.

Lemma iir_from_nth x : forall prev k, (k < length x)%nat ->
  nth k (iir_from prev x) 0%Q =
  ((7 # 10) * match k with
              | O => prev
              | Datatypes.S j => nth j (iir_from prev x) 0%Q
              end
   + (3 # 10) * nth k x 0%Q)%Q.
Proof.
  induction x as [|xi x IH]; intros prev k Hk; simpl in Hk; [lia|].
  destruct k as [|k]; simpl; [reflexivity|].
  rewrite IH by lia. destruct k; reflexivity.
Qed.

(** C9.  On a block [x] of 128 samples the filter output [y] has
    [y[0] = x[0]] and [y[i] = 0.7*y[i-1] + 0.3*x[i]] for [0 < i < 128]. *)
Theorem iir_recurrence (x : list Q) :
  length x = SAMPLES ->
  let y := iir x in
  nth 0 y 0%Q = nth 0 x 0%Q
  /\ forall i, (0 < i < SAMPLES)%nat ->
       nth i y 0%Q = ((7 # 10) * nth (i - 1) y 0%Q + (3 # 10) * nth i x 0%Q)%Q.
Proof.
  intros Hlen y. unfold y.
  destruct x as [|x0 x]; [discriminate|]. simpl in Hlen.
  split; [reflexivity|].
  intros i [Hi0 Hi]. destruct i as [|k]; [lia|].
  simpl. rewrite Nat.sub_0_r.
  rewrite iir_from_nth by lia.
  destruct k; reflexivity.
Qed.

Lemma iir_recurrence_witness :
  nth 0 (iir ramp) 0%Q = nth 0 ramp 0%Q
  /\ nth 5 (iir ramp) 0%Q
     = ((7 # 10) * nth 4 (iir ramp) 0%Q + (3 # 10) * nth 5 ramp 0%Q)%Q.
Proof.
  assert (L : length ramp = SAMPLES) by reflexivity.
  split.
  - apply (iir_recurrence ramp L).
  - apply (proj2 (iir_recurrence ramp L) 5%nat). unfold SAMPLES. lia.
Defined.

(** ** The moving average *)

Lemma saturate_min (c : Z) : (if 50 <? c then 50 else c) = Z.min c 50.
Proof. destruct (Z.ltb_spec 50 c); lia. Qed.

Lemma smooth_count_run (inputs : list amps) : forall s,
  0 <= count s <= 50 ->
  count (fold_left smooth inputs s)
  = Z.min (count s + Z.of_nat (length inputs)) 50.
Proof.
  induction inputs as [|a l IH]; intros s Hs.
  - simpl. lia.
  - cbn [fold_left length]. rewrite IH.
    + unfold smooth; cbn [count]. rewrite saturate_min. lia.
    + unfold smooth; cbn [count]. rewrite saturate_min. lia.
Qed.

Lemma average_constant (avg : Q) (k A : Z) :
  0 <= k -> (k = 0 \/ avg == of_int A) -> average avg k A == of_int A.
Proof.
  intros Hk H. unfold average, of_int.
  assert (Hq : (0 <= inject_Z k)%Q).
  { change 0%Q with (inject_Z 0). rewrite <- Zle_Qle. exact Hk. }
  rewrite inject_Z_plus.
  destruct H as [->|H].
  - change (inject_Z 0) with 0%Q. change (inject_Z 1) with 1%Q. field.
  - unfold of_int in H. rewrite H. change (inject_Z 1) with 1%Q.
    field. intro E. lra.
Qed.

(** ** The log monad and the shape of a pass *)

Lemma value_bind {A B} (m : M A) (f : A -> M B) :
  value (bind m f) = value (f (value m)).
Proof. destruct m as [a l]; simpl. destruct (f a); reflexivity. Qed.

Lemma log_bind {A B} (m : M A) (f : A -> M B) :
  log (bind m f) = log m ++ log (f (value m)).
Proof. destruct m as [a l]; simpl. destruct (f a); reflexivity. Qed.

Section Passes.
Context {P : Platform}.

Lemma main_pass (st : Main.state) (inp : Main.input) :
  let an := value (analyse (acquire (Main.analogRead inp))) in
  let avg' := smooth (Main.avg st) (bands an) in
  let r := run_ops (Main.buffers st)
             (Main.render_step (Main.mode inp) (bands an) (thresholds_of avg')) in
  value (Main.lightMusicTask st inp)
  = {| Main.next := {| Main.avg := avg'; Main.buffers := fst r |};
       Main.shown := snd r |}.
Proof.
  cbv zeta. unfold Main.lightMusicTask. rewrite value_bind.
  destruct (run_ops _ _); reflexivity.
Qed.

Lemma main_pass_log (st : Main.state) (inp : Main.input) :
  log (Main.lightMusicTask st inp) = log (analyse (acquire (Main.analogRead inp))).
Proof.
  unfold Main.lightMusicTask. rewrite log_bind.
  destruct (run_ops _ _); simpl. apply app_nil_r.
Qed.

Lemma part000_pass (st : Part000.state) (inp : Part000.input) :
  let an := value (analyse (acquire (Part000.analogRead inp))) in
  let avg' := smooth (Part000.avg st) (bands an) in
  let r := value (Part000.render st inp (raw_copy (Part000.analogRead inp))
                    (bands an) (thresholds_of avg') (energy an)) in
  let p := run_ops (Part000.buffers st) (Clear :: snd r ++ [Show]) in
  value (Part000.lightMusicTask st inp)
  = {| Part000.next := {| Part000.avg := avg';
                          Part000.small_circle := fst (fst r);
                          Part000.current_time := snd (fst r);
                          Part000.buffers := fst p |};
       Part000.shown := snd p |}.
Proof.
  cbv zeta. unfold Part000.lightMusicTask. rewrite !value_bind.
  destruct (value (Part000.render _ _ _ _ _ _)) as [[sc ct] ops]. cbn [fst snd].
  destruct (run_ops _ _); reflexivity.
Qed.

Lemma part000_pass_log (st : Part000.state) (inp : Part000.input) :
  let an := value (analyse (acquire (Part000.analogRead inp))) in
  let avg' := smooth (Part000.avg st) (bands an) in
  log (Part000.lightMusicTask st inp)
  = log (analyse (acquire (Part000.analogRead inp)))
    ++ log (Part000.render st inp (raw_copy (Part000.analogRead inp))
              (bands an) (thresholds_of avg') (energy an)).
Proof.
  cbv zeta. unfold Part000.lightMusicTask. rewrite !log_bind. f_equal.
  destruct (value (Part000.render _ _ _ _ _ _)) as [[sc ct] ops].
  destruct (run_ops _ _); simpl. apply app_nil_r.
Qed.

Lemma main_run_count (inputs : list Main.input) : forall st,
  0 <= count (Main.avg st) <= 50 ->
  count (Main.avg (main_run st inputs))
  = Z.min (count (Main.avg st) + Z.of_nat (length inputs)) 50.
Proof.
  induction inputs as [|inp l IH]; intros st Hs.
  - simpl. lia.
  - unfold main_run in *. cbn [fold_left length]. rewrite main_pass.
    rewrite IH; cbn [Main.next Main.avg smooth count]; rewrite saturate_min; lia.
Qed.

Lemma part000_run_count (inputs : list Part000.input) : forall st,
  0 <= count (Part000.avg st) <= 50 ->
  count (Part000.avg (part000_run st inputs))
  = Z.min (count (Part000.avg st) + Z.of_nat (length inputs)) 50.
Proof.
  induction inputs as [|inp l IH]; intros st Hs.
  - simpl. lia.
  - unfold part000_run in *. cbn [fold_left length]. rewrite part000_pass.
    rewrite IH; cbn [Part000.next Part000.avg smooth count];
      rewrite saturate_min; lia.
Qed.

End Passes.

Lemma smooth_constant (a : amps) (n : nat) : forall s,
  0 <= count s ->
  (count s = 0 \/ (avgAmpR s == of_int (ampR a) /\ avgAmpG s == of_int (ampG a)
                   /\ avgAmpB s == of_int (ampB a))) ->
  (0 < n)%nat ->
  let s' := fold_left smooth (repeat a n) s in
  avgAmpR s' == of_int (ampR a) /\ avgAmpG s' == of_int (ampG a)
  /\ avgAmpB s' == of_int (ampB a).
Proof.
  induction n as [|n IH]; intros s Hc H Hn; [lia|].
  cbn [repeat fold_left]. cbv zeta.
  assert (S1 : avgAmpR (smooth s a) == of_int (ampR a)
               /\ avgAmpG (smooth s a) == of_int (ampG a)
               /\ avgAmpB (smooth s a) == of_int (ampB a)).
  { unfold smooth; cbn [avgAmpR avgAmpG avgAmpB].
    repeat split; apply average_constant; try assumption;
      destruct H as [H|(HR & HG & HB)]; auto. }
  destruct n as [|n]; [exact S1|].
  apply IH; [|right; exact S1|lia].
  unfold smooth; cbn [count]. rewrite saturate_min. lia.
Qed.

(** C4.  Whatever the number of passes, the sample count of the smoother of
    either sketch stays at most 50; a pass updates each band with
    [avg' = (avg*count + new)/(count+1)] and [count' = min(count+1, 50)];
    and 50 passes on a constant amplitude [A], from [avg = 0], [count = 0],
    leave the smoothed value equal to [A] (in exact arithmetic, so within
    every epsilon). *)
Theorem smoother_saturates_and_converges :
  (forall (P : Platform) (inputs : list Main.input),
      count (Main.avg (main_run Main.state_init inputs)) <= 50)
  /\ (forall (P : Platform) (t0 : Z) (inputs : list Part000.input),
      count (Part000.avg (part000_run (Part000.state_init t0) inputs)) <= 50)
  /\ (forall (s : smoothed) (a : amps),
      smooth s a
      = {| avgAmpR := (avgAmpR s * of_int (count s) + of_int (ampR a))
                      / of_int (count s + 1);
           avgAmpG := (avgAmpG s * of_int (count s) + of_int (ampG a))
                      / of_int (count s + 1);
           avgAmpB := (avgAmpB s * of_int (count s) + of_int (ampB a))
                      / of_int (count s + 1);
           count := Z.min (count s + 1) 50 |})
  /\ (forall a : amps,
      let s := fold_left smooth (repeat a 50) smoothed_init in
      avgAmpR s == of_int (ampR a) /\ avgAmpG s == of_int (ampG a)
      /\ avgAmpB s == of_int (ampB a) /\ count s = 50).
Proof.
  split; [|split; [|split]].
  - intros P inputs. rewrite main_run_count; simpl; lia.
  - intros P t0 inputs. rewrite part000_run_count; simpl; lia.
  - intros s a. unfold smooth, average. rewrite saturate_min. reflexivity.
  - intros a s.
    assert (C0 : count smoothed_init = 0) by reflexivity.
    destruct (smooth_constant a 50 smoothed_init) as (HR & HG & HB);
      [lia|left; exact C0|lia|].
    fold s in HR, HG, HB.
    split; [exact HR|]. split; [exact HG|]. split; [exact HB|].
    unfold s. rewrite smooth_count_run by lia.
    rewrite C0, repeat_length. reflexivity.
Qed.

(** ** Tiered bars *)

Lemma bass_tier_segment (ampR porigR k : Z) :
  written (bass_tier ampR porigR) k = true -> 0 <= k < 6.
Proof.
  unfold bass_tier, written.
  repeat match goal with |- context [if ?c then _ else _] => destruct c end;
    cbn [write_first write_last]; lia.
Qed.

Lemma mid_tier_segment (ampG porigG k : Z) :
  written (mid_tier ampG porigG) k = true -> 6 <= k < 11.
Proof.
  unfold mid_tier, written.
  repeat match goal with |- context [if ?c then _ else _] => destruct c end;
    cbn [write_first write_last]; lia.
Qed.

Lemma treble_tier_segment (ampB porigB k : Z) :
  written (treble_tier ampB porigB) k = true -> 11 <= k < 16.
Proof.
  unfold treble_tier, written.
  repeat match goal with |- context [if ?c then _ else _] => destruct c end;
    cbn [write_first write_last]; lia.
Qed.

(** C10.  In mode 1 of either sketch, whatever the amplitudes and the
    thresholds, the render step stores three times into the 16-LED group:
    the bass store touches only indices in [0,6), the mid store only
    indices in [6,11), the treble store only indices in [11,16).  The
    segments are disjoint and end within the 16 LEDs of the group. *)
Theorem tiered_bars_stay_in_segments (a : amps) (t : thresholds) :
  let wR := bass_tier (ampR a) (porigR t) in
  let wG := mid_tier (ampG a) (porigG t) in
  let wB := treble_tier (ampB a) (porigB t) in
  writes_of (Main.render 1 a t)
    = [(Main.Circles, wR); (Main.Circles, wG); (Main.Circles, wB)]
  /\ (forall (P : Platform) st rd now raw e,
        writes_of (snd (value (Part000.render st (part000_input rd 1 now) raw a t e)))
        = [(Part000.Circle16, wR); (Part000.Circle16, wG); (Part000.Circle16, wB)])
  /\ (forall k, written wR k = true -> 0 <= k < 6)
  /\ (forall k, written wG k = true -> 6 <= k < 11)
  /\ (forall k, written wB k = true -> 11 <= k < 16)
  /\ 16 <= num_leds Main.Circles
  /\ 16 <= num_leds Part000.Circle16.
Proof.
  cbv zeta. repeat split.
  - apply (bass_tier_segment _ _ _ H).
  - apply (bass_tier_segment _ _ _ H).
  - apply (mid_tier_segment _ _ _ H).
  - apply (mid_tier_segment _ _ _ H).
  - apply (treble_tier_segment _ _ _ H).
  - apply (treble_tier_segment _ _ _ H).
  - discriminate.
  - discriminate.
Qed.

(** ** Unrecognised modes *)

Lemma main_render_unrecognized (m : Z) (a : amps) (t : thresholds) :
  m < 1 \/ 7 < m -> Main.render m a t = [].
Proof.
  intros H. unfold Main.render.
  repeat match goal with
         | |- context [m =? ?k] => destruct (Z.eqb_spec m k); [lia|]
         end.
  reflexivity.
Qed.

Lemma part000_render_unrecognized {P : Platform} st inp raw a t e :
  Part000.mode inp < 1 \/ 7 < Part000.mode inp ->
  Part000.render st inp raw a t e
  = ret (Part000.small_circle st, Part000.current_time st, []).
Proof.
  intros H. unfold Part000.render.
  repeat match goal with
         | |- context [Part000.mode inp =? ?k] =>
             destruct (Z.eqb_spec (Part000.mode inp) k); [lia|]
         end.
  reflexivity.
Qed.

(** C5.  With a mode outside [1,7] the render step of either sketch stores
    nothing after the clear: the one frame pushed is the cleared one, the
    buffers stay cleared, the sweep state of [part_000] is untouched and the
    step divides by nothing; the pass completes like any other. *)
Theorem unrecognized_mode_leaves_frame_cleared (m : Z) :
  m < 1 \/ 7 < m ->
  (forall a t, writes_of (Main.render m a t) = [])
  /\ (forall (P : Platform) st rd,
        let out := value (Main.lightMusicTask st (main_input rd m)) in
        Main.shown out = [cleared] /\ Main.buffers (Main.next out) = cleared)
  /\ (forall (P : Platform) st rd now,
        let inp := part000_input rd m now in
        let out := value (Part000.lightMusicTask st inp) in
        Part000.shown out = [cleared]
        /\ Part000.buffers (Part000.next out) = cleared
        /\ Part000.small_circle (Part000.next out) = Part000.small_circle st
        /\ Part000.current_time (Part000.next out) = Part000.current_time st
        /\ log (Part000.lightMusicTask st inp)
           = log (analyse (acquire rd))).
Proof.
  intros H. split; [|split].
  - intros a t. rewrite main_render_unrecognized by exact H. reflexivity.
  - intros P st rd out. unfold out. rewrite main_pass.
    cbn [Main.next Main.shown Main.buffers main_input Main.mode Main.analogRead].
    unfold Main.render_step. rewrite main_render_unrecognized by exact H.
    split; reflexivity.
  - intros P st rd now inp out. unfold out.
    rewrite part000_pass, part000_pass_log.
    rewrite part000_render_unrecognized by exact H.
    cbn. rewrite app_nil_r. repeat split; reflexivity.
Qed.

Lemma unrecognized_mode_leaves_frame_cleared_witness :
  Main.shown (value (@Main.lightMusicTask bench_platform Main.state_init
                       (main_input glitchy 0))) = [cleared]
  /\ Part000.shown (value (@Part000.lightMusicTask bench_platform
                             (Part000.state_init 0) (part000_input glitchy 99 40)))
     = [cleared].
Proof.
  split.
  - apply (unrecognized_mode_leaves_frame_cleared 0); lia.
  - apply (unrecognized_mode_leaves_frame_cleared 99); lia.
Defined.

(** ** The energy bar *)

Lemma part000_render_mode3 {P : Platform} st rd now raw a t e :
  Part000.render st (part000_input rd 3 now) raw a t e
  = ret (Part000.small_circle st, Part000.current_time st, Part000.energy_bar e).
Proof. reflexivity. Qed.

Lemma energy_frame_on_grid (k : Z) :
  0 <= k <= 16 -> lit (energy_frame (energy_grid k)) = Z.to_nat (Z.max k 1).
Proof.
  intros H.
  assert (C : k = 0 \/ k = 1 \/ k = 2 \/ k = 3 \/ k = 4 \/ k = 5 \/ k = 6
              \/ k = 7 \/ k = 8 \/ k = 9 \/ k = 10 \/ k = 11 \/ k = 12
              \/ k = 13 \/ k = 14 \/ k = 15 \/ k = 16) by lia.
  repeat (destruct C as [-> | C]; [vm_compute; reflexivity|]).
  subst k. vm_compute. reflexivity.
Qed.

(** C3.  In mode 3 of [part_000] (the energy bar on the 16-LED circle), for
    energy estimates taken from 0, 250, ..., 4000, the number of lit LEDs
    does not decrease when the energy grows, and at 4000 it is the whole
    group, 16. *)
Theorem energy_bar_monotone_on_grid (k1 k2 : Z) :
  0 <= k1 -> k1 <= k2 -> k2 <= 16 ->
  (forall (P : Platform) st rd now raw a t e,
      Part000.frames st (part000_input rd 3 now) raw a t e
      = snd (run_ops (Part000.buffers st)
                     (Clear :: Part000.energy_bar e ++ [Show])))
  /\ (lit (energy_frame (energy_grid k1)) <= lit (energy_frame (energy_grid k2)))%nat
  /\ lit (energy_frame (energy_grid 16)) = 16%nat
  /\ Z.of_nat (lit (energy_frame (energy_grid 16))) = Part000.NUM_LEDS_16_CIRCLE
  /\ length (energy_frame (energy_grid 16)) = 16%nat.
Proof.
  intros H0 H12 H2. split; [|split; [|split; [|split]]].
  - intros. reflexivity.
  - rewrite !energy_frame_on_grid by lia. lia.
  - rewrite energy_frame_on_grid by lia. reflexivity.
  - rewrite energy_frame_on_grid by lia. reflexivity.
  - reflexivity.
Qed.

Lemma energy_bar_monotone_on_grid_witness :
  (lit (energy_frame (energy_grid 3)) <= lit (energy_frame (energy_grid 11)))%nat
  /\ lit (energy_frame (energy_grid 16)) = 16%nat.
Proof.
  split.
  - apply (energy_bar_monotone_on_grid 3 11); lia.
  - apply (energy_bar_monotone_on_grid 3 11); lia.
Defined.

(** ** The brightness wash *)





(** ** Normalisation *)

Lemma normalize_positive (a : amps) (e : Q) :
  (0 < e)%Q ->
  normalize a e
  = ({| ampR := to_int (round64 (round64 (of_int (ampR a) / e) * 150));
        ampG := to_int (round64 (round64 (of_int (ampG a) / e) * 100));
        ampB := to_int (round64 (round64 (of_int (ampB a) / e) * 150)) |},
     [Divide e; Divide e; Divide e]).
Proof.
  intros H. unfold normalize. apply Qltb_lt in H. rewrite H. reflexivity.
Qed.

Lemma normalize_skipped (a : amps) (e : Q) :
  (e <= 0)%Q -> normalize a e = (a, []).
Proof.
  intros H. unfold normalize. apply Qltb_ge in H. rewrite H. reflexivity.
Qed.

Lemma normalize_raw_positive (a : Part000.raw_amps) (e : Q) :
  (0 < e)%Q ->
  Part000.normalize_raw a e
  = ({| Part000.rawAmpR := Part000.rawAmpR a / e * 150;
        Part000.rawAmpG := Part000.rawAmpG a / e * 100;
        Part000.rawAmpB := Part000.rawAmpB a / e * 150 |},
     [Divide e; Divide e; Divide e]).
Proof.
  intros H. unfold Part000.normalize_raw. apply Qltb_lt in H. rewrite H.
  reflexivity.
Qed.

Lemma normalize_raw_skipped (a : Part000.raw_amps) (e : Q) :
  (e <= 0)%Q -> Part000.normalize_raw a e = (a, []).
Proof.
  intros H. unfold Part000.normalize_raw. apply Qltb_ge in H. rewrite H.
  reflexivity.
Qed.

Lemma three_divisions_nonzero (e : Q) :
  (0 < e)%Q ->
  Forall (fun ev => ~ divides_by_zero ev) [Divide e; Divide e; Divide e].
Proof.
  intros H. repeat constructor; simpl; intro E; rewrite E in H;
    apply (Qlt_irrefl 0 H).
Qed.

Lemma quotient_nonneg (x e : Q) : (0 <= x)%Q -> (0 < e)%Q -> (0 <= x / e)%Q.
Proof.
  intros Hx He. unfold Qdiv. apply Qmult_le_0_compat; [exact Hx|].
  apply Qinv_le_0_compat. lra.
Qed.

(** The quotient rounded, the product rounded, the result truncated: what is
    stored is within one unit and three roundoffs of the exact value. *)
Lemma rescaled_close (x e gain : Q) :
  (0 <= x)%Q -> (0 < e)%Q -> (0 <= gain)%Q ->
  rescaled_to (to_int (round64 (round64 (x / e) * gain))) (x / e * gain).
Proof.
  intros Hx He Hg. unfold rescaled_to.
  pose proof (quotient_nonneg x e Hx He) as Hq.
  set (q := (x / e)%Q) in *.
  destruct (round64_between q Hq) as [A1 A2].
  pose proof (round64_nonneg q Hq) as A0.
  set (r := round64 q) in *.
  assert (Hp : (0 <= r * gain)%Q) by (apply Qmult_le_0_compat; assumption).
  destruct (round64_between (r * gain) Hp) as [B1 B2].
  pose proof (round64_nonneg (r * gain) Hp) as B0.
  destruct (to_int_floor (round64 (r * gain)) B0) as [T1 T2].
  set (z := of_int (to_int (round64 (r * gain)))) in *.
  set (p := round64 (r * gain)) in *.
  assert (G1 : (q * (1 - unit_roundoff) * gain <= r * gain)%Q)
    by (apply Qmult_le_compat_r; assumption).
  assert (G2 : (r * gain <= q * (1 + unit_roundoff) * gain)%Q)
    by (apply Qmult_le_compat_r; assumption).
  assert (Hqg : (0 <= q * gain)%Q) by (apply Qmult_le_0_compat; assumption).
  set (w := (q * gain)%Q) in *.
  assert (G1' : (w * (1 - unit_roundoff) <= r * gain)%Q).
  { setoid_replace (w * (1 - unit_roundoff))%Q with (q * (1 - unit_roundoff) * gain)%Q
      by (unfold w; ring). exact G1. }
  assert (G2' : (r * gain <= w * (1 + unit_roundoff))%Q).
  { setoid_replace (w * (1 + unit_roundoff))%Q with (q * (1 + unit_roundoff) * gain)%Q
      by (unfold w; ring). exact G2. }
  set (y := (r * gain)%Q) in *.
  unfold unit_roundoff in *.
  change (1 # 2 ^ 53)%Q with (1 # 9007199254740992)%Q in *.
  split; lra.
Qed.

(** C6, as the code has it.  When the energy estimate is positive each band
    amplitude becomes the [double] expression [(amplitude / energy) * gain]
    with gains 150, 100, 150; in the main path, where the amplitudes are
    [int]s, the quotient and the product are each rounded to [double] and
    the result is truncated toward zero, which leaves an integer within one
    unit (and three roundoffs) of the exact value; in the raw path of mode 5
    of [part_000] the amplitudes stay [double]s.  When the energy estimate
    is zero the three amplitudes are left as they were.  In neither case is
    a division by zero performed. *)
Theorem normalize_rescales_or_skips (a : amps) (ra : Part000.raw_amps) (e : Q) :
  ((0 < e)%Q ->
     value (normalize a e)
     = {| ampR := to_int (round64 (round64 (of_int (ampR a) / e) * 150));
          ampG := to_int (round64 (round64 (of_int (ampG a) / e) * 100));
          ampB := to_int (round64 (round64 (of_int (ampB a) / e) * 150)) |}
     /\ (0 <= ampR a ->
         rescaled_to (ampR (value (normalize a e))) (of_int (ampR a) / e * 150))
     /\ (0 <= ampG a ->
         rescaled_to (ampG (value (normalize a e))) (of_int (ampG a) / e * 100))
     /\ (0 <= ampB a ->
         rescaled_to (ampB (value (normalize a e))) (of_int (ampB a) / e * 150))
     /\ value (Part000.normalize_raw ra e)
        = {| Part000.rawAmpR := Part000.rawAmpR ra / e * 150;
             Part000.rawAmpG := Part000.rawAmpG ra / e * 100;
             Part000.rawAmpB := Part000.rawAmpB ra / e * 150 |})
  /\ (e == 0 ->
        normalize a e = (a, []) /\ Part000.normalize_raw ra e = (ra, []))
  /\ Forall (fun ev => ~ divides_by_zero ev) (log (normalize a e))
  /\ Forall (fun ev => ~ divides_by_zero ev) (log (Part000.normalize_raw ra e)).
Proof.
  split; [|split; [|split]].
  - intros H. rewrite normalize_positive, normalize_raw_positive by exact H.
    cbn [value fst ampR ampG ampB].
    split; [reflexivity|].
    split; [intros Ha; apply rescaled_close;
            [apply of_int_nonneg, Ha|exact H|discriminate]|].
    split; [intros Ha; apply rescaled_close;
            [apply of_int_nonneg, Ha|exact H|discriminate]|].
    split; [intros Ha; apply rescaled_close;
            [apply of_int_nonneg, Ha|exact H|discriminate]|].
    reflexivity.
  - intros H. split; [apply normalize_skipped|apply normalize_raw_skipped];
      rewrite H; apply Qle_refl.
  - destruct (Qlt_le_dec 0 e) as [H|H].
    + rewrite normalize_positive by exact H. apply three_divisions_nonzero, H.
    + rewrite normalize_skipped by exact H. constructor.
  - destruct (Qlt_le_dec 0 e) as [H|H].
    + rewrite normalize_raw_positive by exact H. apply three_divisions_nonzero, H.
    + rewrite normalize_raw_skipped by exact H. constructor.
Qed.

Lemma normalize_rescales_or_skips_witness :
  value (normalize (amps_of 29) 100) = {| ampR := 43; ampG := 28; ampB := 43 |}
  /\ rescaled_to 28 (of_int 29 / 100 * 100)
  /\ normalize (amps_of 3) 0 = (amps_of 3, []).
Proof.
  pose (ra := {| Part000.rawAmpR := 1; Part000.rawAmpG := 1; Part000.rawAmpB := 1 |}).
  assert (P : (0 < 100)%Q) by reflexivity.
  assert (Z : (0 == 0)%Q) by reflexivity.
  assert (N : 0 <= ampG (amps_of 29)) by discriminate.
  pose proof (normalize_rescales_or_skips (amps_of 29) ra 100) as T.
  destruct T as (T & _). destruct (T P) as (E & _ & G & _).
  pose proof (normalize_rescales_or_skips (amps_of 3) ra 0) as T0.
  destruct T0 as (_ & S & _).
  split; [rewrite E; vm_compute; reflexivity|].
  split; [exact (G N)|]. exact (proj1 (S Z)).
Defined.

(** C6, as stated, fails in the main path.  With amplitude 1 and energy 4
    the rescaled value [(1 / 4) * 150] is 75/2, but the [int] amplitude left
    by the step is 37.  With amplitude 29 and energy 100 the rescaled value
    of the mid band is 29, an integer, but the step leaves 28: the [double]
    nearest to 29/100 is below it, and so is its product with 100. *)
Lemma normalize_truncates :
  value (normalize (amps_of 1) 4) = {| ampR := 37; ampG := 25; ampB := 37 |}
  /\ ~ (of_int (ampR (value (normalize (amps_of 1) 4))) == of_int 1 / 4 * 150)
  /\ value (normalize (amps_of 29) 100) = {| ampR := 43; ampG := 28; ampB := 43 |}
  /\ ~ (of_int (ampG (value (normalize (amps_of 29) 100))) == of_int 29 / 100 * 100).
Proof.
  split; [vm_compute; reflexivity|].
  split; [vm_compute; discriminate|].
  split; [vm_compute; reflexivity|]. vm_compute. discriminate.
Qed.

(** ** Silence through the analyser *)

Lemma all_zero_repeat (n : nat) : all_zero (repeat 0%Q n).
Proof. induction n; constructor; [reflexivity|assumption]. Qed.

Lemma all_zero_nth (v : list Q) : all_zero v -> forall i, nth i v 0%Q == 0.
Proof.
  intros H i. destruct (nth_in_or_default i v 0%Q) as [I|E].
  - unfold all_zero in H. rewrite Forall_forall in H. apply H, I.
  - rewrite E. reflexivity.
Qed.

Lemma fold_plus_zero (v : list Q) : forall acc,
  all_zero v -> acc == 0 -> fold_left Qplus v acc == 0.
Proof.
  induction v as [|x v IH]; intros acc H E; simpl; [exact E|].
  inversion H; subst. apply IH; [assumption|].
  rewrite E, H2. reflexivity.
Qed.

Lemma sum_zero (v : list Q) : all_zero v -> sum v == 0.
Proof. intros H. apply fold_plus_zero; [exact H|reflexivity]. Qed.

Lemma mean_zero (v : list Q) : all_zero v -> mean v == 0.
Proof. intros H. unfold mean. rewrite (sum_zero v H). reflexivity. Qed.

Lemma remove_dc_zero (v : list Q) : all_zero v -> all_zero (remove_dc v).
Proof.
  intros H. unfold remove_dc, all_zero. rewrite Forall_map.
  assert (Hm := mean_zero v H).
  eapply Forall_impl; [|exact H]. cbv beta. intros x Hx.
  rewrite Hx, Hm. reflexivity.
Qed.

Lemma iir_from_zero (v : list Q) : forall prev,
  prev == 0 -> all_zero v -> all_zero (iir_from prev v).
Proof.
  induction v as [|x v IH]; intros prev Hp H; simpl; [constructor|].
  inversion H; subst.
  assert (Y : (7 # 10) * prev + (3 # 10) * x == 0) by (rewrite Hp, H2; reflexivity).
  constructor; [exact Y|]. apply IH; assumption.
Qed.

Lemma iir_zero (v : list Q) : all_zero v -> all_zero (iir v).
Proof.
  intros H. destruct v as [|x v]; [constructor|]. inversion H; subst.
  simpl. constructor; [assumption|]. apply iir_from_zero; assumption.
Qed.

Lemma band_step_zero (v : list Q) (i : nat) :
  all_zero v -> band_step v (0, 0, 0) i = (0, 0, 0).
Proof.
  intros H. unfold band_step, Arduino.abs.
  assert (E : to_int (of_int 0 + Qabs (nth i v 0%Q)) = 0).
  { apply to_int_zero. rewrite (all_zero_nth v H i). reflexivity. }
  rewrite E. destruct (i <? 20)%nat; [|destruct (i <? 80)%nat]; reflexivity.
Qed.

Lemma band_amplitudes_zero (v : list Q) :
  all_zero v -> band_amplitudes v = amps_of 0.
Proof.
  intros H. unfold band_amplitudes.
  assert (F : forall l, fold_left (band_step v) l (0, 0, 0) = (0, 0, 0)).
  { induction l as [|i l IH]; cbn [fold_left]; [reflexivity|].
    rewrite band_step_zero by exact H. exact IH. }
  rewrite F. reflexivity.
Qed.

Lemma totalEnergy_zero (v : list Q) : all_zero v -> totalEnergy v == 0.
Proof.
  intros H. unfold totalEnergy.
  assert (F : forall l acc, acc == 0 ->
            fold_left (fun e i => (e + nth i v 0 * nth i v 0)%Q) l acc == 0).
  { induction l as [|i l IH]; intros acc E; simpl; [exact E|].
    apply IH. rewrite E, (all_zero_nth v H i). reflexivity. }
  apply F. reflexivity.
Qed.

Lemma raw_band_amplitudes_zero (v : list Q) :
  all_zero v ->
  Part000.rawAmpR (Part000.raw_band_amplitudes v) == 0
  /\ Part000.rawAmpG (Part000.raw_band_amplitudes v) == 0
  /\ Part000.rawAmpB (Part000.raw_band_amplitudes v) == 0.
Proof.
  intros H. unfold Part000.raw_band_amplitudes.
  assert (F : forall l acc,
            fst (fst acc) == 0 /\ snd (fst acc) == 0 /\ snd acc == 0 ->
            let r := fold_left (Part000.raw_band_step v) l acc in
            fst (fst r) == 0 /\ snd (fst r) == 0 /\ snd r == 0).
  { induction l as [|i l IH]; intros acc E; simpl; [exact E|].
    apply IH. destruct acc as [[aR aG] aB]. simpl in E.
    destruct E as (ER & EG & EB).
    unfold Part000.raw_band_step, Arduino.abs.
    assert (N := all_zero_nth v H i).
    destruct (i <? 20)%nat; [|destruct (i <? 80)%nat]; simpl;
      repeat split; try assumption;
      match goal with |- ?x + _ == 0 => rewrite N end;
      first [rewrite ER|rewrite EG|rewrite EB]; reflexivity. }
  specialize (F (seq 0 SAMPLES) (0%Q, 0%Q, 0%Q)).
  destruct (fold_left _ _ _) as [[aR aG] aB]. simpl in F |- *.
  destruct F as (ER & EG & EB); [repeat split; reflexivity|].
  rewrite ER, EG, EB. repeat split; reflexivity.
Qed.

Section Silence.
Context {P : Platform}.
Hypothesis lawful : zero_preserving P.

Lemma spectrum_zero (v : list Q) : all_zero v -> all_zero (spectrum v).
Proof.
  intros H. unfold spectrum.
  assert (W := windowing_zero P lawful v H).
  assert (C := compute_zero P lawful _ _ W (all_zero_repeat SAMPLES)).
  destruct (FFT_compute _ _) as [re im]. simpl in C.
  apply (complexToMagnitude_zero P lawful); tauto.
Qed.

Lemma avgEnergy_zero (v : list Q) : all_zero v -> avgEnergy v == 0.
Proof.
  intros H. unfold avgEnergy. apply (sqrt_zero P lawful).
  rewrite (totalEnergy_zero v H). reflexivity.
Qed.

Lemma analyse_zero (v : list Q) :
  all_zero v ->
  bands (value (analyse v)) = amps_of 0
  /\ energy (value (analyse v)) == 0
  /\ log (analyse v) = [].
Proof.
  intros H. unfold analyse. cbv zeta.
  assert (Z0 := spectrum_zero _ (iir_zero _ (remove_dc_zero _ H))).
  rewrite (band_amplitudes_zero _ Z0).
  rewrite normalize_skipped by (rewrite (avgEnergy_zero _ Z0); apply Qle_refl).
  unfold bind, ret, value, log; cbn [fst snd bands energy app].
  split; [reflexivity|]. split; [apply avgEnergy_zero, Z0|reflexivity].
Qed.

End Silence.

Lemma acquire_silence : acquire silence = repeat 0%Q SAMPLES.
Proof. reflexivity. Qed.

Lemma raw_copy_silence : raw_copy silence = repeat 0%Q SAMPLES.
Proof. reflexivity. Qed.

(** ** The small instance is lawful *)

Lemma sqrt_down_zero (q : Q) : q == 0 -> sqrt_down q == 0.
Proof.
  intros H. unfold sqrt_down.
  assert (E : Qfloor (q * 1000000) = 0%Z).
  { rewrite (Qfloor_comp (q * 1000000) 0); [reflexivity|].
    rewrite H. reflexivity. }
  rewrite E. reflexivity.
Qed.

Lemma bench_platform_lawful : zero_preserving bench_platform.
Proof.
  constructor.
  - exact sqrt_down_zero.
  - intros v H. simpl. unfold all_zero in *. rewrite Forall_map.
    eapply Forall_impl; [|exact H]. cbv beta. intros x Hx.
    rewrite Hx. reflexivity.
  - intros re im Hr Hi. simpl. split; assumption.
  - intros re im Hr Hi. simpl. unfold all_zero in *. rewrite Forall_map.
    rewrite Forall_forall in *. intros [a b] I. cbn [fst snd].
    apply sqrt_down_zero.
    rewrite (Hr a (in_combine_l _ _ _ _ I)), (Hi b (in_combine_r _ _ _ _ I)).
    reflexivity.
Qed.

(** ** Stores, read back *)

Lemma store_from_length (w : write) (leds : list CRGB) : forall k,
  length (store_from k w leds) = length leds.
Proof. induction leds; intros; simpl; [|rewrite IHleds]; reflexivity. Qed.

Lemma store_from_nth (w : write) (d : CRGB) (leds : list CRGB) : forall k i,
  (i < length leds)%nat ->
  nth i (store_from k w leds) d
  = if written w (k + Z.of_nat i) then colour w else nth i leds d.
Proof.
  induction leds as [|c leds IH]; intros k i Hi; simpl in Hi; [lia|].
  destruct i as [|i]; cbn [store_from nth].
  - rewrite Z.add_0_r. destruct (written w k); reflexivity.
  - rewrite IH by lia. replace (k + 1 + Z.of_nat i) with (k + Z.of_nat (Datatypes.S i)) by lia.
    reflexivity.
Qed.

Lemma store_nth (w : write) (d : CRGB) (leds : list CRGB) (i : nat) :
  (i < length leds)%nat ->
  nth i (store w leds) d
  = if written w (Z.of_nat i) then colour w else nth i leds d.
Proof. intros H. unfold store. rewrite store_from_nth by exact H. reflexivity. Qed.

Lemma store_length (w : write) (leds : list CRGB) :
  length (store w leds) = length leds.
Proof. apply store_from_length. Qed.

Lemma bass_tier_first (ampR porigR : Z) :
  written (bass_tier ampR porigR) 0 = true
  /\ colour (bass_tier ampR porigR) = rgb 255 0 0.
Proof.
  unfold bass_tier.
  repeat match goal with |- context [if ?c then _ else _] => destruct c end;
    split; reflexivity.
Qed.

Lemma mid_tier_first (ampG porigG : Z) :
  written (mid_tier ampG porigG) 6 = true
  /\ colour (mid_tier ampG porigG) = rgb 0 255 0.
Proof.
  unfold mid_tier.
  repeat match goal with |- context [if ?c then _ else _] => destruct c end;
    split; reflexivity.
Qed.

Lemma treble_tier_first (ampB porigB : Z) :
  written (treble_tier ampB porigB) 11 = true
  /\ colour (treble_tier ampB porigB) = rgb 0 0 255.
Proof.
  unfold treble_tier.
  repeat match goal with |- context [if ?c then _ else _] => destruct c end;
    split; reflexivity.
Qed.

Lemma not_written (w : write) (k lo hi : Z) :
  (forall j, written w j = true -> lo <= j < hi) -> ~ lo <= k < hi ->
  written w k = false.
Proof.
  intros H N. destruct (written w k) eqn:E; [|reflexivity].
  exfalso. apply N, H, E.
Qed.

(** After the three stores of the tiered bars, the first LED of each band
    segment carries the colour of its band. *)
Lemma tiered_bars_first_leds (a : amps) (t : thresholds) (leds : list CRGB) :
  (16 <= length leds)%nat ->
  let leds' := store (treble_tier (ampB a) (porigB t))
                 (store (mid_tier (ampG a) (porigG t))
                    (store (bass_tier (ampR a) (porigR t)) leds)) in
  nth 0 leds' Black = rgb 255 0 0
  /\ nth 6 leds' Black = rgb 0 255 0
  /\ nth 11 leds' Black = rgb 0 0 255.
Proof.
  intros L leds'. unfold leds'.
  destruct (bass_tier_first (ampR a) (porigR t)) as [WR CR].
  destruct (mid_tier_first (ampG a) (porigG t)) as [WG CG].
  destruct (treble_tier_first (ampB a) (porigB t)) as [WB CB].
  repeat split.
  - rewrite !store_nth by (rewrite ?store_length; lia).
    rewrite (not_written _ (Z.of_nat 0) 11 16 (treble_tier_segment _ _)) by (simpl; lia).
    rewrite (not_written _ (Z.of_nat 0) 6 11 (mid_tier_segment _ _)) by (simpl; lia).
    change (Z.of_nat 0) with 0. rewrite WR. exact CR.
  - rewrite !store_nth by (rewrite ?store_length; lia).
    rewrite (not_written _ (Z.of_nat 6) 11 16 (treble_tier_segment _ _)) by (simpl; lia).
    change (Z.of_nat 6) with 6. rewrite WG. exact CG.
  - rewrite !store_nth by (rewrite ?store_length; lia).
    change (Z.of_nat 11) with 11. rewrite WB. exact CB.
Qed.

(** ** The rotating dot *)

Lemma sweep_log (sc ct mc mr : Z) (e : Q) :
  log (Part000.sweep sc ct mc mr e) = [Divide e].
Proof.
  unfold Part000.sweep. rewrite log_bind. cbn [ddiv log value fst snd].
  match goal with |- context [if ?c then _ else _] => destruct c end;
    reflexivity.
Qed.

Lemma sweep_on_zero (sc ct mc mr : Z) (e : Q) :
  e == 0 ->
  let sc' := if sc <? Part000.NUM_LEDS_12_CIRCLE then sc else 0 in
  value (Part000.sweep sc ct mc mr e)
  = (sc', ct, [Wr Part000.Circle12 (Assign sc' (rgb 0 0 255))]).
Proof.
  intros H sc'. unfold Part000.sweep. rewrite value_bind.
  apply Qeq_bool_iff in H. rewrite H. reflexivity.
Qed.

Lemma part000_render_mode2 {P : Platform} st inp raw a t e :
  Part000.mode inp = 2 ->
  Part000.render st inp raw a t e
  = Part000.sweep (Part000.small_circle st) (Part000.current_time st)
                  (Part000.millis_check inp) (Part000.millis_reset inp) e.
Proof. intros H. unfold Part000.render. rewrite H. reflexivity. Qed.

Lemma part000_mode2_log {P : Platform} st inp :
  Part000.mode inp = 2 ->
  log (Part000.lightMusicTask st inp)
  = log (analyse (acquire (Part000.analogRead inp)))
    ++ [Divide (energy (value (analyse (acquire (Part000.analogRead inp)))))].
Proof.
  intros H. rewrite part000_pass_log, part000_render_mode2 by exact H.
  rewrite sweep_log. reflexivity.
Qed.

(** C8.  In mode 2 of [part_000] the quotient [1000000 / avgEnergy] is
    formed whatever the energy estimate is: the branch has no guard.  So on
    a pass whose energy estimate is zero the branch divides by zero; the dot
    then stays on its LED. *)
Theorem sweep_divides_by_zero_on_silence {P : Platform}
    (st : Part000.state) (inp : Part000.input) :
  Part000.mode inp = 2 ->
  energy (value (analyse (acquire (Part000.analogRead inp)))) == 0 ->
  let out := value (Part000.lightMusicTask st inp) in
  (forall sc ct mc mr e, log (Part000.sweep sc ct mc mr e) = [Divide e])
  /\ Exists divides_by_zero (log (Part000.lightMusicTask st inp))
  /\ Part000.current_time (Part000.next out) = Part000.current_time st
  /\ Part000.small_circle (Part000.next out)
     = (if Part000.small_circle st <? Part000.NUM_LEDS_12_CIRCLE
        then Part000.small_circle st else 0).
Proof.
  intros Hm He out. split; [exact sweep_log|]. split.
  - rewrite part000_mode2_log by exact Hm.
    apply Exists_app. right. constructor. exact He.
  - unfold out. rewrite part000_pass.
    rewrite part000_render_mode2 by exact Hm.
    rewrite sweep_on_zero by exact He. split; reflexivity.
Qed.

Lemma sweep_divides_by_zero_on_silence_witness :
  Exists divides_by_zero
    (log (@Part000.lightMusicTask bench_platform (Part000.state_init 0)
            (part000_input silence 2 40))).
Proof.
  apply (@sweep_divides_by_zero_on_silence bench_platform (Part000.state_init 0)
           (part000_input silence 2 40)).
  - reflexivity.
  - vm_compute. reflexivity.
Defined.

(** Silence reaches the unguarded division with any lawful library. *)
Lemma silence_divides_by_zero {P : Platform} (st : Part000.state) (now : Z) :
  zero_preserving P ->
  Exists divides_by_zero
    (log (Part000.lightMusicTask st (part000_input silence 2 now))).
Proof.
  intros lawful. rewrite part000_mode2_log by reflexivity.
  apply Exists_app. right. constructor.
  cbn [part000_input Part000.analogRead]. rewrite acquire_silence.
  apply (analyse_zero lawful). apply all_zero_repeat.
Qed.

(** ** Silence through the render step *)

Section SilentPass.
Context {P : Platform}.
Hypothesis lawful : zero_preserving P.

Lemma silent_analysis :
  bands (value (analyse (acquire silence))) = amps_of 0
  /\ energy (value (analyse (acquire silence))) == 0
  /\ log (analyse (acquire silence)) = [].
Proof. rewrite acquire_silence. apply (analyse_zero lawful), all_zero_repeat. Qed.

Lemma dual_path_silent :
  Part000.dual_path (raw_copy silence) (amps_of 0)
  = ret [ Clear;
          Wr Part000.LSquare (fill_solid 0 0 (rgb 255 0 0));
          Wr Part000.LSquare (fill_solid 4 0 (rgb 0 255 0));
          Wr Part000.LSquare (fill_solid 8 0 (rgb 0 0 255));
          Wr Part000.RSquare (fill_solid 16 0 (rgb 255 0 0));
          Wr Part000.RSquare (fill_solid 12 0 (rgb 0 255 0));
          Wr Part000.RSquare (fill_solid 8 0 (rgb 0 0 255));
          Show ].
Proof.
  unfold Part000.dual_path. rewrite raw_copy_silence.
  assert (Z0 := spectrum_zero lawful _ (remove_dc_zero _ (all_zero_repeat SAMPLES))).
  rewrite normalize_raw_skipped
    by (rewrite (avgEnergy_zero lawful _ Z0); apply Qle_refl).
  destruct (raw_band_amplitudes_zero _ Z0) as (ER & EG & EB).
  unfold bind, ret.
  rewrite (to_int_zero _ ER), (to_int_zero _ EG), (to_int_zero _ EB).
  reflexivity.
Qed.

Lemma energy_bar_silent (e : Q) :
  e == 0 ->
  Part000.energy_bar e = [Wr Part000.Circle16 (Fill 0 1 (rgb 255 0 170))].
Proof.
  intros H. unfold Part000.energy_bar.
  replace (Qleb e 250) with true; [reflexivity|].
  symmetry. apply Qleb_le. rewrite H. discriminate.
Qed.

End SilentPass.

(** C1, as the code has it.  On an all-zero block the pipeline yields band
    amplitudes 0, 0, 0 and energy estimate 0 without dividing, and the frame
    is all dark in the wash modes (2, 3, 5, 6, 7 of [main.cpp]; 6, 7 of
    [part_000]) and in the raw and dual-path modes (4, 5 of [part_000],
    which push it twice).  The other modes light LEDs even then: the tiered
    bars (1 and 4 of [main.cpp], 1 of [part_000]) light the first LED of
    each band segment, the rotating dot of mode 2 of [part_000] is on, and
    the energy bar of mode 3 lights its first LED. *)
Theorem silent_block_pipeline {P : Platform} :
  zero_preserving P ->
  let an := value (analyse (acquire silence)) in
  (bands an = {| ampR := 0; ampG := 0; ampB := 0 |}
   /\ energy an == 0
   /\ log (analyse (acquire silence)) = [])
  /\ (forall st m,
        let out := value (Main.lightMusicTask st (main_input silence m)) in
        (m = 2 \/ m = 3 \/ m = 5 \/ m = 6 \/ m = 7 -> Main.shown out = [cleared])
        /\ (m = 1 -> exists f, Main.shown out = [f]
              /\ nth 0 (Main.leds_circles f) Black = rgb 255 0 0
              /\ nth 6 (Main.leds_circles f) Black = rgb 0 255 0
              /\ nth 11 (Main.leds_circles f) Black = rgb 0 0 255)
        /\ (m = 4 -> exists f, Main.shown out = [f]
              /\ nth 0 (Main.leds_squares f) Black = rgb 255 0 0
              /\ nth 6 (Main.leds_squares f) Black = rgb 0 255 0
              /\ nth 11 (Main.leds_squares f) Black = rgb 0 0 255))
  /\ (forall st m now,
        let out := value (Part000.lightMusicTask st (part000_input silence m now)) in
        (m = 6 \/ m = 7 -> Part000.shown out = [cleared])
        /\ (m = 4 \/ m = 5 -> Part000.shown out = [cleared; cleared])
        /\ (m = 1 -> exists f, Part000.shown out = [f]
              /\ nth 0 (Part000.leds_16_circle f) Black = rgb 255 0 0
              /\ nth 6 (Part000.leds_16_circle f) Black = rgb 0 255 0
              /\ nth 11 (Part000.leds_16_circle f) Black = rgb 0 0 255)
        /\ (m = 2 -> 0 <= Part000.small_circle st ->
              exists f, Part000.shown out = [f]
              /\ nth (Z.to_nat (Part000.small_circle (Part000.next out)))
                     (Part000.leds_12_circle f) Black = rgb 0 0 255)
        /\ (m = 3 -> exists f, Part000.shown out = [f]
              /\ nth 0 (Part000.leds_16_circle f) Black = rgb 255 0 170)).
Proof.
  intros lawful an.
  destruct (silent_analysis lawful) as (HB & HE & HL).
  split; [unfold an; rewrite HB; repeat split; assumption|].
  split.
  - intros st m out. unfold out. rewrite main_pass.
    cbn [main_input Main.analogRead Main.mode Main.shown].
    rewrite HB. generalize (thresholds_of (smooth (Main.avg st) (amps_of 0))).
    intros t. split; [|split].
    + intros [-> | [-> | [-> | [-> | ->]]]]; reflexivity.
    + intros ->. eexists. split; [reflexivity|].
      cbn [Main.leds_circles]. apply tiered_bars_first_leds. simpl; lia.
    + intros ->. eexists. split; [reflexivity|].
      cbn [Main.leds_squares]. apply tiered_bars_first_leds. simpl; lia.
  - intros st m now out. unfold out. rewrite part000_pass.
    cbn [part000_input Part000.analogRead Part000.next Part000.shown
         Part000.small_circle].
    rewrite HB.
    generalize (thresholds_of (smooth (Part000.avg st) (amps_of 0))).
    intros t. split; [|split; [|split; [|split]]].
    + intros [-> | ->]; reflexivity.
    + intros [-> | ->].
      * reflexivity.
      * unfold Part000.render.
        cbn [part000_input Part000.mode Z.eqb Pos.eqb].
        rewrite (dual_path_silent lawful). reflexivity.
    + intros ->. eexists. split; [reflexivity|].
      cbn [Part000.leds_16_circle]. apply tiered_bars_first_leds. simpl; lia.
    + intros -> Hsc. rewrite part000_render_mode2 by reflexivity.
      rewrite sweep_on_zero by exact HE.
      cbn [fst snd]. eexists. split; [reflexivity|].
      cbn [Part000.leds_12_circle]. unfold Part000.NUM_LEDS_12_CIRCLE.
      set (sc := if Part000.small_circle st <? 12 then Part000.small_circle st else 0).
      assert (Hr : 0 <= sc < 12).
      { unfold sc. destruct (Z.ltb_spec (Part000.small_circle st) 12); lia. }
      cbn [Part000.leds_12_circle set_leds leds cleared Part000.strips].
      rewrite store_nth by (simpl; lia).
      unfold written; cbn [write_first write_last colour].
      rewrite Z2Nat.id by lia.
      replace (sc <=? sc) with true by (symmetry; apply Z.leb_le; lia).
      replace (sc <? sc + 1) with true by (symmetry; apply Z.ltb_lt; lia).
      reflexivity.
    + intros ->. unfold Part000.render.
      cbn [part000_input Part000.mode Z.eqb Pos.eqb].
      rewrite (energy_bar_silent _ HE). eexists. split; reflexivity.
Qed.

Lemma silent_block_pipeline_witness :
  bands (value (@analyse bench_platform (acquire silence)))
  = {| ampR := 0; ampG := 0; ampB := 0 |}
  /\ Main.shown (value (@Main.lightMusicTask bench_platform Main.state_init
                          (main_input silence 3))) = [cleared].
Proof.
  pose proof (@silent_block_pipeline bench_platform bench_platform_lawful) as T.
  cbv zeta in T. destruct T as ((HB & _) & HM & _).
  split; [exact HB|].
  destruct (HM Main.state_init 3) as (D & _). apply D. tauto.
Defined.

(** C1, as stated, fails: on the all-zero block, from the initial state,
    mode 1 of [main.cpp] lights the sixteen LEDs of the first circle (red,
    green and blue segments), and mode 3 of [part_000] lights the first LED
    of the large circle. *)
Lemma silent_block_mode1_not_dark :
  Main.shown (value (@Main.lightMusicTask bench_platform Main.state_init
                       (main_input silence 1)))
  = [main_frame (repeat (rgb 255 0 0) 6 ++ repeat (rgb 0 255 0) 5
                 ++ repeat (rgb 0 0 255) 5 ++ repeat Black 12)
                (repeat Black 32)]
  /\ Main.shown (value (@Main.lightMusicTask bench_platform Main.state_init
                          (main_input silence 1))) <> [cleared]
  /\ Part000.shown (value (@Part000.lightMusicTask bench_platform
                             (Part000.state_init 0) (part000_input silence 3 0)))
     = [part000_frame (rgb 255 0 170 :: repeat Black 15) (repeat Black 12)
                      (repeat Black 16) (repeat Black 16)].
Proof.
  split; [vm_compute; reflexivity|].
  split; [vm_compute; discriminate|].
  vm_compute; reflexivity.
Qed.

(** * Further properties of the pass *)

(** ** DC removal *)

Lemma fold_plus_acc (v : list Q) : forall acc,
  (fold_left Qplus v acc == acc + fold_left Qplus v 0)%Q.
Proof.
  induction v as [|x v IH]; intros acc; simpl.
  - ring.
  - rewrite IH, (IH (0 + x)%Q). ring.
Qed.

Lemma sum_cons (x : Q) (v : list Q) : (sum (x :: v) == x + sum v)%Q.
Proof. unfold sum. simpl. rewrite fold_plus_acc. ring. Qed.

Lemma sum_shifted (m : Q) (v : list Q) :
  (sum (List.map (fun x => x - m) v)
   == sum v - of_int (Z.of_nat (List.length v)) * m)%Q.
Proof.
  induction v as [|x v IH].
  - unfold sum, of_int. simpl. ring.
  - cbn [List.map List.length]. rewrite !sum_cons, IH.
    rewrite Nat2Z.inj_succ. unfold of_int, Z.succ.
    rewrite inject_Z_plus. change (inject_Z 1) with 1%Q. ring.
Qed.

(** The block left by the DC removal of a full block sums to zero: its mean
    is zero, each sample being the original one minus the mean of the
    block. *)
Theorem remove_dc_zero_mean (v : list Q) :
  List.length v = SAMPLES ->
  sum (remove_dc v) == 0
  /\ mean (remove_dc v) == 0
  /\ List.length (remove_dc v) = SAMPLES
  /\ forall i, (i < SAMPLES)%nat ->
       nth i (remove_dc v) 0%Q = (nth i v 0%Q - mean v)%Q.
Proof.
  intros L.
  assert (S0 : sum (remove_dc v) == 0).
  { unfold remove_dc. rewrite sum_shifted, L. unfold mean. field.
    unfold of_int, SAMPLES. discriminate. }
  split; [exact S0|]. split; [|split].
  - unfold mean. rewrite S0. reflexivity.
  - unfold remove_dc. rewrite length_map. exact L.
  - intros i Hi. unfold remove_dc.
    rewrite (nth_indep _ 0%Q (0 - mean v)%Q) by (rewrite length_map; lia).
    apply (map_nth (fun x => (x - mean v)%Q)).
Qed.

Lemma remove_dc_zero_mean_witness :
  sum (remove_dc ramp) == 0 /\ mean (remove_dc ramp) == 0.
Proof.
  assert (L : List.length ramp = SAMPLES) by reflexivity.
  destruct (remove_dc_zero_mean ramp L) as (S0 & M0 & _).
  split; [exact S0|exact M0].
Defined.

(** ** IIR smoothing keeps the range of its input *)

Lemma iir_from_between (lo hi : Q) (x : list Q) : forall prev,
  (lo <= prev <= hi)%Q ->
  Forall (fun s => (lo <= s <= hi)%Q) x ->
  Forall (fun s => (lo <= s <= hi)%Q) (iir_from prev x).
Proof.
  induction x as [|xi x IH]; intros prev Hp H; simpl; [constructor|].
  inversion H as [|? ? Hx Hr]; subst.
  assert (Y : (lo <= (7 # 10) * prev + (3 # 10) * xi <= hi)%Q) by lra.
  constructor; [exact Y|]. apply IH; assumption.
Qed.

(** The filter is a running weighted mean: its output never leaves the
    range of its input, and a constant block comes out unchanged (unity
    gain at DC). *)
Theorem iir_keeps_range (lo hi : Q) (x : list Q) :
  Forall (fun s => (lo <= s <= hi)%Q) x ->
  Forall (fun s => (lo <= s <= hi)%Q) (iir x)
  /\ List.length (iir x) = List.length x.
Proof.
  intros H. split; [|apply iir_length].
  destruct x as [|x0 x]; [constructor|].
  inversion H as [|? ? H0 Hr]; subst. simpl.
  constructor; [exact H0|]. apply iir_from_between; assumption.
Qed.

Lemma iir_keeps_range_witness :
  Forall (fun s => (0 <= s <= 127)%Q) (iir ramp).
Proof.
  apply (iir_keeps_range 0 127 ramp).
  unfold ramp, SAMPLES. rewrite Forall_map, Forall_forall.
  intros i Hi. apply in_seq in Hi. unfold of_int.
  change 0%Q with (inject_Z 0). change 127%Q with (inject_Z 127).
  rewrite <- !Zle_Qle. lia.
Defined.

Lemma iir_from_constant (c : Q) (n : nat) : forall prev,
  prev == c -> Forall (fun s => s == c) (iir_from prev (repeat c n)).
Proof.
  induction n as [|n IH]; intros prev Hp; simpl; constructor.
  - rewrite Hp. ring.
  - apply IH. rewrite Hp. ring.
Qed.

(** A constant block passes the filter unchanged. *)
Theorem iir_constant (c : Q) (n : nat) :
  Forall (fun s => s == c) (iir (repeat c n)).
Proof.
  destruct n as [|n]; simpl; constructor; [reflexivity|].
  apply iir_from_constant. reflexivity.
Qed.

(** ** Acquisition of a clean block *)

Lemma acquire_from_clean (rd : nat -> Z) (n : nat) : forall i prev,
  (forall k, (i <= k < i + n)%nat -> 0 <= rd k <= 4095) ->
  acquire_from rd i prev n = List.map (fun k => of_int (rd k)) (seq i n).
Proof.
  induction n as [|n IH]; intros i prev H; [reflexivity|].
  cbn [acquire_from seq List.map].
  assert (E : corrected i prev (rd i) = of_int (rd i)).
  { unfold corrected. rewrite out_of_range_of_int.
    destruct (H i ltac:(lia)) as [H0 H1].
    replace ((rd i <? 0) || (4095 <? rd i)) with false; [reflexivity|].
    symmetry. apply orb_false_iff. split; apply Z.ltb_ge; assumption. }
  rewrite E. f_equal. apply IH. intros k Hk. apply H. lia.
Qed.

(** When every reading of the block is within the ADC range, the corrected
    block [vReal] is the block as read, so it equals the raw copy
    [vRawData] of [part_000]; both hold 128 samples whatever is read. *)
Theorem acquire_clean_is_raw (rd : nat -> Z) :
  (forall k, (k < SAMPLES)%nat -> 0 <= rd k <= 4095) ->
  acquire rd = raw_copy rd.
Proof.
  intros H. unfold acquire, raw_copy. apply acquire_from_clean.
  intros k Hk. apply H. lia.
Qed.

Lemma acquire_clean_is_raw_witness : acquire square_wave = raw_copy square_wave.
Proof.
  apply (acquire_clean_is_raw square_wave).
  intros k _. unfold square_wave. destruct (Nat.even k); lia.
Defined.

(** Both blocks hold 128 samples whatever is read. *)
Theorem blocks_have_128_samples (rd : nat -> Z) :
  List.length (acquire rd) = 128%nat /\ List.length (raw_copy rd) = 128%nat.
Proof.
  split.
  - unfold acquire. apply acquire_from_length.
  - unfold raw_copy. rewrite length_map, length_seq. reflexivity.
Qed.

(** ** Band aggregation *)

Lemma band_fold_bass (v : list Q) (l : list nat) : forall aR aG aB,
  Forall (fun i => (i < 20)%nat) l ->
  fold_left (band_step v) l (aR, aG, aB)
  = (fold_left (fun acc i => to_int (of_int acc + Arduino.abs (nth i v 0%Q))) l aR,
     aG, aB).
Proof.
  induction l as [|i l IH]; intros aR aG aB H; [reflexivity|].
  inversion H as [|? ? Hi Hl]; subst. cbn [fold_left].
  unfold band_step at 2. apply Nat.ltb_lt in Hi. rewrite Hi.
  apply IH, Hl.
Qed.

Lemma band_fold_mid (v : list Q) (l : list nat) : forall aR aG aB,
  Forall (fun i => (20 <= i < 80)%nat) l ->
  fold_left (band_step v) l (aR, aG, aB)
  = (aR,
     fold_left (fun acc i => to_int (of_int acc + Arduino.abs (nth i v 0%Q))) l aG,
     aB).
Proof.
  induction l as [|i l IH]; intros aR aG aB H; [reflexivity|].
  inversion H as [|? ? Hi Hl]; subst. cbn [fold_left].
  unfold band_step at 2.
  replace (i <? 20)%nat with false by (symmetry; apply Nat.ltb_ge; lia).
  replace (i <? 80)%nat with true by (symmetry; apply Nat.ltb_lt; lia).
  apply IH, Hl.
Qed.

Lemma band_fold_treble (v : list Q) (l : list nat) : forall aR aG aB,
  Forall (fun i => (80 <= i)%nat) l ->
  fold_left (band_step v) l (aR, aG, aB)
  = (aR, aG,
     fold_left (fun acc i => to_int (of_int acc + Arduino.abs (nth i v 0%Q))) l aB).
Proof.
  induction l as [|i l IH]; intros aR aG aB H; [reflexivity|].
  inversion H as [|? ? Hi Hl]; subst. cbn [fold_left].
  unfold band_step at 2.
  replace (i <? 20)%nat with false by (symmetry; apply Nat.ltb_ge; lia).
  replace (i <? 80)%nat with false by (symmetry; apply Nat.ltb_ge; lia).
  apply IH, Hl.
Qed.

Lemma raw_band_fold_bass (v : list Q) (l : list nat) : forall aR aG aB,
  Forall (fun i => (i < 20)%nat) l ->
  fold_left (Part000.raw_band_step v) l (aR, aG, aB)
  = (fold_left (fun acc i => (acc + Arduino.abs (nth i v 0))%Q) l aR, aG, aB).
Proof.
  induction l as [|i l IH]; intros aR aG aB H; [reflexivity|].
  inversion H as [|? ? Hi Hl]; subst. cbn [fold_left].
  unfold Part000.raw_band_step at 2. apply Nat.ltb_lt in Hi. rewrite Hi.
  apply IH, Hl.
Qed.

Lemma raw_band_fold_mid (v : list Q) (l : list nat) : forall aR aG aB,
  Forall (fun i => (20 <= i < 80)%nat) l ->
  fold_left (Part000.raw_band_step v) l (aR, aG, aB)
  = (aR, fold_left (fun acc i => (acc + Arduino.abs (nth i v 0))%Q) l aG, aB).
Proof.
  induction l as [|i l IH]; intros aR aG aB H; [reflexivity|].
  inversion H as [|? ? Hi Hl]; subst. cbn [fold_left].
  unfold Part000.raw_band_step at 2.
  replace (i <? 20)%nat with false by (symmetry; apply Nat.ltb_ge; lia).
  replace (i <? 80)%nat with true by (symmetry; apply Nat.ltb_lt; lia).
  apply IH, Hl.
Qed.

Lemma raw_band_fold_treble (v : list Q) (l : list nat) : forall aR aG aB,
  Forall (fun i => (80 <= i)%nat) l ->
  fold_left (Part000.raw_band_step v) l (aR, aG, aB)
  = (aR, aG, fold_left (fun acc i => (acc + Arduino.abs (nth i v 0))%Q) l aB).
Proof.
  induction l as [|i l IH]; intros aR aG aB H; [reflexivity|].
  inversion H as [|? ? Hi Hl]; subst. cbn [fold_left].
  unfold Part000.raw_band_step at 2.
  replace (i <? 20)%nat with false by (symmetry; apply Nat.ltb_ge; lia).
  replace (i <? 80)%nat with false by (symmetry; apply Nat.ltb_ge; lia).
  apply IH, Hl.
Qed.

Lemma bins_split : seq 0 SAMPLES = seq 0 20 ++ seq 20 60 ++ seq 80 48.
Proof. reflexivity. Qed.

Lemma seq_between (a n : nat) : Forall (fun i => (a <= i < a + n)%nat) (seq a n).
Proof. rewrite Forall_forall. intros i Hi. apply in_seq in Hi. exact Hi. Qed.

Lemma band_amplitudes_runs (v : list Q) :
  band_amplitudes v
  = {| ampR := Z.quot (int_abs_sum v 0 20) 20;
       ampG := Z.quot (int_abs_sum v 20 60) 60;
       ampB := Z.quot (int_abs_sum v 80 48) 48 |}.
Proof.
  unfold band_amplitudes. rewrite bins_split, !fold_left_app.
  rewrite band_fold_bass
    by (eapply Forall_impl; [|apply seq_between]; cbv beta; intros; lia).
  rewrite band_fold_mid
    by (eapply Forall_impl; [|apply seq_between]; cbv beta; intros; lia).
  rewrite band_fold_treble
    by (eapply Forall_impl; [|apply seq_between]; cbv beta; intros; lia).
  unfold int_abs_sum. cbv beta iota. reflexivity.
Qed.

Lemma raw_band_amplitudes_runs (v : list Q) :
  Part000.raw_band_amplitudes v
  = {| Part000.rawAmpR := abs_sum v 0 20 / 20;
       Part000.rawAmpG := abs_sum v 20 60 / 60;
       Part000.rawAmpB := abs_sum v 80 48 / 48 |}.
Proof.
  unfold Part000.raw_band_amplitudes. rewrite bins_split, !fold_left_app.
  rewrite raw_band_fold_bass
    by (eapply Forall_impl; [|apply seq_between]; cbv beta; intros; lia).
  rewrite raw_band_fold_mid
    by (eapply Forall_impl; [|apply seq_between]; cbv beta; intros; lia).
  rewrite raw_band_fold_treble
    by (eapply Forall_impl; [|apply seq_between]; cbv beta; intros; lia).
  unfold abs_sum. cbv beta iota. reflexivity.
Qed.

(** The one loop over the 128 bins sorts them into three disjoint runs that
    cover the spectrum: bins 0..19 go to the bass accumulator only, bins
    20..79 to the mid one, bins 80..127 to the treble one; each band is
    the accumulated magnitude of its run divided by the length of the run
    (20, 60, 48).  This holds for the [int] accumulators of the main path
    and for the [double] accumulators of the raw path of mode 5. *)
Theorem bands_partition_the_bins (v : list Q) :
  band_amplitudes v
  = {| ampR := Z.quot (int_abs_sum v 0 20) 20;
       ampG := Z.quot (int_abs_sum v 20 60) 60;
       ampB := Z.quot (int_abs_sum v 80 48) 48 |}
  /\ Part000.raw_band_amplitudes v
     = {| Part000.rawAmpR := abs_sum v 0 20 / 20;
          Part000.rawAmpG := abs_sum v 20 60 / 60;
          Part000.rawAmpB := abs_sum v 80 48 / 48 |}
  /\ seq 0 SAMPLES = seq 0 20 ++ seq 20 60 ++ seq 80 48.
Proof.
  split; [apply band_amplitudes_runs|].
  split; [apply raw_band_amplitudes_runs|apply bins_split].
Qed.

(** ** The bands are never negative *)

Lemma int_abs_sum_nonneg (v : list Q) (first n : nat) :
  0 <= int_abs_sum v first n.
Proof.
  unfold int_abs_sum.
  assert (G : forall l acc, 0 <= acc ->
            0 <= fold_left (fun acc i =>
                    to_int (of_int acc + Arduino.abs (nth i v 0%Q))) l acc).
  { induction l as [|i l IH]; intros acc Ha; [exact Ha|].
    cbn [fold_left]. apply IH. apply to_int_nonneg.
    assert (A := Qabs_nonneg (nth i v 0%Q)). assert (B := of_int_nonneg acc Ha).
    unfold Arduino.abs. lra. }
  apply G. lia.
Qed.

Lemma scaled_nonneg (a : Z) (e gain : Q) :
  0 <= a -> (0 < e)%Q -> (0 <= gain)%Q ->
  0 <= to_int (round64 (round64 (of_int a / e) * gain)).
Proof.
  intros Ha He Hg. apply to_int_nonneg, round64_nonneg.
  apply Qmult_le_0_compat; [|exact Hg].
  apply round64_nonneg, quotient_nonneg; [apply of_int_nonneg, Ha|exact He].
Qed.

Lemma normalize_nonneg (a : amps) (e : Q) :
  0 <= ampR a -> 0 <= ampG a -> 0 <= ampB a ->
  let a' := value (normalize a e) in
  0 <= ampR a' /\ 0 <= ampG a' /\ 0 <= ampB a'.
Proof.
  intros HR HG HB. cbv zeta. destruct (Qlt_le_dec 0 e) as [H|H].
  - rewrite normalize_positive by exact H. cbn [value fst ampR ampG ampB].
    repeat split; apply scaled_nonneg; try assumption; discriminate.
  - rewrite normalize_skipped by exact H. cbn [value fst]. tauto.
Qed.

Lemma band_amplitudes_nonneg (v : list Q) :
  0 <= ampR (band_amplitudes v) /\ 0 <= ampG (band_amplitudes v)
  /\ 0 <= ampB (band_amplitudes v).
Proof.
  rewrite band_amplitudes_runs. cbn [ampR ampG ampB].
  assert (A := int_abs_sum_nonneg v 0 20).
  assert (B := int_abs_sum_nonneg v 20 60).
  assert (C := int_abs_sum_nonneg v 80 48).
  repeat split; apply Z.quot_pos; lia.
Qed.

Lemma analyse_nonneg {P : Platform} (vReal : list Q) :
  0 <= ampR (bands (value (analyse vReal)))
  /\ 0 <= ampG (bands (value (analyse vReal)))
  /\ 0 <= ampB (bands (value (analyse vReal))).
Proof.
  unfold analyse. cbv zeta.
  set (s := spectrum (iir (remove_dc vReal))).
  rewrite value_bind. cbn [ret value fst bands].
  destruct (band_amplitudes_nonneg s) as (HR & HG & HB).
  apply (normalize_nonneg (band_amplitudes s) (avgEnergy s) HR HG HB).
Qed.

(** Whatever the block and whatever the library returns, the three band
    amplitudes delivered by the analyser are never negative, and neither is
    the [totalAmp] the wash modes derive from them. *)
Theorem analysed_bands_nonneg {P : Platform} (vReal : list Q) :
  let a := bands (value (analyse vReal)) in
  0 <= ampR a /\ 0 <= ampG a /\ 0 <= ampB a /\ 0 <= totalAmp a.
Proof.
  cbv zeta. destruct (analyse_nonneg vReal) as (NR & NG & NB).
  repeat split; try assumption.
  unfold totalAmp. apply Z.quot_pos; lia.
Qed.
(** ** How large the analysed bands can be *)

Lemma square_nonneg (x : Q) : (0 <= x * x)%Q.
Proof.
  destruct (Qlt_le_dec x 0) as [N|N].
  - setoid_replace (x * x)%Q with ((- x) * (- x))%Q by ring.
    apply Qmult_le_0_compat; lra.
  - apply Qmult_le_0_compat; exact N.
Qed.

Lemma square_zero (x : Q) : (x * x <= 0)%Q -> x == 0.
Proof.
  intros H. destruct (Qeq_dec x 0) as [E|E]; [exact E|exfalso].
  assert (P : (0 < x * x)%Q).
  { destruct (Qlt_le_dec x 0) as [N|N].
    - setoid_replace (x * x)%Q with ((- x) * (- x))%Q by ring.
      apply Qmult_lt_0_compat; lra.
    - apply Qmult_lt_0_compat; apply Qle_lteq in N; destruct N as [N|N];
        try exact N; exfalso; apply E; symmetry; exact N. }
  lra.
Qed.

Lemma square_monotone (x y : Q) : (0 <= x)%Q -> (x <= y)%Q -> (x * x <= y * y)%Q.
Proof.
  intros Hx Hxy. apply Qle_trans with (x * y)%Q.
  - rewrite (Qmult_comm x y). apply Qmult_le_compat_r; assumption.
  - apply Qmult_le_compat_r; lra.
Qed.

Lemma abs_square (x : Q) : (Qabs x * Qabs x == x * x)%Q.
Proof.
  apply Qabs_case; intros _; ring.
Qed.

(** One more term in the inequality of Cauchy and Schwarz. *)
Lemma cauchy_step (a b m t : Q) :
  (0 <= a)%Q -> (0 <= b)%Q -> (0 <= t)%Q -> (m == 0 \/ 1 <= m)%Q ->
  (a * a <= m * b)%Q ->
  ((a + t) * (a + t) <= (m + 1) * (b + t * t))%Q.
Proof.
  intros Ha Hb Ht Hm H. destruct Hm as [Hm|Hm].
  - rewrite Hm in *. assert (A : (a * a <= 0)%Q) by lra.
    apply square_zero in A. rewrite A. lra.
  - pose proof (square_nonneg (a - m * t)) as K.
    assert (K2 : ((m + 1) * (a * a) <= (m + 1) * (m * b))%Q)
      by (apply Qmult_le_l; lra).
    apply (Qmult_le_l _ _ m); [lra|].
    setoid_replace (m * ((a + t) * (a + t)))%Q
      with (m * (a * a) + (a * a + m * m * (t * t) - (a - m * t) * (a - m * t))
            + m * (t * t))%Q by ring.
    setoid_replace (m * ((m + 1) * (b + t * t)))%Q
      with ((m + 1) * (m * b) + m * m * (t * t) + m * (t * t))%Q by ring.
    setoid_replace ((m + 1) * (a * a))%Q with (m * (a * a) + a * a)%Q in K2 by ring.
    lra.
Qed.

Lemma root_bound (a e c k : Q) :
  (0 < e)%Q -> (0 <= k)%Q -> (c <= k * k)%Q -> (a * a <= c * (e * e))%Q ->
  (a <= k * e)%Q.
Proof.
  intros He Hk Hc H. apply Qnot_lt_le. intros L.
  assert (Hke : (0 <= k * e)%Q) by (apply Qmult_le_0_compat; lra).
  assert (P : ((k * e) * (k * e) < a * a)%Q).
  { apply Qle_lt_trans with (a * (k * e))%Q.
    - apply Qmult_le_compat_r; lra.
    - apply Qmult_lt_l; lra. }
  assert (E2 : (0 <= e * e)%Q) by apply square_nonneg.
  assert (Q1 : (c * (e * e) <= k * k * (e * e))%Q)
    by (apply Qmult_le_compat_r; assumption).
  setoid_replace (k * e * (k * e))%Q with (k * k * (e * e))%Q in P by ring.
  lra.
Qed.

Lemma of_nat_count (m : nat) :
  (inject_Z (Z.of_nat m) == 0 \/ 1 <= inject_Z (Z.of_nat m))%Q.
Proof.
  destruct m as [|m]; [left; reflexivity|right].
  change 1%Q with (inject_Z 1). rewrite <- Zle_Qle. lia.
Qed.

(** The square of a sum of magnitudes is at most the number of terms times
    the sum of the squares. *)
Lemma abs_sum_square (v : list Q) (first n : nat) :
  (0 <= abs_sum v first n)%Q /\ (0 <= sq_sum v first n)%Q
  /\ (abs_sum v first n * abs_sum v first n
      <= inject_Z (Z.of_nat n) * sq_sum v first n)%Q.
Proof.
  unfold abs_sum, sq_sum.
  assert (G : forall l (m : nat) a b,
    (0 <= a)%Q -> (0 <= b)%Q -> (a * a <= inject_Z (Z.of_nat m) * b)%Q ->
    let sa := fold_left (fun acc i => (acc + Arduino.abs (nth i v 0))%Q) l a in
    let sb := fold_left (fun acc i => (acc + nth i v 0 * nth i v 0)%Q) l b in
    (0 <= sa)%Q /\ (0 <= sb)%Q
    /\ (sa * sa <= inject_Z (Z.of_nat (m + length l)) * sb)%Q).
  { induction l as [|i l IH]; intros m a b Ha Hb H; cbn [fold_left length].
    - rewrite Nat.add_0_r. tauto.
    - replace (m + S (length l))%nat with (S m + length l)%nat by lia.
      pose proof (Qabs_nonneg (nth i v 0%Q)) as Ht.
      apply IH.
      + unfold Arduino.abs. lra.
      + pose proof (square_nonneg (nth i v 0%Q)). lra.
      + rewrite Nat2Z.inj_succ. unfold Z.succ. rewrite inject_Z_plus.
        change (inject_Z 1) with 1%Q.
        setoid_replace (nth i v 0%Q * nth i v 0%Q)%Q
          with (Arduino.abs (nth i v 0%Q) * Arduino.abs (nth i v 0%Q))%Q
          by (symmetry; apply abs_square).
        apply cauchy_step; try assumption. apply of_nat_count. }
  specialize (G (seq first n) 0%nat 0%Q 0%Q (Qle_refl 0) (Qle_refl 0)).
  rewrite length_seq in G. apply G. discriminate.
Qed.

(** The [int] accumulators lose at every step. *)
Lemma int_abs_sum_below (v : list Q) (first n : nat) :
  (of_int (int_abs_sum v first n) <= abs_sum v first n)%Q.
Proof.
  unfold int_abs_sum, abs_sum.
  assert (G : forall l z a, 0 <= z -> (of_int z <= a)%Q ->
    (of_int (fold_left (fun acc i => to_int (of_int acc + Arduino.abs (nth i v 0%Q))) l z)
     <= fold_left (fun acc i => (acc + Arduino.abs (nth i v 0))%Q) l a)%Q).
  { induction l as [|i l IH]; intros z a Hz H; cbn [fold_left]; [exact H|].
    pose proof (Qabs_nonneg (nth i v 0%Q)) as Ht.
    pose proof (of_int_nonneg z Hz) as Hz'.
    assert (N : (0 <= of_int z + Arduino.abs (nth i v 0))%Q)
      by (unfold Arduino.abs; lra).
    apply IH; [apply to_int_nonneg, N|].
    destruct (to_int_floor _ N) as [F _]. lra. }
  apply G; [lia|apply Qle_refl].
Qed.

Lemma sq_fold_acc (v : list Q) (l : list nat) (b : Q) :
  (fold_left (fun acc i => (acc + nth i v 0 * nth i v 0)%Q) l b
   == b + fold_left (fun acc i => (acc + nth i v 0 * nth i v 0)%Q) l 0)%Q.
Proof.
  revert b. induction l as [|i l IH]; intros b; cbn [fold_left]; [ring|].
  rewrite IH, (IH (0 + _)%Q). ring.
Qed.

Lemma totalEnergy_runs (v : list Q) :
  (totalEnergy v == sq_sum v 0 20 + sq_sum v 20 60 + sq_sum v 80 48)%Q.
Proof.
  unfold totalEnergy, sq_sum. rewrite bins_split, !fold_left_app.
  rewrite sq_fold_acc. rewrite (sq_fold_acc v (seq 20 60)). ring.
Qed.

Lemma quot_below (s k : Z) :
  0 <= s -> 0 < k -> (of_int (Z.quot s k) * of_int k <= of_int s)%Q.
Proof.
  intros Hs Hk. unfold of_int. rewrite <- inject_Z_mult, <- Zle_Qle.
  rewrite Z.quot_div_nonneg by lia.
  pose proof (Z.mul_div_le s k Hk). lia.
Qed.

Lemma mean_square (z k : Z) (S T : Q) :
  0 <= z -> 0 < k -> (of_int z <= S)%Q -> (S * S <= of_int k * T)%Q ->
  (of_int k * (of_int (Z.quot z k) * of_int (Z.quot z k)) <= T)%Q.
Proof.
  intros Z0 Kz Z1 CS.
  assert (A0 : (0 <= of_int (Z.quot z k))%Q) by (apply of_int_nonneg, Z.quot_pos; lia).
  assert (Q1 : (of_int (Z.quot z k) * of_int k <= of_int z)%Q)
    by (apply quot_below; assumption).
  assert (K0 : (0 < of_int k)%Q).
  { unfold of_int. change 0%Q with (inject_Z 0). rewrite <- Zlt_Qlt. exact Kz. }
  revert A0 Q1 K0 CS. generalize (of_int (Z.quot z k)) (of_int k).
  intros A kq A0 Q1 K0 CS.
  assert (M : ((A * kq) * (A * kq) <= S * S)%Q).
  { apply square_monotone; [|lra]. apply Qmult_le_0_compat; lra. }
  apply (Qmult_le_l _ _ kq); [exact K0|].
  setoid_replace (kq * (kq * (A * A)))%Q with (A * kq * (A * kq))%Q by ring.
  lra.
Qed.

(** A band amplitude before normalisation: the number of its bins times
    its square is at most the energy of its bins. *)
Lemma band_mean_square (v : list Q) (first n : nat) (k : Z) :
  k = Z.of_nat n -> 0 < k ->
  (of_int k * (of_int (Z.quot (int_abs_sum v first n) k)
               * of_int (Z.quot (int_abs_sum v first n) k))
   <= sq_sum v first n)%Q.
Proof.
  intros Ek Kz.
  destruct (abs_sum_square v first n) as (_ & _ & CS).
  rewrite <- Ek in CS.
  apply (mean_square _ k (abs_sum v first n));
    [apply int_abs_sum_nonneg|exact Kz|apply int_abs_sum_below|exact CS].
Qed.

Lemma of_int_zero (z : Z) : of_int z == 0 -> z = 0.
Proof. unfold of_int, inject_Z, Qeq. simpl. lia. Qed.

(** A band whose square is at most [c] times that of the energy estimate,
    rescaled by [gain]: the [int] stored is at most [bound]. *)
Lemma rescaled_below (A bound : Z) (e c k gain : Q) :
  0 <= A -> (0 < e)%Q -> (0 <= k)%Q -> (0 <= gain)%Q ->
  (c <= k * k)%Q ->
  (k * gain * (1 + 3 * unit_roundoff) < of_int (bound + 1))%Q ->
  (of_int A * of_int A <= c * (e * e))%Q ->
  to_int (round64 (round64 (of_int A / e) * gain)) <= bound.
Proof.
  intros HA He Hk Hg Hc Hb H.
  pose proof (root_bound _ _ _ _ He Hk Hc H) as R.
  assert (Q1 : (of_int A / e <= k)%Q) by (apply Qle_shift_div_r; assumption).
  assert (X : (of_int A / e * gain <= k * gain)%Q)
    by (apply Qmult_le_compat_r; assumption).
  destruct (rescaled_close (of_int A) e gain (of_int_nonneg A HA) He Hg) as [_ U].
  set (z := to_int (round64 (round64 (of_int A / e) * gain))) in *.
  assert (Y : (of_int A / e * gain * (1 + 3 * unit_roundoff)
               <= k * gain * (1 + 3 * unit_roundoff))%Q)
    by (apply Qmult_le_compat_r; [exact X|discriminate]).
  assert (L : (of_int z < of_int (bound + 1))%Q) by lra.
  unfold of_int in L. rewrite <- Zlt_Qlt in L. lia.
Qed.

Section Bounds.
Context {P : Platform}.
Hypothesis root : sqrt_not_small P.

Lemma energy_bounds (v : list Q) :
  (0 <= totalEnergy v)%Q /\ (0 <= avgEnergy v)%Q
  /\ (totalEnergy v <= 512 * (avgEnergy v * avgEnergy v))%Q.
Proof.
  assert (T0 : (0 <= totalEnergy v)%Q).
  { rewrite totalEnergy_runs.
    destruct (abs_sum_square v 0 20) as (_ & A & _).
    destruct (abs_sum_square v 20 60) as (_ & B & _).
    destruct (abs_sum_square v 80 48) as (_ & C & _). lra. }
  split; [exact T0|]. unfold avgEnergy.
  assert (D : (0 <= totalEnergy v / of_int (Z.of_nat SAMPLES))%Q)
    by (apply Qle_shift_div_l; [reflexivity|lra]).
  destruct (root _ D) as [R0 R1]. split; [exact R0|].
  set (r := sqrt (totalEnergy v / of_int (Z.of_nat SAMPLES))%Q) in *.
  assert (E : (totalEnergy v / of_int (Z.of_nat SAMPLES) * 128 == totalEnergy v)%Q).
  { change (of_int (Z.of_nat SAMPLES)) with 128%Q. field. }
  lra.
Qed.

(** The bins of a band hold at most the whole energy. *)
Lemma band_squares_below (v : list Q) :
  (20 * (of_int (ampR (band_amplitudes v)) * of_int (ampR (band_amplitudes v)))
   <= 512 * (avgEnergy v * avgEnergy v))%Q
  /\ (60 * (of_int (ampG (band_amplitudes v)) * of_int (ampG (band_amplitudes v)))
      <= 512 * (avgEnergy v * avgEnergy v))%Q
  /\ (48 * (of_int (ampB (band_amplitudes v)) * of_int (ampB (band_amplitudes v)))
      <= 512 * (avgEnergy v * avgEnergy v))%Q.
Proof.
  destruct (energy_bounds v) as (_ & _ & E).
  destruct (abs_sum_square v 0 20) as (_ & S1 & _).
  destruct (abs_sum_square v 20 60) as (_ & S2 & _).
  destruct (abs_sum_square v 80 48) as (_ & S3 & _).
  pose proof (totalEnergy_runs v) as T.
  pose proof (band_mean_square v 0 20 20 eq_refl eq_refl) as BR.
  pose proof (band_mean_square v 20 60 60 eq_refl eq_refl) as BG.
  pose proof (band_mean_square v 80 48 48 eq_refl eq_refl) as BB.
  rewrite band_amplitudes_runs. cbn [ampR ampG ampB].
  change (of_int 20) with 20%Q in BR. change (of_int 60) with 60%Q in BG.
  change (of_int 48) with 48%Q in BB.
  generalize dependent (totalEnergy v). intros TE E T.
  generalize dependent (avgEnergy v). intros e E.
  split; [|split]; lra.
Qed.

(** The normalisation of bands that small. *)
Lemma normalize_bounded (a : amps) (e : Q) :
  0 <= ampR a -> 0 <= ampG a -> 0 <= ampB a -> (0 <= e)%Q ->
  (20 * (of_int (ampR a) * of_int (ampR a)) <= 512 * (e * e))%Q ->
  (60 * (of_int (ampG a) * of_int (ampG a)) <= 512 * (e * e))%Q ->
  (48 * (of_int (ampB a) * of_int (ampB a)) <= 512 * (e * e))%Q ->
  ampR (value (normalize a e)) <= 759
  /\ ampG (value (normalize a e)) <= 292
  /\ ampB (value (normalize a e)) <= 489.
Proof.
  intros HR HG HB E0 BR BG BB.
  destruct (Qlt_le_dec 0 e) as [He|He].
  - rewrite normalize_positive by exact He. cbn [value fst ampR ampG ampB].
    split; [|split].
    + apply (rescaled_below (ampR a) 759 e (128 # 5) (506 # 100) 150);
        [assumption|assumption|discriminate|discriminate|discriminate|reflexivity|lra].
    + apply (rescaled_below (ampG a) 292 e (128 # 15) (2922 # 1000) 100);
        [assumption|assumption|discriminate|discriminate|discriminate|reflexivity|lra].
    + apply (rescaled_below (ampB a) 489 e (32 # 3) (3266 # 1000) 150);
        [assumption|assumption|discriminate|discriminate|discriminate|reflexivity|lra].
  - rewrite normalize_skipped by exact He. cbn [value fst].
    assert (Z0 : e * e == 0).
    { assert (Ee : e == 0) by lra. rewrite Ee. reflexivity. }
    assert (ZR : of_int (ampR a) == 0) by (apply square_zero; lra).
    assert (ZG : of_int (ampG a) == 0) by (apply square_zero; lra).
    assert (ZB : of_int (ampB a) == 0) by (apply square_zero; lra).
    apply of_int_zero in ZR, ZG, ZB. lia.
Qed.

Lemma analysed_bands_bounded (v : list Q) :
  let a := bands (value (analyse v)) in
  0 <= ampR a <= 759 /\ 0 <= ampG a <= 292 /\ 0 <= ampB a <= 489.
Proof.
  cbv zeta. destruct (analyse_nonneg v) as (NR & NG & NB).
  enough (U : ampR (bands (value (analyse v))) <= 759
              /\ ampG (bands (value (analyse v))) <= 292
              /\ ampB (bands (value (analyse v))) <= 489) by lia.
  clear NR NG NB. unfold analyse. cbv zeta.
  rewrite value_bind. cbn [ret value fst bands].
  destruct (energy_bounds (spectrum (iir (remove_dc v)))) as (_ & E0 & _).
  destruct (band_squares_below (spectrum (iir (remove_dc v)))) as (BR & BG & BB).
  destruct (band_amplitudes_nonneg (spectrum (iir (remove_dc v)))) as (HR & HG & HB).
  apply normalize_bounded; assumption.
Qed.

(** With no energy there is nothing in the bands: the branch that skips the
    normalisation leaves zeros. *)
Lemma zero_energy_zero_bands (v : list Q) :
  (avgEnergy v <= 0)%Q -> band_amplitudes v = amps_of 0.
Proof.
  intros He. destruct (band_squares_below v) as (BR & BG & BB).
  destruct (energy_bounds v) as (_ & E0 & _).
  revert He E0 BR BG BB. generalize (avgEnergy v). intros e He E0.
  assert (Z0 : e * e == 0).
  { assert (Ee : e == 0) by lra. rewrite Ee. reflexivity. }
  rewrite Z0. destruct (band_amplitudes v) as [r g b]. cbn [ampR ampG ampB].
  intros BR BG BB.
  assert (ZR : of_int r == 0) by (apply square_zero; lra).
  assert (ZG : of_int g == 0) by (apply square_zero; lra).
  assert (ZB : of_int b == 0) by (apply square_zero; lra).
  apply of_int_zero in ZR, ZG, ZB. subst. reflexivity.
Qed.

End Bounds.

(** ** The brightness wash on the analysed bands *)

Lemma sqrt_up_not_small : sqrt_not_small bench_platform_up.
Proof.
  intros q Hq. cbn [sqrt bench_platform_up]. unfold sqrt_up.
  destruct q as [n d]. cbn [Qnum Qden].
  assert (Hn : 0 <= n) by (unfold Qle in Hq; simpl in Hq; lia).
  pose proof (Z.sqrt_up_nonneg (n * Zpos d)) as S0.
  assert (S1 : n * Zpos d <= Z.sqrt_up (n * Zpos d) * Z.sqrt_up (n * Zpos d)).
  { destruct (Z.eq_dec (n * Zpos d) 0) as [E|E]; [rewrite E; reflexivity|].
    assert (Pn : 0 < n * Zpos d) by lia.
    destruct (Z.sqrt_up_spec _ Pn) as [_ U]. exact U. }
  revert S0 S1. generalize (Z.sqrt_up (n * Zpos d)). intros s S0 S1.
  split.
  - unfold Qle. simpl. lia.
  - unfold Qle, Qmult. cbn [Qnum Qden]. rewrite !Pos2Z.inj_mul.
    assert (D : 0 < Zpos d) by reflexivity.
    revert D S1. generalize (Zpos d). intros z D S1.
    change (Qnum 4) with 4.
    assert (M : n * z * z <= s * s * z) by (apply Z.mul_le_mono_nonneg_r; lia).
    assert (N : 0 <= s * s * z) by nia.
    lia.
Qed.



(** Whatever the block, with a square root that is not below half the
    root, the analysed bands stay small: the bass is at most 759, the mid
    at most 292, the treble at most 489, each being a mean magnitude of its
    bins rescaled by the root mean square of all the bins.  The energy
    estimate is not negative, and when it is zero the bands are zero: the
    branch that skips the normalisation never hands raw amplitudes on. *)
Theorem analysed_bands_stay_small {P : Platform} (rd : nat -> Z) :
  sqrt_not_small P ->
  let an := value (analyse (acquire rd)) in
  0 <= ampR (bands an) <= 759
  /\ 0 <= ampG (bands an) <= 292
  /\ 0 <= ampB (bands an) <= 489
  /\ (0 <= energy an)%Q
  /\ (energy an == 0 -> bands an = amps_of 0 /\ log (analyse (acquire rd)) = []).
Proof.
  intros root an.
  pose proof (analysed_bands_bounded root (acquire rd)) as B.
  cbv zeta in B. fold an in B. destruct B as (HR & HG & HB).
  split; [exact HR|]. split; [exact HG|]. split; [exact HB|].
  unfold an, analyse. cbv zeta. rewrite value_bind, log_bind.
  cbn [ret value log fst snd bands energy]. rewrite app_nil_r.
  destruct (energy_bounds root (spectrum (iir (remove_dc (acquire rd)))))
    as (_ & E0 & _).
  split; [exact E0|]. intros Z0.
  rewrite normalize_skipped by (rewrite Z0; apply Qle_refl).
  cbn [fst snd]. split; [|reflexivity].
  apply (zero_energy_zero_bands root). rewrite Z0. apply Qle_refl.
Qed.

Lemma analysed_bands_stay_small_witness :
  ampR (bands (value (analyse (P := bench_platform_up) (acquire glitchy)))) <= 759
  /\ (0 <= energy (value (analyse (P := bench_platform_up) (acquire glitchy))))%Q.
Proof.
  destruct (analysed_bands_stay_small (P := bench_platform_up) glitchy
              sqrt_up_not_small) as (A & _ & _ & E & _).
  split; [apply A|exact E].
Defined.

(** ** Where a pass can divide by zero *)

Lemma normalize_log_nonzero (a : amps) (e : Q) :
  Forall (fun ev => ~ divides_by_zero ev) (log (normalize a e)).
Proof.
  destruct (Qlt_le_dec 0 e) as [H|H].
  - rewrite normalize_positive by exact H. apply three_divisions_nonzero, H.
  - rewrite normalize_skipped by exact H. constructor.
Qed.

Lemma normalize_raw_log_nonzero (a : Part000.raw_amps) (e : Q) :
  Forall (fun ev => ~ divides_by_zero ev) (log (Part000.normalize_raw a e)).
Proof.
  destruct (Qlt_le_dec 0 e) as [H|H].
  - rewrite normalize_raw_positive by exact H. apply three_divisions_nonzero, H.
  - rewrite normalize_raw_skipped by exact H. constructor.
Qed.

Lemma analyse_log_nonzero {P : Platform} (v : list Q) :
  Forall (fun ev => ~ divides_by_zero ev) (log (analyse v)).
Proof.
  unfold analyse. cbv zeta. rewrite log_bind. cbn [ret log snd].
  rewrite app_nil_r. apply normalize_log_nonzero.
Qed.

Lemma dual_path_log_nonzero {P : Platform} (raw : list Q) (a : amps) :
  Forall (fun ev => ~ divides_by_zero ev) (log (Part000.dual_path raw a)).
Proof.
  unfold Part000.dual_path. cbv zeta. rewrite log_bind. cbn [ret log snd].
  rewrite app_nil_r. apply normalize_raw_log_nonzero.
Qed.

Lemma part000_render_log {P : Platform} st inp raw a t e :
  Part000.mode inp <> 2 ->
  Forall (fun ev => ~ divides_by_zero ev)
         (log (Part000.render st inp raw a t e)).
Proof.
  intros H. unfold Part000.render.
  destruct (Z.eqb_spec (Part000.mode inp) 1); [constructor|].
  destruct (Z.eqb_spec (Part000.mode inp) 2); [contradiction|].
  destruct (Z.eqb_spec (Part000.mode inp) 3); [constructor|].
  destruct (Z.eqb_spec (Part000.mode inp) 4); [constructor|].
  destruct (Z.eqb_spec (Part000.mode inp) 5).
  - rewrite log_bind. cbn [ret log snd]. rewrite app_nil_r.
    apply dual_path_log_nonzero.
  - destruct (Z.eqb_spec (Part000.mode inp) 6); [constructor|].
    destruct (Z.eqb_spec (Part000.mode inp) 7); constructor.
Qed.

(** The divisor [count + 1] of the moving average is at least 1 in every
    state reached from the start. *)
Lemma main_count_divisor {P : Platform} (inputs : list Main.input) :
  1 <= count (Main.avg (main_run Main.state_init inputs)) + 1 <= 51.
Proof.
  rewrite main_run_count by (cbn; lia). cbn [Main.state_init Main.avg].
  change (count smoothed_init) with 0. lia.
Qed.

Lemma part000_count_divisor {P : Platform} (t0 : Z) (inputs : list Part000.input) :
  1 <= count (Part000.avg (part000_run (Part000.state_init t0) inputs)) + 1 <= 51.
Proof.
  rewrite part000_run_count by (cbn; lia). cbn [Part000.state_init Part000.avg].
  change (count smoothed_init) with 0. lia.
Qed.

Lemma of_int_nonzero (z : Z) : 1 <= z -> ~ of_int z == 0.
Proof.
  intros H E. unfold of_int, inject_Z, Qeq in E. simpl in E. lia.
Qed.

(** No pass of the sketch of [main.cpp] divides by a zero energy estimate,
    whatever the state, the readings, the mode and the library: its only
    divisions by [avgEnergy] are the three guarded by [avgEnergy > 0].  The
    other divisor of a pass that is not a constant of the source,
    [count + 1] in the moving average, lies in 1..51 in every state reached
    from the start, so the three averages do not divide by zero either. *)
Theorem main_pass_never_divides_by_zero {P : Platform} :
  (forall (st : Main.state) (inp : Main.input),
      Forall (fun ev => ~ divides_by_zero ev) (log (Main.lightMusicTask st inp)))
  /\ (forall (inputs : list Main.input),
        let st := main_run Main.state_init inputs in
        1 <= count (Main.avg st) + 1 <= 51
        /\ ~ of_int (count (Main.avg st) + 1) == 0).
Proof.
  split.
  - intros st inp. rewrite main_pass_log. apply analyse_log_nonzero.
  - intros inputs st. pose proof (main_count_divisor inputs) as C. fold st in C.
    split; [exact C|]. apply of_int_nonzero. lia.
Qed.

(** A pass of [part_000] divides by a zero energy estimate exactly when it
    runs mode 2 on a block whose energy estimate is zero: every other
    division by an energy estimate, the ones of the second analysis of mode
    5 included, is guarded.  The divisor [count + 1] of the moving average
    lies in 1..51 in every state reached from the start. *)
Theorem part000_pass_divides_by_zero_iff {P : Platform} :
  (forall (st : Part000.state) (inp : Part000.input),
      Exists divides_by_zero (log (Part000.lightMusicTask st inp))
      <-> Part000.mode inp = 2
          /\ energy (value (analyse (acquire (Part000.analogRead inp)))) == 0)
  /\ (forall (t0 : Z) (inputs : list Part000.input),
        let st := part000_run (Part000.state_init t0) inputs in
        1 <= count (Part000.avg st) + 1 <= 51
        /\ ~ of_int (count (Part000.avg st) + 1) == 0).
Proof.
  split.
  - intros st inp. split.
    + intros E. destruct (Z.eq_dec (Part000.mode inp) 2) as [Hm|Hm].
      * split; [exact Hm|].
        rewrite part000_mode2_log in E by exact Hm.
        apply Exists_app in E. destruct E as [E|E].
        -- exfalso. revert E. apply Forall_Exists_neg, analyse_log_nonzero.
        -- inversion E as [? ? D|? ? D]; [exact D|inversion D].
      * exfalso. rewrite part000_pass_log in E.
        apply Exists_app in E. destruct E as [E|E]; revert E;
          apply Forall_Exists_neg;
          [apply analyse_log_nonzero|apply part000_render_log, Hm].
    + intros [Hm He]. rewrite part000_mode2_log by exact Hm.
      apply Exists_app. right. constructor. exact He.
  - intros t0 inputs st. pose proof (part000_count_divisor t0 inputs) as C.
    fold st in C. split; [exact C|]. apply of_int_nonzero. lia.
Qed.

(** ** The moving average as a weighted mean *)

Lemma of_int_succ_pos (k : Z) : 0 <= k -> (0 < of_int (k + 1))%Q.
Proof.
  intros H. unfold of_int. change 0%Q with (inject_Z 0).
  rewrite <- Zlt_Qlt. lia.
Qed.

Lemma average_between (lo hi avg : Q) (k new : Z) :
  0 <= k -> (lo <= avg <= hi)%Q -> (lo <= of_int new <= hi)%Q ->
  (lo <= average avg k new <= hi)%Q.
Proof.
  intros Hk [A0 A1] [N0 N1]. unfold average.
  assert (K := of_int_nonneg k Hk).
  assert (K1 := of_int_succ_pos k Hk).
  assert (E : of_int (k + 1) == of_int k + 1).
  { unfold of_int. rewrite inject_Z_plus. reflexivity. }
  split.
  - apply Qle_shift_div_l; [exact K1|]. rewrite E.
    assert (M : (lo * of_int k <= avg * of_int k)%Q)
      by (apply Qmult_le_compat_r; assumption).
    lra.
  - apply Qle_shift_div_r; [exact K1|]. rewrite E.
    assert (M : (avg * of_int k <= hi * of_int k)%Q)
      by (apply Qmult_le_compat_r; assumption).
    lra.
Qed.

Lemma smooth_between (lo hi : Q) (s : smoothed) (a : amps) :
  0 <= count s -> smoothed_between lo hi s -> amp_between lo hi a ->
  smoothed_between lo hi (smooth s a) /\ 0 <= count (smooth s a).
Proof.
  intros Hc (SR & SG & SB) (AR & AG & AB). split.
  - unfold smooth, smoothed_between; cbn [avgAmpR avgAmpG avgAmpB].
    split; [|split]; apply average_between; assumption.
  - unfold smooth; cbn [count]. rewrite saturate_min. lia.
Qed.

Lemma smooth_run_between (lo hi : Q) (inputs : list amps) : forall s,
  0 <= count s -> smoothed_between lo hi s ->
  Forall (amp_between lo hi) inputs ->
  smoothed_between lo hi (fold_left smooth inputs s).
Proof.
  induction inputs as [|a l IH]; intros s Hc Hs H; [exact Hs|].
  inversion H as [|? ? Ha Hl]; subst. cbn [fold_left].
  destruct (smooth_between lo hi s a Hc Hs Ha) as [S1 C1].
  apply IH; assumption.
Qed.

(** The smoothed amplitudes are weighted means of what was fed: if every
    amplitude fed since the start lies in [0, B], so does each smoothed
    value, after any number of passes, before and after the count
    saturates. *)
Theorem smoothed_stays_in_range (B : Q) (inputs : list amps) :
  (0 <= B)%Q ->
  Forall (amp_between 0 B) inputs ->
  smoothed_between 0 B (fold_left smooth inputs smoothed_init).
Proof.
  intros HB H. apply smooth_run_between; [simpl; lia| |exact H].
  unfold smoothed_between, smoothed_init; cbn [avgAmpR avgAmpG avgAmpB].
  split; [|split]; (split; [apply Qle_refl|exact HB]).
Qed.

Lemma smoothed_stays_in_range_witness :
  smoothed_between 0 600
    (fold_left smooth [amps_of 100; amps_of 600; amps_of 0] smoothed_init).
Proof.
  apply (smoothed_stays_in_range 600 [amps_of 100; amps_of 600; amps_of 0]).
  - discriminate.
  - repeat (constructor; [unfold amp_between; cbn; repeat split; discriminate|]).
    constructor.
Defined.

(** Once the count has saturated at 50 each pass moves the smoothed value
    one fifty-first of the way to the new amplitude: the distance to a
    constant input shrinks by the factor 50/51, and the count stays at
    50. *)
Theorem saturated_smoother_contracts (s : smoothed) (a : amps) :
  count s = 50 ->
  avgAmpR (smooth s a) - of_int (ampR a)
    == (50 # 51) * (avgAmpR s - of_int (ampR a))
  /\ avgAmpG (smooth s a) - of_int (ampG a)
     == (50 # 51) * (avgAmpG s - of_int (ampG a))
  /\ avgAmpB (smooth s a) - of_int (ampB a)
     == (50 # 51) * (avgAmpB s - of_int (ampB a))
  /\ count (smooth s a) = 50.
Proof.
  intros H. unfold smooth, average; cbn [avgAmpR avgAmpG avgAmpB count].
  rewrite H. change (of_int 50) with 50%Q. change (of_int (50 + 1)) with 51%Q.
  split; [field|]. split; [field|]. split; [field|reflexivity].
Qed.

Lemma saturated_smoother_contracts_witness :
  avgAmpR (smooth {| avgAmpR := 102; avgAmpG := 0; avgAmpB := 0; count := 50 |}
                  (amps_of 0))
  - of_int 0 == (50 # 51) * (102 - of_int 0).
Proof.
  apply (saturated_smoother_contracts
           {| avgAmpR := 102; avgAmpG := 0; avgAmpB := 0; count := 50 |}
           (amps_of 0)).
  reflexivity.
Defined.

(** From the initial state the smoothed value equals the input after the
    very first pass, and on a constant input it stays there for any number
    of passes, below or beyond the saturation of the count. *)
Theorem smoother_tracks_constant_input (a : amps) (n : nat) :
  (0 < n)%nat ->
  let s := fold_left smooth (repeat a n) smoothed_init in
  avgAmpR s == of_int (ampR a) /\ avgAmpG s == of_int (ampG a)
  /\ avgAmpB s == of_int (ampB a)
  /\ count s = Z.min (Z.of_nat n) 50.
Proof.
  intros Hn s.
  assert (C0 : count smoothed_init = 0) by reflexivity.
  destruct (smooth_constant a n smoothed_init) as (HR & HG & HB);
    [lia|left; exact C0|exact Hn|].
  fold s in HR, HG, HB.
  split; [exact HR|]. split; [exact HG|]. split; [exact HB|].
  unfold s. rewrite smooth_count_run by lia.
  rewrite C0, repeat_length. reflexivity.
Qed.

Lemma smoother_tracks_constant_input_witness :
  avgAmpR (fold_left smooth (repeat (amps_of 7) 1) smoothed_init) == of_int 7
  /\ count (fold_left smooth (repeat (amps_of 7) 120) smoothed_init) = 50.
Proof.
  assert (L1 : (0 < 1)%nat) by lia.
  assert (L2 : (0 < 120)%nat) by lia.
  destruct (smoother_tracks_constant_input (amps_of 7) 1 L1) as (H1 & _).
  destruct (smoother_tracks_constant_input (amps_of 7) 120 L2) as (_ & _ & _ & H2).
  split; [exact H1|exact H2].
Defined.

(** ** The energy bar, bucket by bucket *)

Lemma Qleb_gt (x y : Q) : Qleb x y = false -> (y < x)%Q.
Proof.
  unfold Qleb. intros H. apply Qnot_le_lt. intros L.
  apply Qle_bool_iff in L. congruence.
Qed.

Ltac energy_tests e :=
  repeat match goal with
         | |- context [Qleb e ?c] =>
             let T := fresh "T" in
             destruct (Qleb e c) eqn:T;
             [apply Qleb_le in T | apply Qleb_gt in T]
         end.

Lemma energy_bar_bucket (e : Q) (k : Z) :
  0 <= k < 16 ->
  (energy_grid k < e <= energy_grid (k + 1))%Q ->
  lit (energy_frame e) = Z.to_nat (k + 1).
Proof.
  intros Hk He.
  assert (C : k = 0 \/ k = 1 \/ k = 2 \/ k = 3 \/ k = 4 \/ k = 5 \/ k = 6
              \/ k = 7 \/ k = 8 \/ k = 9 \/ k = 10 \/ k = 11 \/ k = 12
              \/ k = 13 \/ k = 14 \/ k = 15) by lia.
  unfold energy_grid, of_int, inject_Z in He.
  repeat (destruct C as [-> | C];
          [ cbn in He; unfold energy_frame, Part000.energy_bar;
            energy_tests e; first [reflexivity | exfalso; lra] | ]).
  subst k. cbn in He. unfold energy_frame, Part000.energy_bar.
  energy_tests e; first [reflexivity | exfalso; lra].
Qed.

(** The bar lights one LED up to 250, one more for every further step of
    250 up to 4000, where all 16 are lit; above 4000 no branch of the chain
    applies and the circle is left dark. *)
Theorem energy_bar_buckets (e : Q) :
  ((e <= 250)%Q -> lit (energy_frame e) = 1%nat)
  /\ (forall k, 1 <= k < 16 ->
        (energy_grid k < e <= energy_grid (k + 1))%Q ->
        lit (energy_frame e) = Z.to_nat (k + 1))
  /\ ((4000 < e)%Q ->
        Part000.energy_bar e = [] /\ lit (energy_frame e) = 0%nat).
Proof.
  split; [|split].
  - intros H. unfold energy_frame, Part000.energy_bar.
    apply Qleb_le in H. rewrite H. reflexivity.
  - intros k Hk He. apply energy_bar_bucket; [lia|exact He].
  - intros H.
    assert (E : Part000.energy_bar e = []).
    { unfold Part000.energy_bar. energy_tests e; first [reflexivity | exfalso; lra]. }
    split; [exact E|]. unfold energy_frame. rewrite E. reflexivity.
Qed.

Lemma energy_bar_buckets_witness :
  lit (energy_frame 100) = 1%nat
  /\ lit (energy_frame 1300) = 6%nat
  /\ lit (energy_frame 5000) = 0%nat.
Proof.
  destruct (energy_bar_buckets 100) as (A & _).
  destruct (energy_bar_buckets 1300) as (_ & B & _).
  destruct (energy_bar_buckets 5000) as (_ & _ & C).
  split; [apply A; discriminate|].
  split; [apply (B 5); [lia|split; [reflexivity|discriminate]]|].
  apply C. reflexivity.
Defined.

(** Between any two energy estimates up to 4000, on the grid or off it, the
    louder one never lights fewer LEDs. *)
Theorem energy_bar_monotone (e1 e2 : Q) :
  (e1 <= e2)%Q -> (e2 <= 4000)%Q ->
  (lit (energy_frame e1) <= lit (energy_frame e2))%nat.
Proof.
  intros H12 H2. unfold energy_frame, Part000.energy_bar.
  energy_tests e1; energy_tests e2;
    first [ exfalso; lra | vm_compute; lia ].
Qed.

Lemma energy_bar_monotone_witness :
  (lit (energy_frame (1234 # 10)) <= lit (energy_frame (39999 # 10)))%nat.
Proof.
  apply (energy_bar_monotone (1234 # 10) (39999 # 10)); discriminate.
Defined.

(** ** The tiers grow with the amplitude *)

Ltac tier_tests :=
  repeat match goal with
         | |- context [Qltb ?x ?y] =>
             let T := fresh "T" in
             destruct (Qltb x y) eqn:T;
             [apply Qltb_lt in T | apply Qltb_ge in T]
         | |- context [(?x <? ?y)%Z] =>
             let T := fresh "T" in
             destruct (Z.ltb_spec x y) as [T|T];
             [rewrite Zlt_Qlt in T | rewrite Zle_Qle in T];
             rewrite ?inject_Z_mult in T
         end.

Ltac tier_close :=
  unfold of_int in *; change (inject_Z 2) with 2%Q in *;
  first [ unfold span; cbn [write_first write_last]; lia | exfalso; lra ].

Lemma bass_tier_span (a p : Z) : 1 <= span (bass_tier a p) <= 6.
Proof. unfold bass_tier. tier_tests; unfold span; cbn [write_first write_last]; lia. Qed.

Lemma mid_tier_span (a p : Z) : 1 <= span (mid_tier a p) <= 5.
Proof. unfold mid_tier. tier_tests; unfold span; cbn [write_first write_last]; lia. Qed.

Lemma treble_tier_span (a p : Z) : 1 <= span (treble_tier a p) <= 5.
Proof. unfold treble_tier. tier_tests; unfold span; cbn [write_first write_last]; lia. Qed.

Lemma bass_tier_monotone (p a1 a2 : Z) :
  a1 <= a2 -> span (bass_tier a1 p) <= span (bass_tier a2 p).
Proof.
  intros H. rewrite Zle_Qle in H. unfold bass_tier. tier_tests; tier_close.
Qed.

Lemma mid_tier_monotone (p a1 a2 : Z) :
  a1 <= a2 -> span (mid_tier a1 p) <= span (mid_tier a2 p).
Proof.
  intros H. rewrite Zle_Qle in H. unfold mid_tier. tier_tests; tier_close.
Qed.

Lemma treble_tier_monotone (p a1 a2 : Z) :
  a1 <= a2 -> span (treble_tier a1 p) <= span (treble_tier a2 p).
Proof.
  intros H. rewrite Zle_Qle in H. unfold treble_tier. tier_tests; tier_close.
Qed.

(** Against one threshold, a larger amplitude never lights a shorter bar,
    in any of the three bands; a bar is 1 to 6 LEDs long for the bass and 1
    to 5 for the mid and treble bands, so a tiered-bar frame never shows a
    band dark. *)
Theorem tiers_grow_with_amplitude (p a1 a2 : Z) :
  a1 <= a2 ->
  span (bass_tier a1 p) <= span (bass_tier a2 p)
  /\ span (mid_tier a1 p) <= span (mid_tier a2 p)
  /\ span (treble_tier a1 p) <= span (treble_tier a2 p)
  /\ 1 <= span (bass_tier a1 p) <= 6
  /\ 1 <= span (mid_tier a1 p) <= 5
  /\ 1 <= span (treble_tier a1 p) <= 5.
Proof.
  intros H.
  split; [apply bass_tier_monotone, H|].
  split; [apply mid_tier_monotone, H|].
  split; [apply treble_tier_monotone, H|].
  split; [apply bass_tier_span|].
  split; [apply mid_tier_span|apply treble_tier_span].
Qed.

Lemma tiers_grow_with_amplitude_witness :
  span (bass_tier 10 8) <= span (bass_tier 13 8)
  /\ span (mid_tier 10 8) <= span (mid_tier 13 8).
Proof.
  assert (H : 10 <= 13) by lia.
  destruct (tiers_grow_with_amplitude 8 10 13 H) as (A & B & _).
  split; [exact A|exact B].
Defined.

(** ** No store leaves its array *)

Lemma constrain_range (x lo hi : Z) :
  lo <= hi -> lo <= Arduino.constrain x lo hi <= hi.
Proof.
  intros H. unfold Arduino.constrain.
  destruct (Z.ltb_spec x lo); [lia|]. destruct (Z.ltb_spec hi x); lia.
Qed.

Lemma bass_tier_in_bounds (a p : Z) : in_bounds 0 6 (bass_tier a p).
Proof.
  unfold bass_tier, in_bounds.
  repeat match goal with |- context [if ?c then _ else _] => destruct c end;
    cbn [write_first write_last]; lia.
Qed.

Lemma mid_tier_in_bounds (a p : Z) : in_bounds 6 11 (mid_tier a p).
Proof.
  unfold mid_tier, in_bounds.
  repeat match goal with |- context [if ?c then _ else _] => destruct c end;
    cbn [write_first write_last]; lia.
Qed.

Lemma treble_tier_in_bounds (a p : Z) : in_bounds 11 16 (treble_tier a p).
Proof.
  unfold treble_tier, in_bounds.
  repeat match goal with |- context [if ?c then _ else _] => destruct c end;
    cbn [write_first write_last]; lia.
Qed.

Lemma in_bounds_widen (lo hi lo' hi' : Z) (w : write) :
  in_bounds lo hi w -> lo' <= lo -> hi <= hi' -> in_bounds lo' hi' w.
Proof. unfold in_bounds. lia. Qed.

Lemma tiered_bars_in_bounds {strip frame : Type} {SF : Strips strip frame}
    (s : strip) (a : amps) (t : thresholds) :
  16 <= num_leds s -> stores_in_bounds (tiered_bars s a t).
Proof.
  intros H. unfold stores_in_bounds, tiered_bars. cbn [writes_of flat_map app].
  repeat (apply Forall_cons || apply Forall_nil); cbn [fst snd].
  - apply (in_bounds_widen 0 6); [apply bass_tier_in_bounds|lia|lia].
  - apply (in_bounds_widen 6 11); [apply mid_tier_in_bounds|lia|lia].
  - apply (in_bounds_widen 11 16); [apply treble_tier_in_bounds|lia|lia].
Qed.

Ltac fills_in_bounds :=
  unfold stores_in_bounds; cbn [writes_of flat_map app];
  repeat (apply Forall_cons || apply Forall_nil); unfold in_bounds;
  cbn [fst snd write_first write_last num_leds Main.strips Part000.strips];
  unfold Main.NUM_LEDS_CIRCLE1, Main.NUM_LEDS_CIRCLES_TOTAL,
         Main.NUM_LEDS_SQUARE1, Main.NUM_LEDS_SQUARES_TOTAL,
         Part000.NUM_LEDS_16_CIRCLE, Part000.NUM_LEDS_12_CIRCLE,
         Part000.NUM_LEDS_L_SQUARE, Part000.NUM_LEDS_R_SQUARE in *;
  try lia.

(** In every mode, recognised or not, and for all amplitudes and
    thresholds, each store of the render step of [main.cpp] lies inside the
    array it targets ([leds_circles] of 28, [leds_squares] of 32). *)
Theorem main_stores_stay_in_bounds (m : Z) (a : amps) (t : thresholds) :
  stores_in_bounds (Main.render_step m a t).
Proof.
  unfold Main.render_step.
  assert (G : stores_in_bounds (Main.render m a t)).
  { unfold Main.render.
    destruct (m =? 1); [apply tiered_bars_in_bounds; discriminate|].
    destruct (m =? 2); [fills_in_bounds|].
    destruct (m =? 3); [fills_in_bounds|].
    destruct (m =? 4); [apply tiered_bars_in_bounds; discriminate|].
    destruct (m =? 5); [fills_in_bounds|].
    destruct (m =? 6); [fills_in_bounds|].
    destruct (m =? 7); fills_in_bounds. }
  unfold stores_in_bounds in *. cbn [writes_of flat_map app].
  unfold writes_of in G |- *. rewrite flat_map_app. cbn [flat_map app].
  rewrite app_nil_r. exact G.
Qed.

Lemma sweep_cases (sc ct mc mr : Z) (e : Q) :
  let sc' := if sc <? Part000.NUM_LEDS_12_CIRCLE then sc else 0 in
  let op := Wr Part000.Circle12 (Assign sc' (rgb 0 0 255)) in
  value (Part000.sweep sc ct mc mr e) = (sc' + 1, mr, [op])
  \/ value (Part000.sweep sc ct mc mr e) = (sc', ct, [op]).
Proof.
  cbv zeta. unfold Part000.sweep. rewrite value_bind.
  cbn [ddiv value fst].
  match goal with |- context [if ?c then ret _ else ret _] => destruct c end;
    [left|right]; reflexivity.
Qed.

Lemma sweep_in_bounds (sc ct mc mr : Z) (e : Q) :
  0 <= sc ->
  stores_in_bounds (snd (value (Part000.sweep sc ct mc mr e)))
  /\ 0 <= fst (fst (value (Part000.sweep sc ct mc mr e))) <= 12.
Proof.
  intros H.
  assert (R : 0 <= (if sc <? Part000.NUM_LEDS_12_CIRCLE then sc else 0) < 12).
  { unfold Part000.NUM_LEDS_12_CIRCLE. destruct (Z.ltb_spec sc 12); lia. }
  destruct (sweep_cases sc ct mc mr e) as [E|E]; rewrite E; cbn [fst snd];
    (split; [fills_in_bounds|lia]).
Qed.

Lemma energy_bar_in_bounds (e : Q) : stores_in_bounds (Part000.energy_bar e).
Proof. unfold Part000.energy_bar. energy_tests e; fills_in_bounds. Qed.

Lemma upto_12 (G : Z -> Prop) :
  Forall G (List.map Z.of_nat (seq 0 13)) -> forall n, 0 <= n <= 12 -> G n.
Proof.
  intros F n H. rewrite Forall_forall in F. apply F.
  rewrite <- (Z2Nat.id n) by lia. apply in_map, in_seq. lia.
Qed.

Lemma raw_columns_in_bounds (raw : list Q) :
  stores_in_bounds (Part000.raw_columns raw).
Proof.
  unfold Part000.raw_columns. cbv zeta.
  set (numLeds := Arduino.constrain _ 0 12).
  assert (R : 0 <= numLeds <= 12) by (apply constrain_range; lia).
  clearbody numLeds. revert numLeds R. apply upto_12.
  repeat (apply Forall_cons || apply Forall_nil);
    unfold stores_in_bounds; cbn;
    repeat (apply Forall_cons || apply Forall_nil);
    vm_compute; intuition discriminate.
Qed.

Lemma dual_path_in_bounds {P : Platform} (raw : list Q) (a : amps) :
  stores_in_bounds (value (Part000.dual_path raw a)).
Proof.
  unfold Part000.dual_path. cbv zeta. rewrite value_bind. cbn [ret value fst].
  repeat match goal with
         | |- context [Arduino.constrain ?x 0 4] =>
             let n := fresh "n" in
             let R := fresh "R" in
             assert (R : 0 <= Arduino.constrain x 0 4 <= 4)
               by (apply constrain_range; lia);
             set (n := Arduino.constrain x 0 4) in *; clearbody n
         end.
  unfold fill_solid. fills_in_bounds.
Qed.

Lemma part000_render_in_bounds {P : Platform} st inp raw a t e :
  0 <= Part000.small_circle st <= 12 ->
  stores_in_bounds (snd (value (Part000.render st inp raw a t e)))
  /\ 0 <= fst (fst (value (Part000.render st inp raw a t e))) <= 12.
Proof.
  intros H. unfold Part000.render.
  destruct (Part000.mode inp =? 1).
  { cbn [ret value fst snd]. split; [|exact H].
    apply tiered_bars_in_bounds. discriminate. }
  destruct (Part000.mode inp =? 2); [apply sweep_in_bounds; lia|].
  destruct (Part000.mode inp =? 3).
  { cbn [ret value fst snd]. split; [apply energy_bar_in_bounds|exact H]. }
  destruct (Part000.mode inp =? 4).
  { cbn [ret value fst snd]. split; [apply raw_columns_in_bounds|exact H]. }
  destruct (Part000.mode inp =? 5).
  { rewrite value_bind. cbn [ret value fst snd].
    split; [apply dual_path_in_bounds|exact H]. }
  destruct (Part000.mode inp =? 6).
  { cbn [ret value fst snd]. split; [fills_in_bounds|exact H]. }
  destruct (Part000.mode inp =? 7); cbn [ret value fst snd];
    (split; [fills_in_bounds|exact H]).
Qed.

Lemma part000_run_small_circle {P : Platform} (inputs : list Part000.input) :
  forall st,
  0 <= Part000.small_circle st <= 12 ->
  0 <= Part000.small_circle (part000_run st inputs) <= 12.
Proof.
  induction inputs as [|inp l IH]; intros st H; [exact H|].
  unfold part000_run in *. cbn [fold_left]. apply IH.
  rewrite part000_pass. cbn [Part000.next Part000.small_circle].
  apply part000_render_in_bounds, H.
Qed.

(** In every state [part_000] can reach from its start, the rotating index
    [small_circle] is between 0 and 12, and whatever the next pass reads
    and whatever mode it runs, each store of its render step lies inside
    the array it targets: the dot of mode 2, the columns of mode 4 and the
    mirrored fills of mode 5 included. *)
Theorem part000_stores_stay_in_bounds {P : Platform}
    (t0 : Z) (inputs : list Part000.input) (inp : Part000.input)
    (raw : list Q) (a : amps) (t : thresholds) (e : Q) :
  let st := part000_run (Part000.state_init t0) inputs in
  0 <= Part000.small_circle st <= 12
  /\ stores_in_bounds (snd (value (Part000.render st inp raw a t e))).
Proof.
  cbv zeta.
  assert (I : 0 <= Part000.small_circle
                     (part000_run (Part000.state_init t0) inputs) <= 12).
  { apply part000_run_small_circle. simpl. lia. }
  split; [exact I|]. apply part000_render_in_bounds, I.
Qed.
(** ** The rotating dot: when it moves *)

Lemma sweep_positive (sc ct mc mr : Z) (e : Q) :
  (0 < e)%Q ->
  let sc' := if sc <? Part000.NUM_LEDS_12_CIRCLE then sc else 0 in
  let op := Wr Part000.Circle12 (Assign sc' (rgb 0 0 255)) in
  value (Part000.sweep sc ct mc mr e)
  = if Qltb (round64 (1000000 / e)) (of_int (to_u32 (mc - ct)))
    then (sc' + 1, mr, [op]) else (sc', ct, [op]).
Proof.
  intros He. cbv zeta. unfold Part000.sweep. rewrite value_bind.
  cbn [ddiv value fst].
  replace (Qeq_bool e 0) with false.
  - destruct (Qltb (round64 (1000000 / e)) (of_int (to_u32 (mc - ct))));
      reflexivity.
  - symmetry. destruct (Qeq_bool e 0) eqn:E; [|reflexivity].
    apply Qeq_bool_iff in E. rewrite E in He. discriminate.
Qed.

Lemma to_u32_range (z : Z) : 0 <= to_u32 z < 2 ^ 53.
Proof.
  unfold to_u32. pose proof (Z.mod_pos_bound z (2 ^ 32) eq_refl) as B.
  assert (2 ^ 32 < 2 ^ 53) by reflexivity. lia.
Qed.

Lemma delay_positive (e : Q) : (0 < e)%Q -> (0 < 1000000 / e)%Q.
Proof. intros He. apply Qlt_shift_div_l; [exact He|]. lra. Qed.

(** With a positive energy estimate the dot moves on, and the time stamp is
    renewed, exactly when the milliseconds elapsed since the last move
    exceed the [double] quotient [1000000 / avgEnergy]; otherwise dot and
    time stamp stay.  The rounding of the quotient can decide: the dot
    moves only if the elapsed time exceeds the exact quotient, and surely
    moves once it exceeds it by a millisecond. *)
Theorem dot_advances_on_rounded_delay (sc ct mc mr : Z) (e : Q) :
  (0 < e)%Q ->
  (dot_advances sc ct mc mr e
   <-> (round64 (1000000 / e) < of_int (to_u32 (mc - ct)))%Q)
  /\ (dot_advances sc ct mc mr e -> (1000000 / e < of_int (to_u32 (mc - ct)))%Q)
  /\ ((1000000 / e <= of_int (to_u32 (mc - ct) - 1))%Q ->
        dot_advances sc ct mc mr e)
  /\ (dot_advances sc ct mc mr e ->
        snd (fst (value (Part000.sweep sc ct mc mr e))) = mr)
  /\ (~ dot_advances sc ct mc mr e ->
        value (Part000.sweep sc ct mc mr e)
        = ((if sc <? Part000.NUM_LEDS_12_CIRCLE then sc else 0), ct,
           [Wr Part000.Circle12
               (Assign (if sc <? Part000.NUM_LEDS_12_CIRCLE then sc else 0)
                       (rgb 0 0 255))])).
Proof.
  intros He. pose proof (delay_positive e He) as Hd.
  pose proof (to_u32_range (mc - ct)) as Hn.
  assert (A : dot_advances sc ct mc mr e
              <-> (round64 (1000000 / e) < of_int (to_u32 (mc - ct)))%Q).
  { unfold dot_advances. rewrite (sweep_positive sc ct mc mr e He).
    destruct (Qltb (round64 (1000000 / e)) (of_int (to_u32 (mc - ct)))) eqn:L;
      cbn [fst].
    - apply Qltb_lt in L. tauto.
    - apply Qltb_ge in L. split; [lia|].
      intros H. exfalso. apply (Qlt_not_le _ _ H L). }
  split; [exact A|]. split; [|split; [|split]].
  - intros D. apply A in D. apply Qnot_le_lt. intros G.
    assert (N : (0 <= of_int (to_u32 (mc - ct)))%Q) by (apply of_int_nonneg; lia).
    pose proof (round64_monotone _ _ N G) as M.
    rewrite round64_of_int in M by lia. lra.
  - intros G. apply A.
    assert (N : (of_int (to_u32 (mc - ct) - 1) < of_int (to_u32 (mc - ct)))%Q).
    { unfold of_int. rewrite <- Zlt_Qlt. lia. }
    assert (P : 0 <= to_u32 (mc - ct) - 1).
    { destruct (Z_lt_le_dec (to_u32 (mc - ct) - 1) 0) as [B|B]; [|exact B].
      exfalso. assert (Q0 : (of_int (to_u32 (mc - ct) - 1) < 0)%Q).
      { unfold of_int. change 0%Q with (inject_Z 0). rewrite <- Zlt_Qlt. exact B. }
      lra. }
    pose proof (round64_monotone _ _ (Qlt_le_weak _ _ Hd) G) as M.
    rewrite round64_of_int in M by lia. lra.
  - unfold dot_advances. rewrite (sweep_positive sc ct mc mr e He).
    destruct (Qltb (round64 (1000000 / e)) (of_int (to_u32 (mc - ct))));
      cbn [fst snd]; [reflexivity|lia].
  - unfold dot_advances. rewrite (sweep_positive sc ct mc mr e He).
    destruct (Qltb (round64 (1000000 / e)) (of_int (to_u32 (mc - ct))));
      cbn [fst snd]; [|reflexivity].
    intros N. exfalso. apply N. reflexivity.
Qed.

Lemma dot_advances_on_rounded_delay_witness :
  dot_advances 3 1000 1600 1601 2000.
Proof.
  assert (He : (0 < 2000)%Q) by reflexivity.
  destruct (dot_advances_on_rounded_delay 3 1000 1600 1601 2000 He)
    as (_ & _ & A & _).
  apply A. vm_compute. discriminate.
Defined.

(** The rounding does decide.  With the energy estimate 1666.6666666666667,
    the [double] next to 5000/3, the exact quotient is below 600, its
    rounding is 600, and after 600 ms the dot stays. *)
Remark rounded_delay_decides :
  (1000000 / round64 (5000 # 3) < 600)%Q
  /\ (round64 (1000000 / round64 (5000 # 3)) == 600)%Q
  /\ ~ dot_advances 3 1000 1600 1601 (round64 (5000 # 3)).
Proof.
  split; [vm_compute; reflexivity|]. split; [vm_compute; reflexivity|].
  unfold dot_advances. vm_compute. discriminate.
Qed.

(** A louder block never keeps the dot longer: if the dot moves on at some
    positive energy estimate, it also moves on, the clock readings being
    the same, at any larger one. *)
Theorem louder_moves_no_later (sc ct mc mr : Z) (e1 e2 : Q) :
  (0 < e1)%Q -> (e1 <= e2)%Q ->
  dot_advances sc ct mc mr e1 -> dot_advances sc ct mc mr e2.
Proof.
  intros H1 H12. unfold dot_advances.
  assert (H2 : (0 < e2)%Q) by lra.
  rewrite (sweep_positive sc ct mc mr e1 H1), (sweep_positive sc ct mc mr e2 H2).
  set (x := of_int (to_u32 (mc - ct))).
  destruct (Qltb (round64 (1000000 / e1)) x) eqn:L1; cbn [fst]; [|lia].
  intros _. apply Qltb_lt in L1.
  replace (Qltb (round64 (1000000 / e2)) x) with true; [reflexivity|].
  symmetry. apply Qltb_lt.
  apply Qle_lt_trans with (round64 (1000000 / e1)); [|exact L1].
  apply round64_monotone; [apply Qlt_le_weak, delay_positive, H2|].
  apply Qle_shift_div_r; [exact H2|].
  assert (D : (0 <= 1000000 / e1)%Q) by (apply Qlt_le_weak, delay_positive, H1).
  assert (E : (1000000 / e1 * e1 == 1000000)%Q) by (field; lra).
  assert (M : (1000000 / e1 * e1 <= 1000000 / e1 * e2)%Q).
  { rewrite !(Qmult_comm (1000000 / e1)).
    apply Qmult_le_compat_r; assumption. }
  lra.
Qed.

Lemma louder_moves_no_later_witness :
  dot_advances 3 1000 1600 1601 4000.
Proof.
  apply (louder_moves_no_later 3 1000 1600 1601 2000 4000).
  - reflexivity.
  - discriminate.
  - vm_compute. reflexivity.
Defined.

Lemma to_u32_elapsed (t0 d : Z) :
  0 <= d < 2 ^ 32 -> to_u32 (to_u32 (t0 + d) - to_u32 t0) = d.
Proof.
  intros H. unfold to_u32.
  rewrite <- Zminus_mod. replace (t0 + d - t0) with d by lia.
  apply Z.mod_small. exact H.
Qed.

(** The elapsed time is an [unsigned long] difference, so it is right
    across the roll-over of [millis()]: if [d] milliseconds (less than
    2^32) separate the time stamp from the reading, the dot does what it
    would do with time stamp 0 and reading [d], wherever the 32-bit counter
    wrapped in between. *)
Theorem sweep_survives_rollover (sc t0 d mr : Z) (e : Q) :
  0 <= d < 2 ^ 32 ->
  fst (fst (value (Part000.sweep sc (to_u32 t0) (to_u32 (t0 + d)) mr e)))
  = fst (fst (value (Part000.sweep sc 0 d mr e)))
  /\ snd (value (Part000.sweep sc (to_u32 t0) (to_u32 (t0 + d)) mr e))
     = snd (value (Part000.sweep sc 0 d mr e)).
Proof.
  intros H. unfold Part000.sweep. rewrite !value_bind. cbn [ddiv value fst].
  rewrite (to_u32_elapsed t0 d H).
  replace (to_u32 (d - 0)) with d
    by (unfold to_u32; rewrite Z.sub_0_r, Z.mod_small; [reflexivity|exact H]).
  match goal with |- context [if ?c then ret _ else ret _] => destruct c end;
    split; reflexivity.
Qed.

Lemma sweep_survives_rollover_witness :
  fst (fst (value (Part000.sweep 3 (to_u32 4294967000)
                                 (to_u32 (4294967000 + 600)) 9 2000)))
  = fst (fst (value (Part000.sweep 3 0 600 9 2000))).
Proof.
  assert (H : 0 <= 600 < 2 ^ 32) by (split; [lia|reflexivity]).
  destruct (sweep_survives_rollover 3 4294967000 600 9 2000 H) as [A _].
  exact A.
Defined.

(** ** Mode 4 of [part_000]: the columns fill in order *)

Lemma rawAmplitude_nonneg (raw : list Q) : (0 <= Part000.rawAmplitude raw)%Q.
Proof.
  unfold Part000.rawAmplitude. cbv zeta.
  apply Qle_shift_div_l; [reflexivity|].
  rewrite Qmult_0_l.
  assert (G : forall l acc, (0 <= acc)%Q ->
            (0 <= fold_left (fun acc i =>
                     (acc + Arduino.abs (nth i raw 0 - mean raw))%Q) l acc)%Q).
  { induction l as [|i l IH]; intros acc Ha; [exact Ha|].
    cbn [fold_left]. apply IH.
    assert (A := Qabs_nonneg (nth i raw 0 - mean raw)%Q).
    unfold Arduino.abs. lra. }
  apply G. apply Qle_refl.
Qed.

Lemma map_from_zero (x in_max out_max : Z) :
  0 < in_max -> Arduino.map x 0 in_max 0 out_max = Z.quot (x * out_max) in_max.
Proof.
  intros H. unfold Arduino.map. rewrite !Z.sub_0_r, Z.add_0_r.
  destruct (Z.eqb_spec in_max 0); [lia|reflexivity].
Qed.

Lemma raw_columns_by_count (raw : list Q) :
  let numLeds :=
    Arduino.constrain
      (Arduino.map (to_int (Part000.rawAmplitude raw)) 0 500 0 13) 0 12 in
  Part000.raw_columns raw
  = [Clear]
    ++ List.map (fun p => Wr Part000.LSquare (Assign (fst p) (snd p)))
                (firstn (Z.to_nat numLeds) column_order)
    ++ [Show]
  /\ lit (Part000.leds_L_SQUARE (fst (run_ops cleared (Part000.raw_columns raw))))
     = Z.to_nat numLeds.
Proof.
  cbv zeta. unfold Part000.raw_columns. cbv zeta.
  set (numLeds := Arduino.constrain _ 0 12).
  assert (R : 0 <= numLeds <= 12) by (apply constrain_range; lia).
  clearbody numLeds. revert numLeds R. apply upto_12.
  repeat (apply Forall_cons || apply Forall_nil);
    split; vm_compute; reflexivity.
Qed.

(** Mode 4 lights [numLeds] LEDs of the left square, where [numLeds] is the
    mean absolute deviation of the raw block, truncated, times 13/500,
    truncated, capped at 12: first the red column 0, 7, 8, 15, then the
    green column 1, 6, 9, 14, then the blue column 2, 5, 10, 13, each LED
    once.  The frame is cleared before and pushed after. *)
Theorem raw_columns_fill_in_order (raw : list Q) :
  let numLeds :=
    Arduino.constrain
      (Arduino.map (to_int (Part000.rawAmplitude raw)) 0 500 0 13) 0 12 in
  numLeds = Z.min 12 (Z.quot (to_int (Part000.rawAmplitude raw) * 13) 500)
  /\ 0 <= numLeds <= 12
  /\ Part000.raw_columns raw
     = [Clear]
       ++ List.map (fun p => Wr Part000.LSquare (Assign (fst p) (snd p)))
                   (firstn (Z.to_nat numLeds) column_order)
       ++ [Show]
  /\ lit (Part000.leds_L_SQUARE (fst (run_ops cleared (Part000.raw_columns raw))))
     = Z.to_nat numLeds.
Proof.
  intros numLeds.
  destruct (raw_columns_by_count raw) as [E L]. fold numLeds in E, L.
  split; [|split; [apply constrain_range; lia|split; assumption]].
  unfold numLeds. rewrite map_from_zero by lia.
  assert (N := to_int_nonneg _ (rawAmplitude_nonneg raw)).
  assert (Q0 : 0 <= Z.quot (to_int (Part000.rawAmplitude raw) * 13) 500)
    by (apply Z.quot_pos; lia).
  unfold Arduino.constrain.
  destruct (Z.ltb_spec (Z.quot (to_int (Part000.rawAmplitude raw) * 13) 500) 0);
    [lia|].
  destruct (Z.ltb_spec 12 (Z.quot (to_int (Part000.rawAmplitude raw) * 13) 500));
    lia.
Qed.

(** ** A constant input is silence *)

Lemma acquire_from_constant (c : Z) (n : nat) : forall i prev,
  (i = 0%nat \/ prev = corrected 0 0 c) ->
  acquire_from (fun _ => c) i prev n = repeat (corrected 0 0 c) n.
Proof.
  induction n as [|n IH]; intros i prev H; [reflexivity|].
  cbn [acquire_from repeat].
  assert (E : corrected i prev c = corrected 0 0 c).
  { unfold corrected in *. destruct (out_of_range (of_int c)); [|reflexivity].
    destruct i as [|i]; [reflexivity|].
    destruct H as [H|H]; [discriminate|]. cbn in *. exact H. }
  rewrite E. f_equal. apply IH. right. reflexivity.
Qed.

Lemma sum_repeat (x : Q) (n : nat) :
  (sum (repeat x n) == of_int (Z.of_nat n) * x)%Q.
Proof.
  induction n as [|n IH].
  - unfold sum, of_int. simpl. ring.
  - cbn [repeat]. rewrite sum_cons, IH, Nat2Z.inj_succ.
    unfold of_int, Z.succ. rewrite inject_Z_plus.
    change (inject_Z 1) with 1%Q. ring.
Qed.

Lemma remove_dc_constant (x : Q) : all_zero (remove_dc (repeat x SAMPLES)).
Proof.
  unfold remove_dc, all_zero. rewrite Forall_map, Forall_forall.
  intros y Hy. apply repeat_spec in Hy. subst y.
  unfold mean. rewrite sum_repeat. field.
  unfold of_int, SAMPLES. discriminate.
Qed.

Lemma analyse_flat {P : Platform} (v : list Q) :
  zero_preserving P -> all_zero (remove_dc v) ->
  bands (value (analyse v)) = amps_of 0
  /\ energy (value (analyse v)) == 0
  /\ log (analyse v) = [].
Proof.
  intros lawful H. unfold analyse. cbv zeta.
  assert (Z0 := spectrum_zero lawful _ (iir_zero _ H)).
  rewrite (band_amplitudes_zero _ Z0).
  rewrite normalize_skipped
    by (rewrite (avgEnergy_zero lawful _ Z0); apply Qle_refl).
  unfold bind, ret, value, log; cbn [fst snd bands energy app].
  split; [reflexivity|]. split; [apply (avgEnergy_zero lawful), Z0|reflexivity].
Qed.

(** Any constant reading, in the ADC range or not, is silence to the
    analyser: the corrected block is constant, the DC removal cancels it,
    and with a library that maps zero to zero the bands are 0, 0, 0 and the
    energy estimate is 0.  So a pass of mode 2 of [part_000] on a constant
    input divides by zero. *)
Theorem constant_input_is_silence {P : Platform} (c : Z) :
  zero_preserving P ->
  acquire (fun _ => c) = repeat (corrected 0 0 c) SAMPLES
  /\ all_zero (remove_dc (acquire (fun _ => c)))
  /\ bands (value (analyse (acquire (fun _ => c)))) = amps_of 0
  /\ energy (value (analyse (acquire (fun _ => c)))) == 0
  /\ (forall st now,
        Exists divides_by_zero
          (log (Part000.lightMusicTask st (part000_input (fun _ => c) 2 now)))).
Proof.
  intros lawful.
  assert (A : acquire (fun _ => c) = repeat (corrected 0 0 c) SAMPLES).
  { unfold acquire. apply acquire_from_constant. left. reflexivity. }
  assert (D : all_zero (remove_dc (acquire (fun _ => c)))).
  { rewrite A. apply remove_dc_constant. }
  destruct (analyse_flat _ lawful D) as (HB & HE & HL).
  split; [exact A|]. split; [exact D|]. split; [exact HB|]. split; [exact HE|].
  intros st now. rewrite part000_mode2_log by reflexivity.
  apply Exists_app. right. constructor. exact HE.
Qed.

Lemma constant_input_is_silence_witness :
  bands (value (@analyse bench_platform (acquire steady))) = amps_of 0.
Proof.
  destruct (@constant_input_is_silence bench_platform 2048 bench_platform_lawful)
    as (_ & _ & B & _).
  exact B.
Defined.

(** ** Mode 5 of [part_000]: the right square mirrors the left *)

Lemma mirror_written (first n k : Z) (c : CRGB) :
  written (fill_solid (15 - first - n + 1) n c) k
  = written (fill_solid first n c) (15 - k).
Proof.
  unfold written, fill_solid; cbn [write_first write_last].
  destruct (Z.leb_spec (15 - first - n + 1) k), (Z.ltb_spec k (15 - first - n + 1 + n)),
           (Z.leb_spec first (15 - k)), (Z.ltb_spec (15 - k) (first + n));
    cbn [andb]; try reflexivity; lia.
Qed.

(** Mode 5 clears, fills the left square from three raw-path counts and the
    right square from three live-path counts, and pushes.  Every count is
    between 0 and 4; a live count is [amp * 5 / 255] rounded down and capped
    at 4.  The left bars start at LEDs 0, 4, 8 and grow upward; the right
    bars end at LEDs 15, 11, 7 and grow downward, so that a right bar is
    the mirror image (LED [k] for LED [15 - k]) of a left bar of the same
    count. *)
Theorem dual_path_mirrors {P : Platform} (raw : list Q) (a : amps) :
  0 <= ampR a -> 0 <= ampG a -> 0 <= ampB a ->
  let nR := Z.min 4 (Z.quot (ampR a * 5) 255) in
  let nG := Z.min 4 (Z.quot (ampG a * 5) 255) in
  let nB := Z.min 4 (Z.quot (ampB a * 5) 255) in
  (exists rR rG rB,
      0 <= rR <= 4 /\ 0 <= rG <= 4 /\ 0 <= rB <= 4
      /\ value (Part000.dual_path raw a)
         = [ Clear;
             Wr Part000.LSquare (fill_solid 0 rR (rgb 255 0 0));
             Wr Part000.LSquare (fill_solid 4 rG (rgb 0 255 0));
             Wr Part000.LSquare (fill_solid 8 rB (rgb 0 0 255));
             Wr Part000.RSquare (fill_solid (16 - nR) nR (rgb 255 0 0));
             Wr Part000.RSquare (fill_solid (16 - 4 - nG) nG (rgb 0 255 0));
             Wr Part000.RSquare (fill_solid (16 - 8 - nB) nB (rgb 0 0 255));
             Show ])
  /\ (forall k c,
        written (fill_solid (16 - nR) nR c) k = written (fill_solid 0 nR c) (15 - k)
        /\ written (fill_solid (16 - 4 - nG) nG c) k
           = written (fill_solid 4 nG c) (15 - k)
        /\ written (fill_solid (16 - 8 - nB) nB c) k
           = written (fill_solid 8 nB c) (15 - k)).
Proof.
  intros HR HG HB nR nG nB.
  assert (L : forall x, 0 <= x ->
            Arduino.constrain (Arduino.map x 0 255 0 5) 0 4
            = Z.min 4 (Z.quot (x * 5) 255)).
  { intros x Hx. rewrite map_from_zero by lia.
    assert (Q0 : 0 <= Z.quot (x * 5) 255) by (apply Z.quot_pos; lia).
    unfold Arduino.constrain.
    destruct (Z.ltb_spec (Z.quot (x * 5) 255) 0); [lia|].
    destruct (Z.ltb_spec 4 (Z.quot (x * 5) 255)); lia. }
  split.
  - unfold Part000.dual_path. cbv zeta. rewrite value_bind. cbn [ret value fst].
    rewrite (L _ HR), (L _ HG), (L _ HB). fold nR nG nB.
    eexists _, _, _. split; [|split; [|split; [|reflexivity]]];
      apply constrain_range; lia.
  - intros k c. split; [|split].
    + rewrite <- mirror_written. f_equal. f_equal. lia.
    + rewrite <- mirror_written. f_equal. f_equal. lia.
    + rewrite <- mirror_written. f_equal. f_equal. lia.
Qed.

Lemma dual_path_mirrors_witness :
  written (fill_solid (16 - Z.min 4 (Z.quot (120 * 5) 255))
                      (Z.min 4 (Z.quot (120 * 5) 255)) Black) 14
  = written (fill_solid 0 (Z.min 4 (Z.quot (120 * 5) 255)) Black) (15 - 14).
Proof.
  assert (H : 0 <= 120) by lia.
  destruct (@dual_path_mirrors bench_platform (raw_copy steady) (amps_of 120) H H H)
    as [_ M].
  destruct (M 14 Black) as [A _]. exact A.
Defined.

(** ** Normalisation removes the loudness *)

(** In the raw path of mode 5, scaling the three band amplitudes and the
    energy estimate by the same positive factor leaves the normalised
    amplitudes unchanged. *)
Theorem normalize_raw_scale_free (a : Part000.raw_amps) (e k : Q) :
  (0 < e)%Q -> (0 < k)%Q ->
  let scaled := {| Part000.rawAmpR := k * Part000.rawAmpR a;
                   Part000.rawAmpG := k * Part000.rawAmpG a;
                   Part000.rawAmpB := k * Part000.rawAmpB a |} in
  let n := value (Part000.normalize_raw a e) in
  let n' := value (Part000.normalize_raw scaled (k * e)) in
  Part000.rawAmpR n' == Part000.rawAmpR n
  /\ Part000.rawAmpG n' == Part000.rawAmpG n
  /\ Part000.rawAmpB n' == Part000.rawAmpB n.
Proof.
  intros He Hk. cbv zeta.
  assert (Hke : (0 < k * e)%Q) by (apply Qmult_lt_0_compat; assumption).
  rewrite (normalize_raw_positive _ _ He), (normalize_raw_positive _ _ Hke).
  cbn [value fst Part000.rawAmpR Part000.rawAmpG Part000.rawAmpB].
  split; [|split]; field; split; lra.
Qed.

Lemma normalize_raw_scale_free_witness :
  Part000.rawAmpR
    (value (Part000.normalize_raw
              {| Part000.rawAmpR := 3 * 7; Part000.rawAmpG := 3 * 8;
                 Part000.rawAmpB := 3 * 9 |} (3 * 5)))
  == Part000.rawAmpR
       (value (Part000.normalize_raw
                 {| Part000.rawAmpR := 7; Part000.rawAmpG := 8;
                    Part000.rawAmpB := 9 |} 5)).
Proof.
  assert (He : (0 < 5)%Q) by reflexivity.
  assert (Hk : (0 < 3)%Q) by reflexivity.
  destruct (normalize_raw_scale_free
              {| Part000.rawAmpR := 7; Part000.rawAmpG := 8;
                 Part000.rawAmpB := 9 |} 5 3 He Hk) as [A _].
  exact A.
Defined.

(** ** [webServerTask]: what the routes can do to [mode] *)






(** ** The thresholds are never negative *)

Lemma average_nonneg (avg : Q) (k new : Z) :
  0 <= k -> (0 <= avg)%Q -> 0 <= new -> (0 <= average avg k new)%Q.
Proof.
  intros Hk Ha Hn. unfold average.
  apply Qle_shift_div_l; [apply of_int_succ_pos, Hk|].
  rewrite Qmult_0_l.
  assert (A := of_int_nonneg k Hk). assert (B := of_int_nonneg new Hn).
  assert (M : (0 <= avg * of_int k)%Q) by (apply Qmult_le_0_compat; assumption).
  lra.
Qed.

Lemma smooth_nonneg (s : smoothed) (a : amps) :
  smoothed_nonneg s -> 0 <= ampR a -> 0 <= ampG a -> 0 <= ampB a ->
  smoothed_nonneg (smooth s a).
Proof.
  intros (Hc & HR & HG & HB) AR AG AB.
  unfold smoothed_nonneg, smooth; cbn [count avgAmpR avgAmpG avgAmpB].
  split; [rewrite saturate_min; lia|].
  split; [|split]; apply average_nonneg; assumption.
Qed.

Lemma thresholds_of_nonneg (s : smoothed) :
  smoothed_nonneg s -> thresholds_nonneg (thresholds_of s).
Proof.
  intros (Hc & HR & HG & HB).
  unfold thresholds_nonneg, thresholds_of; cbn [porigR porigG porigB].
  split; [|split]; apply to_int_nonneg; apply Qmult_le_0_compat;
    try assumption; discriminate.
Qed.

Lemma main_run_nonneg {P : Platform} (inputs : list Main.input) : forall st,
  smoothed_nonneg (Main.avg st) ->
  smoothed_nonneg (Main.avg (main_run st inputs)).
Proof.
  induction inputs as [|inp l IH]; intros st H; [exact H|].
  unfold main_run in *. cbn [fold_left]. apply IH.
  rewrite main_pass. cbn [Main.next Main.avg].
  destruct (analyse_nonneg (acquire (Main.analogRead inp))) as (A & B & C).
  apply smooth_nonneg; assumption.
Qed.

Lemma part000_run_nonneg {P : Platform} (inputs : list Part000.input) :
  forall st,
  smoothed_nonneg (Part000.avg st) ->
  smoothed_nonneg (Part000.avg (part000_run st inputs)).
Proof.
  induction inputs as [|inp l IH]; intros st H; [exact H|].
  unfold part000_run in *. cbn [fold_left]. apply IH.
  rewrite part000_pass. cbn [Part000.next Part000.avg].
  destruct (analyse_nonneg (acquire (Part000.analogRead inp))) as (A & B & C).
  apply smooth_nonneg; assumption.
Qed.

Lemma smoothed_init_nonneg : smoothed_nonneg smoothed_init.
Proof. unfold smoothed_nonneg, smoothed_init; cbn. repeat split; discriminate. Qed.

(** In every state either sketch can reach from its start, whatever was
    read, in whatever modes and with whatever library, the smoothed
    amplitudes are not negative, and neither are the three thresholds the
    next pass compares the bands with. *)
Theorem thresholds_never_negative {P : Platform} :
  (forall inputs,
      let s := Main.avg (main_run Main.state_init inputs) in
      smoothed_nonneg s /\ thresholds_nonneg (thresholds_of s))
  /\ (forall t0 inputs,
        let s := Part000.avg (part000_run (Part000.state_init t0) inputs) in
        smoothed_nonneg s /\ thresholds_nonneg (thresholds_of s)).
Proof.
  split.
  - intros inputs s.
    assert (N : smoothed_nonneg s)
      by (apply main_run_nonneg, smoothed_init_nonneg).
    split; [exact N|apply thresholds_of_nonneg, N].
  - intros t0 inputs s.
    assert (N : smoothed_nonneg s)
      by (apply part000_run_nonneg, smoothed_init_nonneg).
    split; [exact N|apply thresholds_of_nonneg, N].
Qed.
